(** * MotleyCrewMiniatures: the rules engine of [main.py], embedded and verified

    The engine is a Python class [GameState] whose methods mutate a board, a
    list of alive figures, two dead pools, two scores and the [Figure] objects
    themselves.  Figures are shared mutable objects: the same object is
    referenced from a board slot, from the alive list and, once dead, from a
    dead pool.  The embedding therefore keeps an object store ([heap]) from
    references to figure records, and every container holds references.

    Methods are state transformers in a small state-and-exception monad:
    a Python exception ([IndexError], [TypeError], [ValueError]) is an
    outcome of its own, carrying the state as mutated up to the raise. *)

From stdpp Require Import gmap list strings pretty.

Local Open Scope Z_scope.

(** ** Enumerations *)

Inductive FigureType := KNIGHT | BARBARIAN | ARBALIST | BLACK_MAGE | WHITE_MAGE.
Inductive Player := ONE | TWO.

#[global] Instance FigureType_eq_dec : EqDecision FigureType.
Proof. solve_decision. Defined.
#[global] Instance Player_eq_dec : EqDecision Player.
Proof. solve_decision. Defined.

(** [FigureType.value] *)
Definition type_value (t : FigureType) : string :=
  match t with
  | KNIGHT => "Knight"
  | BARBARIAN => "Barbarian"
  | ARBALIST => "Arbalist"
  | BLACK_MAGE => "Black Mage"
  | WHITE_MAGE => "White Mage"
  end.

(** [Player.TWO if p == Player.ONE else Player.ONE] *)
Definition opponent (p : Player) : Player :=
  match p with ONE => TWO | TWO => ONE end.

(** A reference to a [Figure] object. *)
Definition ref := nat.

(** A board coordinate [(row, col)]; Python integers, so possibly negative. *)
Definition pos := (Z * Z)%type.

(** ** class Figure *)

Module Figure.

Record t := mk {
  type : FigureType;
  player : Player;
  position : option pos;
  has_moved : bool;
  has_acted : bool;
  counter_containment_turns : Z;
  max_life : Z;
  move : Z;
  attack : Z;
  reach : Z;
  life : Z;
  is_dead : bool
}.

(** The stat table of [Figure.__init__]: max_life, move, attack, reach. *)
Definition stats (ft : FigureType) : Z * Z * Z * Z :=
  match ft with
  | KNIGHT => (7, 4, 3, 1)
  | BARBARIAN => (8, 3, 4, 1)
  | ARBALIST => (5, 2, 2, 3)
  | BLACK_MAGE => (7, 2, 1, 2)
  | WHITE_MAGE => (4, 2, 1, 2)
  end.

(** [Figure.__init__(figure_type, player)] *)
Definition __init__ (figure_type : FigureType) (pl : Player) : t :=
  let '(ml, mv, at_, rc) := stats figure_type in
  {| type := figure_type; player := pl; position := None;
     has_moved := false; has_acted := false;
     counter_containment_turns := 0;
     max_life := ml; move := mv; attack := at_; reach := rc;
     life := ml; is_dead := false |}.

(** Attribute assignments. *)
Definition set_player (v : Player) (f : t) : t :=
  mk (type f) v (position f) (has_moved f) (has_acted f)
     (counter_containment_turns f) (max_life f) (move f) (attack f)
     (reach f) (life f) (is_dead f).
Definition set_position (v : option pos) (f : t) : t :=
  mk (type f) (player f) v (has_moved f) (has_acted f)
     (counter_containment_turns f) (max_life f) (move f) (attack f)
     (reach f) (life f) (is_dead f).
Definition set_has_moved (v : bool) (f : t) : t :=
  mk (type f) (player f) (position f) v (has_acted f)
     (counter_containment_turns f) (max_life f) (move f) (attack f)
     (reach f) (life f) (is_dead f).
Definition set_has_acted (v : bool) (f : t) : t :=
  mk (type f) (player f) (position f) (has_moved f) v
     (counter_containment_turns f) (max_life f) (move f) (attack f)
     (reach f) (life f) (is_dead f).
Definition set_counter_containment_turns (v : Z) (f : t) : t :=
  mk (type f) (player f) (position f) (has_moved f) (has_acted f)
     v (max_life f) (move f) (attack f) (reach f) (life f) (is_dead f).
Definition set_life (v : Z) (f : t) : t :=
  mk (type f) (player f) (position f) (has_moved f) (has_acted f)
     (counter_containment_turns f) (max_life f) (move f) (attack f)
     (reach f) v (is_dead f).
Definition set_is_dead (v : bool) (f : t) : t :=
  mk (type f) (player f) (position f) (has_moved f) (has_acted f)
     (counter_containment_turns f) (max_life f) (move f) (attack f)
     (reach f) (life f) v.

End Figure.

#[global] Instance Figure_inhabited : Inhabited Figure.t :=
  populate (Figure.__init__ KNIGHT ONE).

(** ** Dictionaries keyed by [Player] *)

Record PlayerDict (A : Type) := mkPlayerDict { at_one : A; at_two : A }.
Arguments mkPlayerDict {A} _ _.
Arguments at_one {A} _.
Arguments at_two {A} _.

Definition dget {A} (d : PlayerDict A) (p : Player) : A :=
  match p with ONE => at_one d | TWO => at_two d end.

Definition dset {A} (d : PlayerDict A) (p : Player) (v : A) : PlayerDict A :=
  match p with
  | ONE => mkPlayerDict v (at_two d)
  | TWO => mkPlayerDict (at_one d) v
  end.

Arguments dget : simpl never.
Arguments dset : simpl never.

(** ** class GameState *)

Record GameState := mkGameState {
  board : list (list (option ref));
  current_player : Player;
  figures : list ref;
  dead_figures : PlayerDict (list ref);
  scores : PlayerDict Z;
  terrain : list pos;
  magic_bomb_used : PlayerDict bool;
  turn_count : Z;
  game_over : bool;
  winner : option Player;
  (** the object store: the [Figure] objects that references point to *)
  heap : gmap ref Figure.t
}.

Definition set_board v (s : GameState) : GameState :=
  mkGameState v (current_player s) (figures s) (dead_figures s) (scores s)
    (terrain s) (magic_bomb_used s) (turn_count s) (game_over s) (winner s)
    (heap s).
Definition set_current_player v (s : GameState) : GameState :=
  mkGameState (board s) v (figures s) (dead_figures s) (scores s)
    (terrain s) (magic_bomb_used s) (turn_count s) (game_over s) (winner s)
    (heap s).
Definition set_figures v (s : GameState) : GameState :=
  mkGameState (board s) (current_player s) v (dead_figures s) (scores s)
    (terrain s) (magic_bomb_used s) (turn_count s) (game_over s) (winner s)
    (heap s).
Definition set_dead_figures v (s : GameState) : GameState :=
  mkGameState (board s) (current_player s) (figures s) v (scores s)
    (terrain s) (magic_bomb_used s) (turn_count s) (game_over s) (winner s)
    (heap s).
Definition set_scores v (s : GameState) : GameState :=
  mkGameState (board s) (current_player s) (figures s) (dead_figures s) v
    (terrain s) (magic_bomb_used s) (turn_count s) (game_over s) (winner s)
    (heap s).
Definition set_magic_bomb_used v (s : GameState) : GameState :=
  mkGameState (board s) (current_player s) (figures s) (dead_figures s)
    (scores s) (terrain s) v (turn_count s) (game_over s) (winner s)
    (heap s).
Definition set_turn_count v (s : GameState) : GameState :=
  mkGameState (board s) (current_player s) (figures s) (dead_figures s)
    (scores s) (terrain s) (magic_bomb_used s) v (game_over s) (winner s)
    (heap s).
Definition set_game_over v (s : GameState) : GameState :=
  mkGameState (board s) (current_player s) (figures s) (dead_figures s)
    (scores s) (terrain s) (magic_bomb_used s) (turn_count s) v (winner s)
    (heap s).
Definition set_winner v (s : GameState) : GameState :=
  mkGameState (board s) (current_player s) (figures s) (dead_figures s)
    (scores s) (terrain s) (magic_bomb_used s) (turn_count s) (game_over s) v
    (heap s).
Definition set_heap v (s : GameState) : GameState :=
  mkGameState (board s) (current_player s) (figures s) (dead_figures s)
    (scores s) (terrain s) (magic_bomb_used s) (turn_count s) (game_over s)
    (winner s) v.

(** [GameState.__init__]: an empty 8x8 board and the two terrain cells. *)
Definition GameState__init__ : GameState :=
  {| board := replicate 8 (replicate 8 None);
     current_player := ONE;
     figures := [];
     dead_figures := mkPlayerDict [] [];
     scores := mkPlayerDict 0 0;
     terrain := [(3, 0); (4, 7)];
     magic_bomb_used := mkPlayerDict false false;
     turn_count := 0;
     game_over := false;
     winner := None;
     heap := ∅ |}.

(** Dereference: the object a reference points to. *)
Definition fig (s : GameState) (r : ref) : Figure.t := heap s !!! r.

Arguments fig : simpl never.

(** Mutate the object behind a reference. *)
Definition update_figure (r : ref) (f : Figure.t → Figure.t) (s : GameState)
  : GameState :=
  set_heap (<[r := f (fig s r)]> (heap s)) s.

(** ** Outcomes: a returned value or a raised exception, with the state *)

Inductive Exn := IndexError | TypeError | ValueError.

Inductive Result (A : Type) :=
| Ok (a : A) (s : GameState)
| Raise (e : Exn) (s : GameState).
Arguments Ok {A} _ _.
Arguments Raise {A} _ _.

Definition M (A : Type) : Type := GameState → Result A.

Definition ret {A} (a : A) : M A := λ s, Ok a s.

Definition bind {A B} (m : M A) (k : A → M B) : M B :=
  λ s, match m s with
       | Ok a s' => k a s'
       | Raise e s' => Raise e s'
       end.

Definition raise {A} (e : Exn) : M A := λ s, Raise e s.

Definition modify (f : GameState → GameState) : M unit := λ s, Ok tt (f s).

Notation "'let*' x ':=' m 'in' k" := (bind m (λ x, k))
  (at level 10, x name, m at level 100, k at level 200, only parsing).
Notation "'let*' ' x ':=' m 'in' k" := (bind m (λ x : _, k))
  (at level 10, x pattern, m at level 100, k at level 200, only parsing).
Notation "m >> k" := (bind m (λ _, k))
  (at level 100, k at level 200, right associativity, only parsing).

(** The state an outcome leaves behind, returned or raised. *)
Definition state_of {A} (r : Result A) : GameState :=
  match r with Ok _ s => s | Raise _ s => s end.

(** [for x in xs: body(x)] *)
Fixpoint for_each {A} (xs : list A) (body : A → M unit) : M unit :=
  match xs with
  | [] => ret tt
  | x :: xs' => body x >> for_each xs' body
  end.

(** ** Python list indexing on the 8x8 board

    [board] is built once as eight rows of eight slots and only ever item-
    assigned, so its shape is fixed; an index [i] is legal when
    [-8 <= i < 8], negative indices counting from the end. *)

Definition py_index (i : Z) : option nat :=
  if bool_decide (0 ≤ i < 8) then Some (Z.to_nat i)
  else if bool_decide (-8 ≤ i < 0) then Some (Z.to_nat (i + 8))
  else None.

Definition board_lookup (b : list (list (option ref))) (r c : nat)
  : option ref :=
  match b !! r with
  | Some row => match row !! c with Some o => o | None => None end
  | None => None
  end.

Definition board_store (b : list (list (option ref))) (r c : nat)
  (v : option ref) : list (list (option ref)) :=
  alter (λ row, <[c := v]> row) r b.

(** [self.board[row][col]] *)
Definition board_getitem (row col : Z) : M (option ref) :=
  λ s, match py_index row, py_index col with
       | Some r, Some c => Ok (board_lookup (board s) r c) s
       | _, _ => Raise IndexError s
       end.

(** [self.board[row][col] = v] *)
Definition board_setitem (row col : Z) (v : option ref) : M unit :=
  λ s, match py_index row, py_index col with
       | Some r, Some c => Ok tt (set_board (board_store (board s) r c v) s)
       | _, _ => Raise IndexError s
       end.

(** [row, col = p] where [p] may be [None] *)
Definition unpack (p : option pos) : M pos :=
  match p with
  | Some rc => ret rc
  | None => raise TypeError
  end.

(** [l.remove(x)]: drops the first occurrence, [ValueError] when absent. *)
Fixpoint list_remove_first (x : ref) (l : list ref) : option (list ref) :=
  match l with
  | [] => None
  | y :: l' =>
      if decide (x = y) then Some l'
      else match list_remove_first x l' with
           | Some l'' => Some (y :: l'')
           | None => None
           end
  end.

(** ** Queries *)

Definition get_start_zone (player : Player) : list pos :=
  match player with
  | ONE => row ← seqZ 0 2; col ← seqZ 0 8; [(row, col)]
  | TWO => row ← seqZ 6 2; col ← seqZ 0 8; [(row, col)]
  end.

Definition is_valid_position (p : pos) : bool :=
  let '(row, col) := p in
  bool_decide (0 ≤ row < 8) && bool_decide (0 ≤ col < 8).

Definition is_terrain (s : GameState) (p : pos) : bool :=
  bool_decide (p ∈ terrain s).

Definition get_figure_at (s : GameState) (p : pos) : option ref :=
  if negb (is_valid_position p) then None
  else let '(row, col) := p in
       board_lookup (board s) (Z.to_nat row) (Z.to_nat col).

(** ** Geometry *)

Definition _in_reach (from_pos to_pos : option pos) (reach : Z) : M bool :=
  let* '(fr, fc) := unpack from_pos in
  let* '(tr, tc) := unpack to_pos in
  let distance := Z.abs (tr - fr) + Z.abs (tc - fc) in
  ret (bool_decide (distance ≤ reach)).

(** The cell visited at step [i] of [steps]:
    [int(fr + ((tr - fr) / steps) * i)].  The source divides in floating
    point and truncates; for board-sized operands the double computation
    agrees with truncating the exact quotient, which is what is written
    here ([Z.quot] rounds toward zero like [int]). *)
Definition path_cell (from_pos to_pos : pos) (steps i : Z) : pos :=
  let '(fr, fc) := from_pos in
  let '(tr, tc) := to_pos in
  (Z.quot (fr * steps + (tr - fr) * i) steps,
   Z.quot (fc * steps + (tc - fc) * i) steps).

Definition _is_path_clear (s : GameState) (from_pos to_pos : pos)
  (diagonal check_target : bool) : bool :=
  let '(fr, fc) := from_pos in
  let '(tr, tc) := to_pos in
  if negb diagonal && (bool_decide (fr ≠ tr) && bool_decide (fc ≠ tc))
  then false
  else
    let steps := Z.max (Z.abs (tr - fr)) (Z.abs (tc - fc)) in
    if bool_decide (steps = 0) then true
    else
      let stop := steps + (if check_target then 0 else 1) in
      forallb (λ i, let c := path_cell from_pos to_pos steps i in
                    negb (bool_decide (is_Some (get_figure_at s c)))
                    && negb (is_terrain s c))
              (seqZ 1 (stop - 1)).

(** The movement and attack metric: king-move for the Arbalist, taxicab for
    everybody else. *)
Definition distance_for (ft : FigureType) (a b : pos) : Z :=
  let '(ar, ac) := a in
  let '(br, bc) := b in
  if decide (ft = ARBALIST)
  then Z.max (Z.abs (br - ar)) (Z.abs (bc - ac))
  else Z.abs (br - ar) + Z.abs (bc - ac).

(** ** Combat resolver *)

Definition _deal_damage (target : ref) (damage : Z) : M unit :=
  modify (update_figure target
            (λ f, Figure.set_life (Figure.life f - damage) f)) >>
  λ s,
    let t := fig s target in
    if bool_decide (Figure.life t ≤ 0) && negb (Figure.is_dead t) then
      (modify (update_figure target (Figure.set_life 0)) >>
       modify (update_figure target (Figure.set_is_dead true)) >>
       let* '(row, col) := unpack (Figure.position t) in
       board_setitem row col None >>
       (λ s1, match list_remove_first target (figures s1) with
              | Some l => Ok tt (set_figures l s1)
              | None => Raise ValueError s1
              end) >>
       modify (λ s1, set_dead_figures
                 (dset (dead_figures s1) (Figure.player t)
                    (dget (dead_figures s1) (Figure.player t) ++ [target]))
                 s1) >>
       modify (λ s1, set_scores
                 (dset (scores s1) (opponent (Figure.player t))
                    (dget (scores s1) (opponent (Figure.player t)) + 1))
                 s1)) s
    else Ok tt s.

(** ** Action API *)

(** A reported failure: [return False, msg]. *)
Definition failure (msg : string) : M (bool * string) := ret (false, msg).

(** A reported success: [return True, msg]. *)
Definition success (msg : string) : M (bool * string) := ret (true, msg).

Definition place_figure (figure : ref) (p : pos) : M bool :=
  let '(row, col) := p in
  let* slot := board_getitem row col in
  match slot with
  | Some _ => ret false
  | None =>
      λ s,
        if negb (bool_decide
                   (p ∈ get_start_zone (Figure.player (fig s figure))))
        then Ok false s
        else (board_setitem row col (Some figure) >>
              modify (update_figure figure (Figure.set_position (Some p))) >>
              modify (λ s1, set_figures (figures s1 ++ [figure]) s1) >>
              ret true) s
  end.

Definition move_figure (figure : ref) (new_pos : pos) : M (bool * string) :=
  λ s,
    let f := fig s figure in
    if Figure.has_acted f || Figure.has_moved f then
      failure "Figure has already moved or acted this turn" s
    else if bool_decide (Figure.counter_containment_turns f > 0) then
      failure "Figure is contained and cannot move" s
    else if is_terrain s new_pos then
      failure "Cannot move to terrain" s
    else match get_figure_at s new_pos with
    | Some _ => failure "Position is occupied" s
    | None =>
      (let* '(old_row, old_col) := unpack (Figure.position f) in
       let '(new_row, new_col) := new_pos in
       let distance :=
         distance_for (Figure.type f) (old_row, old_col) new_pos in
       if bool_decide (distance > Figure.move f) then
         failure "Move is out of range"
       else if negb (_is_path_clear s (old_row, old_col) new_pos
                       (bool_decide (Figure.type f = ARBALIST)) true) then
         failure "Path is blocked"
       else
         board_setitem old_row old_col None >>
         board_setitem new_row new_col (Some figure) >>
         modify (update_figure figure (Figure.set_position (Some new_pos))) >>
         modify (update_figure figure (Figure.set_has_moved true)) >>
         success "Move successful") s
    end.

(** The direction vector of a charge; [None] for an unknown direction. *)
Definition charge_vector (direction : string) : option (Z * Z) :=
  if decide (direction = "up") then Some (-1, 0)
  else if decide (direction = "down") then Some (1, 0)
  else if decide (direction = "left") then Some (0, -1)
  else if decide (direction = "right") then Some (0, 1)
  else None.

(** The body of [for i in range(1, 5)] in [knight_charge], run over the
    remaining values of [i]; [break] ends the recursion. *)
Fixpoint charge_scan (s : GameState) (knight : ref) (row col dr dc : Z)
  (steps : list Z) (damaged_figures : list ref) (final_pos : option pos)
  : list ref * option pos :=
  match steps with
  | [] => (damaged_figures, final_pos)
  | i :: steps' =>
      let p := (row + i * dr, col + i * dc) in
      if negb (is_valid_position p) then (damaged_figures, final_pos)
      else if is_terrain s p then (damaged_figures, final_pos)
      else match get_figure_at s p with
           | Some target =>
               if decide (Figure.player (fig s target)
                          ≠ Figure.player (fig s knight))
               then charge_scan s knight row col dr dc steps'
                      (damaged_figures ++ [target]) final_pos
               else charge_scan s knight row col dr dc steps'
                      damaged_figures final_pos
           | None =>
               charge_scan s knight row col dr dc steps'
                 damaged_figures (Some p)
           end
  end.

Definition knight_charge (knight : ref) (direction : string)
  : M (bool * string) :=
  λ s,
    let k := fig s knight in
    if negb (bool_decide (Figure.type k = KNIGHT)) then
      failure "Only knights can charge" s
    else if Figure.has_moved k || Figure.has_acted k then
      failure "Cannot charge after moving or acting" s
    else if bool_decide (Figure.counter_containment_turns k > 0) then
      failure "Knight is contained" s
    else
      (let* '(row, col) := unpack (Figure.position k) in
       match charge_vector direction with
       | None => failure "Invalid direction"
       | Some (dr, dc) =>
           let '(damaged_figures, final_pos) :=
             charge_scan s knight row col dr dc (seqZ 1 4) [] None in
           match final_pos with
           | None => failure "No valid charge destination"
           | Some (final_row, final_col) =>
               board_setitem row col None >>
               board_setitem final_row final_col (Some knight) >>
               modify (update_figure knight
                         (Figure.set_position (Some (final_row, final_col)))) >>
               for_each damaged_figures (λ target, _deal_damage target 2) >>
               modify (update_figure knight (Figure.set_has_moved true)) >>
               modify (update_figure knight (Figure.set_has_acted true)) >>
               success ("Charge successful, damaged "
                        +:+ pretty (length damaged_figures) +:+ " figures")
           end
       end) s.

(** The damage of a basic attack: base attack power, one more when a mage
    attacks the Barbarian. *)
Definition attack_damage (attacker target : Figure.t) : Z :=
  if (bool_decide (Figure.type attacker = BLACK_MAGE)
      || bool_decide (Figure.type attacker = WHITE_MAGE))
     && bool_decide (Figure.type target = BARBARIAN)
  then Figure.attack attacker + 1
  else Figure.attack attacker.

Definition attack (attacker : ref) (target_pos : pos) : M (bool * string) :=
  λ s,
    let a := fig s attacker in
    if Figure.has_acted a then
      failure "Figure has already acted" s
    else if bool_decide (Figure.counter_containment_turns a > 0) then
      failure "Figure is contained and cannot attack" s
    else match get_figure_at s target_pos with
    | None => failure "No target at position" s
    | Some target =>
      let t := fig s target in
      if bool_decide (Figure.player t = Figure.player a) then
        failure "Cannot attack friendly figures" s
      else
        (let* '(att_row, att_col) := unpack (Figure.position a) in
         let distance :=
           distance_for (Figure.type a) (att_row, att_col) target_pos in
         if bool_decide (distance > Figure.reach a) then
           failure "Target out of reach"
         else if negb (_is_path_clear s (att_row, att_col) target_pos
                         (bool_decide (Figure.type a = ARBALIST)) false) then
           failure "No line of sight"
         else
           let damage := attack_damage a t in
           _deal_damage target damage >>
           modify (update_figure attacker (Figure.set_has_acted true)) >>
           success ("Attack successful, dealt " +:+ pretty damage
                    +:+ " damage")) s
    end.

(** The [directions] table of [arbalist_long_eye]. *)
Definition long_eye_vector (direction : string) : option (Z * Z) :=
  if decide (direction = "up") then Some (-1, 0)
  else if decide (direction = "down") then Some (1, 0)
  else if decide (direction = "left") then Some (0, -1)
  else if decide (direction = "right") then Some (0, 1)
  else if decide (direction = "up-left") then Some (-1, -1)
  else if decide (direction = "up-right") then Some (-1, 1)
  else if decide (direction = "down-left") then Some (1, -1)
  else if decide (direction = "down-right") then Some (1, 1)
  else None.

(** The search loop of [arbalist_long_eye]: the enemy hit, if any. *)
Fixpoint long_eye_scan (s : GameState) (arbalist : ref) (row col dr dc : Z)
  (steps : list Z) : option ref :=
  match steps with
  | [] => None
  | i :: steps' =>
      let p := (row + i * dr, col + i * dc) in
      if negb (is_valid_position p) then None
      else match get_figure_at s p with
           | Some target =>
               if decide (Figure.player (fig s target)
                          ≠ Figure.player (fig s arbalist))
               then Some target
               else None
           | None => long_eye_scan s arbalist row col dr dc steps'
           end
  end.

Definition arbalist_long_eye (arbalist : ref) (direction : string)
  : M (bool * string) :=
  λ s,
    let a := fig s arbalist in
    if negb (bool_decide (Figure.type a = ARBALIST)) then
      failure "Only Arbalist can use Long Eye" s
    else if Figure.has_acted a then
      failure "Already acted this turn" s
    else if bool_decide (Figure.counter_containment_turns a > 0) then
      failure "Arbalist is contained" s
    else
      (let* '(row, col) := unpack (Figure.position a) in
       match long_eye_vector direction with
       | None => failure "Invalid direction"
       | Some (dr, dc) =>
           match long_eye_scan s arbalist row col dr dc (seqZ 1 7) with
           | Some target =>
               _deal_damage target 1 >>
               modify (update_figure arbalist (Figure.set_has_acted true)) >>
               success "Long Eye hit target"
           | None => failure "No target in line"
           end
       end) s.

(** The cells a Magic Bomb on [target_pos] touches: the cell itself, then
    its neighbours that are on the board. *)
Definition bomb_area (target_pos : pos) : list pos :=
  let '(row, col) := target_pos in
  target_pos ::
  filter (λ p, is_valid_position p = true)
    (dr ← [-1; 0; 1]; dc ← [-1; 0; 1];
     if bool_decide (dr = 0) && bool_decide (dc = 0) then []
     else [(row + dr, col + dc)]).

(** [for pos in affected: ...] of [black_mage_magic_bomb]; the board is read
    afresh at every cell, after the damage already dealt. *)
Fixpoint bomb_loop (affected : list pos) (damaged : list ref)
  : M (list ref) :=
  match affected with
  | [] => ret damaged
  | p :: rest =>
      λ s, match get_figure_at s p with
           | Some target =>
               (_deal_damage target 2 >>
                bomb_loop rest (damaged ++ [target])) s
           | None => bomb_loop rest damaged s
           end
  end.

Definition black_mage_magic_bomb (mage : ref) (target_pos : pos)
  : M (bool * string) :=
  λ s,
    let m := fig s mage in
    if negb (bool_decide (Figure.type m = BLACK_MAGE)) then
      failure "Only Black Mage can use Magic Bomb" s
    else if Figure.has_acted m then
      failure "Already acted" s
    else if bool_decide (Figure.counter_containment_turns m > 0) then
      failure "Mage is contained" s
    else if dget (magic_bomb_used s) (Figure.player m) then
      failure "Magic Bomb already used this game" s
    else
      (let* ok := _in_reach (Figure.position m) (Some target_pos)
                    (Figure.reach m) in
       if negb ok then failure "Target out of reach"
       else
         let* damaged := bomb_loop (bomb_area target_pos) [] in
         modify (λ s1, set_magic_bomb_used
                   (dset (magic_bomb_used s1)
                      (Figure.player (fig s1 mage)) true) s1) >>
         modify (update_figure mage (Figure.set_has_acted true)) >>
         success ("Magic Bomb damaged " +:+ pretty (length damaged)
                  +:+ " figures")) s.

Definition black_mage_plague (mage target : ref) (x : Z)
  : M (bool * string) :=
  λ s,
    let m := fig s mage in
    let t := fig s target in
    if negb (bool_decide (Figure.type m = BLACK_MAGE)) then
      failure "Only Black Mage can use Plague" s
    else if Figure.has_acted m then
      failure "Already acted" s
    else if bool_decide (Figure.counter_containment_turns m > 0) then
      failure "Mage is contained" s
    else if bool_decide (x < 1) || bool_decide (x >= Figure.life m) then
      failure "Invalid X value" s
    else if bool_decide (Figure.player t = Figure.player m) then
      failure "Cannot plague friendly figures" s
    else
      (let* ok := _in_reach (Figure.position m) (Figure.position t)
                    (Figure.reach m) in
       if negb ok then failure "Target out of reach"
       else
         _deal_damage mage x >>
         _deal_damage target (x + 1) >>
         modify (update_figure mage (Figure.set_has_acted true)) >>
         success ("Plague cast: Mage lost " +:+ pretty x
                  +:+ " life, target lost " +:+ pretty (x + 1) +:+ " life")) s.

(** The resurrection of [black_mage_vampiric_push], once the mage has
    survived its own damage. *)
Definition resurrect (mage dead_figure : ref) (p : pos) : M (bool * string) :=
  (λ s1, match list_remove_first dead_figure
                 (dget (dead_figures s1) (Figure.player (fig s1 mage))) with
         | Some l =>
             Ok tt (set_dead_figures
                      (dset (dead_figures s1) (Figure.player (fig s1 mage)) l)
                      s1)
         | None => Raise ValueError s1
         end) >>
  modify (update_figure dead_figure (Figure.set_is_dead false)) >>
  modify (update_figure dead_figure (Figure.set_life 2)) >>
  modify (update_figure dead_figure (Figure.set_position (Some p))) >>
  modify (update_figure dead_figure (Figure.set_has_moved false)) >>
  modify (update_figure dead_figure (Figure.set_has_acted false)) >>
  modify (update_figure dead_figure
            (Figure.set_counter_containment_turns 0)) >>
  board_setitem (fst p) (snd p) (Some dead_figure) >>
  modify (λ s1, set_figures (figures s1 ++ [dead_figure]) s1) >>
  modify (λ s1,
            let opp := opponent (Figure.player (fig s1 mage)) in
            set_scores (dset (scores s1) opp (dget (scores s1) opp - 1)) s1) >>
  modify (update_figure mage (Figure.set_has_acted true)) >>
  success "Vampiric Push successful".

Definition black_mage_vampiric_push (mage dead_figure : ref) (p : pos)
  : M (bool * string) :=
  λ s,
    let m := fig s mage in
    if negb (bool_decide (Figure.type m = BLACK_MAGE)) then
      failure "Only Black Mage can use Vampiric Push" s
    else if Figure.has_acted m then
      failure "Already acted" s
    else if bool_decide (Figure.counter_containment_turns m > 0) then
      failure "Mage is contained" s
    else if negb (bool_decide
                    (dead_figure ∈ dget (dead_figures s) (Figure.player m)))
    then failure "Figure not in your dead pool" s
    else if negb (bool_decide (p ∈ get_start_zone (Figure.player m))) then
      failure "Must resurrect in your start zone" s
    else match get_figure_at s p with
    | Some _ => failure "Position is occupied" s
    | None =>
      (_deal_damage mage 1 >>
       λ s1, if negb (Figure.is_dead (fig s1 mage))
             then resurrect mage dead_figure p s1
             else failure "Mage died during cast" s1) s
    end.

Definition white_mage_conjure (mage target : ref) : M (bool * string) :=
  λ s,
    let m := fig s mage in
    let t := fig s target in
    if negb (bool_decide (Figure.type m = WHITE_MAGE)) then
      failure "Only White Mage can use Conjure" s
    else if Figure.has_acted m then
      failure "Already acted" s
    else if bool_decide (Figure.counter_containment_turns m > 0) then
      failure "Mage is contained" s
    else if bool_decide (Figure.player t = Figure.player m) then
      failure "Cannot conjure friendly figures" s
    else if bool_decide (Figure.life t > 2) then
      failure "Target has too much life" s
    else
      (let* ok := _in_reach (Figure.position m) (Figure.position t)
                    (Figure.reach m) in
       if negb ok then failure "Target out of reach"
       else
         modify (update_figure target (Figure.set_player (Figure.player m))) >>
         modify (update_figure mage (Figure.set_has_acted true)) >>
         success ("Conjured " +:+ type_value (Figure.type t))) s.

Definition white_mage_heal (mage target : ref) : M (bool * string) :=
  λ s,
    let m := fig s mage in
    let t := fig s target in
    if negb (bool_decide (Figure.type m = WHITE_MAGE)) then
      failure "Only White Mage can use Heal" s
    else if Figure.has_acted m then
      failure "Already acted" s
    else if bool_decide (Figure.counter_containment_turns m > 0) then
      failure "Mage is contained" s
    else
      (let* ok := _in_reach (Figure.position m) (Figure.position t)
                    (Figure.reach m) in
       if negb ok then failure "Target out of reach"
       else
         let old_life := Figure.life t in
         let new_life := Z.min (Figure.life t + 3) (Figure.max_life t) in
         modify (update_figure target (Figure.set_life new_life)) >>
         modify (update_figure mage (Figure.set_has_acted true)) >>
         success ("Healed " +:+ type_value (Figure.type t) +:+ " for "
                  +:+ pretty (new_life - old_life) +:+ " life")) s.

Definition white_mage_counter_containment (mage target : ref)
  : M (bool * string) :=
  λ s,
    let m := fig s mage in
    let t := fig s target in
    if negb (bool_decide (Figure.type m = WHITE_MAGE)) then
      failure "Only White Mage can use Counter Containment" s
    else if Figure.has_acted m then
      failure "Already acted" s
    else if bool_decide (Figure.counter_containment_turns m > 0) then
      failure "Mage is contained" s
    else if bool_decide (Figure.player t = Figure.player m) then
      failure "Cannot contain friendly figures" s
    else
      (let* ok := _in_reach (Figure.position m) (Figure.position t)
                    (Figure.reach m) in
       if negb ok then failure "Target out of reach"
       else
         modify (update_figure target
                   (Figure.set_counter_containment_turns 2)) >>
         modify (update_figure mage (Figure.set_has_acted true)) >>
         success ("Contained " +:+ type_value (Figure.type t)
                  +:+ " for 2 turns")) s.

(** ** Turn manager and win evaluator *)

Definition _check_win_conditions : M unit :=
  λ s,
    if bool_decide (dget (scores s) ONE >= 4) then
      Ok tt (set_winner (Some ONE) (set_game_over true s))
    else if bool_decide (dget (scores s) TWO >= 4) then
      Ok tt (set_winner (Some TWO) (set_game_over true s))
    else
      let player_one_figures :=
        filter (λ f, Figure.player (fig s f) = ONE) (figures s) in
      let player_two_figures :=
        filter (λ f, Figure.player (fig s f) = TWO) (figures s) in
      match player_one_figures, player_two_figures with
      | [], _ => Ok tt (set_winner (Some TWO) (set_game_over true s))
      | _, [] => Ok tt (set_winner (Some ONE) (set_game_over true s))
      | _, _ => Ok tt s
      end.

(** First loop of [end_turn]: reset the flags of the current player's
    figures. *)
Definition reset_flags (figure : ref) : M unit :=
  λ s,
    if bool_decide (Figure.player (fig s figure) = current_player s) then
      (modify (update_figure figure (Figure.set_has_moved false)) >>
       modify (update_figure figure (Figure.set_has_acted false))) s
    else Ok tt s.

(** Second loop of [end_turn]: decay a positive containment counter. *)
Definition decay_containment (figure : ref) : M unit :=
  λ s,
    if bool_decide (Figure.counter_containment_turns (fig s figure) > 0) then
      modify (update_figure figure
                (λ f, Figure.set_counter_containment_turns
                        (Figure.counter_containment_turns f - 1) f)) s
    else Ok tt s.

Definition end_turn : M unit :=
  (λ s, for_each (figures s) reset_flags s) >>
  (λ s, for_each (figures s) decay_containment s) >>
  modify (λ s, set_current_player (opponent (current_player s)) s) >>
  modify (λ s, set_turn_count (turn_count s + 1) s) >>
  _check_win_conditions.

(** ** The engine as a labelled transition system *)

Inductive Action :=
| PlaceFigure (figure : ref) (p : pos)
| MoveFigure (figure : ref) (new_pos : pos)
| KnightCharge (knight : ref) (direction : string)
| Attack (attacker : ref) (target_pos : pos)
| ArbalistLongEye (arbalist : ref) (direction : string)
| MagicBomb (mage : ref) (target_pos : pos)
| Plague (mage target : ref) (x : Z)
| VampiricPush (mage dead_figure : ref) (p : pos)
| Conjure (mage target : ref)
| Heal (mage target : ref)
| CounterContainment (mage target : ref)
| EndTurn.

(** What a call reports: [Some true] on success, [Some false] on failure,
    [None] for [end_turn], which returns nothing. *)
Definition perform (a : Action) : M (option bool) :=
  let flag (m : M (bool * string)) : M (option bool) :=
    let* r := m in ret (Some (fst r)) in
  match a with
  | PlaceFigure f p => let* b := place_figure f p in ret (Some b)
  | MoveFigure f p => flag (move_figure f p)
  | KnightCharge k d => flag (knight_charge k d)
  | Attack f p => flag (attack f p)
  | ArbalistLongEye f d => flag (arbalist_long_eye f d)
  | MagicBomb m p => flag (black_mage_magic_bomb m p)
  | Plague m t x => flag (black_mage_plague m t x)
  | VampiricPush m d p => flag (black_mage_vampiric_push m d p)
  | Conjure m t => flag (white_mage_conjure m t)
  | Heal m t => flag (white_mage_heal m t)
  | CounterContainment m t => flag (white_mage_counter_containment m t)
  | EndTurn => end_turn >> ret None
  end.

(** The state after a sequence of calls, whatever each one reported. *)
Fixpoint run (acts : list Action) (s : GameState) : GameState :=
  match acts with
  | [] => s
  | a :: acts' => run acts' (state_of (perform a s))
  end.

(** ** Building concrete games *)

(** [Figure(figure_type, player)]: a fresh object behind reference [r]. *)
Definition alloc (r : ref) (ft : FigureType) (pl : Player) (s : GameState)
  : GameState :=
  set_heap (<[r := Figure.__init__ ft pl]> (heap s)) s.

(** Create and place the listed figures on a fresh game, as the setup
    does. *)
Definition new_game (units : list (ref * FigureType * Player * pos))
  : GameState :=
  foldl (λ s u, let '(r, ft, pl, p) := u in
                state_of (place_figure r p (alloc r ft pl s)))
        GameState__init__ units.


(** What a call returned, when it returned. *)
Definition reported {A} (r : Result A) : option A :=
  match r with Ok a _ => Some a | Raise _ _ => None end.

(** ** Sample positions used to exercise the engine *)

(** Player one's Knight in a corner, player two's Barbarian in the corner
    of the opposite edge, same column. *)
Definition corner_game : GameState :=
  Eval vm_compute in
  (new_game [(1%nat, KNIGHT, ONE, (0, 0)); (2%nat, BARBARIAN, TWO, (7, 0))]).

(** Player one's Black Mage reduced to one life, with player one's Knight
    already in the dead pool; player two keeps a Barbarian. *)
Definition revive_game : GameState :=
  Eval vm_compute in
  (let s := new_game [(1%nat, BLACK_MAGE, ONE, (0, 0));
                     (2%nat, KNIGHT, ONE, (0, 1));
                     (3%nat, BARBARIAN, TWO, (7, 0))] in
  state_of (_deal_damage 1%nat 6 (state_of (_deal_damage 2%nat 7 s)))).

(** [revive_game] after the Black Mage's Magic Bomb on an empty area. *)
Definition bombed_game : GameState :=
  Eval vm_compute in
  (state_of (black_mage_magic_bomb 1%nat (2, 0) revive_game)).

(** ** Vocabulary of the statements *)

(** The board slot a figure's [position] designates under Python indexing,
    when the position is set and both indices are legal. *)
Definition slot_of (f : Figure.t) : option (nat * nat) :=
  match Figure.position f with
  | Some (row, col) =>
      match py_index row, py_index col with
      | Some r, Some c => Some (r, c)
      | _, _ => None
      end
  | None => None
  end.

(** Whether one of the successive damage amounts [ds] brings a life total
    to zero or below. *)
Fixpoint lethal (life : Z) (ds : list Z) : bool :=
  match ds with
  | [] => false
  | d :: ds' => bool_decide (life - d ≤ 0) || lethal (life - d) ds'
  end.

(** Whether a figure dies in the course of the damage calls [ds]: it must
    not be dead already. *)
Definition dies (f : Figure.t) (ds : list Z) : bool :=
  negb (Figure.is_dead f) && lethal (Figure.life f) ds.

(** Player two's White Mage (2) walks up to player one's Black Mage (1) and
    is killed there by a Plague; one [end_turn] later the Black Mage may act
    again.  The dead White Mage keeps the position it died on. *)
Definition plague_game : GameState :=
  Eval vm_compute in
  (run [MoveFigure 2%nat (4, 1); EndTurn; EndTurn; MoveFigure 2%nat (2, 1);
       Plague 1%nat 2%nat 3; EndTurn]
    (new_game [(1%nat, BLACK_MAGE, ONE, (1, 1));
               (2%nat, WHITE_MAGE, TWO, (6, 1));
               (3%nat, BARBARIAN, TWO, (7, 7));
               (4%nat, WHITE_MAGE, ONE, (1, 2))])).

(** The life invariant of the data model: life stays within
    [0, max_life], and is zero exactly for dead figures. *)
Definition life_invariant (f : Figure.t) : Prop :=
  0 ≤ Figure.life f ≤ Figure.max_life f
  ∧ (Figure.life f = 0 ↔ Figure.is_dead f = true).

(** Player two's Knight (2) charges up the board, player one's Black Mage
    (3) wears it down to 2 life with a Plague, and player one's White Mage
    (1) stands next to it, ready to conjure. *)
Definition conjure_game : GameState :=
  Eval vm_compute in
  (run [MoveFigure 2%nat (2, 1); Plague 3%nat 2%nat 4]
    (new_game [(1%nat, WHITE_MAGE, ONE, (1, 1));
               (2%nat, KNIGHT, TWO, (6, 1));
               (3%nat, BLACK_MAGE, ONE, (1, 2));
               (4%nat, BARBARIAN, TWO, (7, 7))])).

(** ... and the position after the conjuring. *)
Definition conjured_game : GameState :=
  Eval vm_compute in
  (state_of (white_mage_conjure 1%nat 2%nat conjure_game)).


(** Two states that agree on everything but the objects in the store. *)
Definition same_fields (s s' : GameState) : Prop :=
  board s' = board s ∧ current_player s' = current_player s
  ∧ figures s' = figures s ∧ dead_figures s' = dead_figures s
  ∧ scores s' = scores s ∧ terrain s' = terrain s
  ∧ magic_bomb_used s' = magic_bomb_used s ∧ turn_count s' = turn_count s
  ∧ game_over s' = game_over s ∧ winner s' = winner s.

(** What the two loops of [end_turn] do to the figure they visit. *)
Definition reset_of (ending : Player) (f : Figure.t) : Figure.t :=
  if decide (Figure.player f = ending)
  then Figure.set_has_acted false (Figure.set_has_moved false f)
  else f.

Definition decay_of (f : Figure.t) : Figure.t :=
  if bool_decide (Figure.counter_containment_turns f > 0)
  then Figure.set_counter_containment_turns
         (Figure.counter_containment_turns f - 1) f
  else f.

(** ** Head counts *)

(** The figures of the alive list that belong to [p]. *)
Definition alive_of (s : GameState) (p : Player) : list ref :=
  filter (λ f, Figure.player (fig s f) = p) (figures s).

(** Alive figures owned by [p] plus the figures in [p]'s dead pool. *)
Definition tally (s : GameState) (p : Player) : nat :=
  (length (alive_of s p) + length (dget (dead_figures s) p))%nat.

(** All figures in the game: the alive list and both dead pools. *)
Definition roster (s : GameState) : nat :=
  (length (figures s) + length (dget (dead_figures s) ONE)
   + length (dget (dead_figures s) TWO))%nat.

(** Every figure in a dead pool belongs to the player the pool is keyed
    by. *)
Definition pool_owned (s : GameState) : Prop :=
  ∀ p u, u ∈ dget (dead_figures s) p → Figure.player (fig s u) = p.

Definition is_placement (a : Action) : bool :=
  match a with PlaceFigure _ _ => true | _ => false end.

Definition is_conjure (a : Action) : bool :=
  match a with Conjure _ _ => true | _ => false end.

(** A complete setup: five figures a side, one of each type. *)
Definition full_setup : GameState :=
  Eval vm_compute in
  (new_game [(1%nat, WHITE_MAGE, ONE, (1, 1));
             (3%nat, BLACK_MAGE, ONE, (1, 2));
             (5%nat, KNIGHT, ONE, (0, 0));
             (6%nat, BARBARIAN, ONE, (0, 1));
             (7%nat, ARBALIST, ONE, (0, 2));
             (2%nat, KNIGHT, TWO, (6, 1));
             (4%nat, BARBARIAN, TWO, (7, 7));
             (8%nat, ARBALIST, TWO, (7, 0));
             (9%nat, BLACK_MAGE, TWO, (7, 1));
             (10%nat, WHITE_MAGE, TWO, (7, 2))]).

(** The calls that bring player two's Knight under player one's control. *)
Definition capture_knight : list Action :=
  [MoveFigure 2%nat (2, 1); Plague 3%nat 2%nat 4; Conjure 1%nat 2%nat].

(** How a damage call leaves the books: either the alive list, the dead
    pools and every figure's owner are as before ... *)
Definition books_kept (s s' : GameState) : Prop :=
  figures s' = figures s ∧ dead_figures s' = dead_figures s
  ∧ ∀ r, Figure.player (fig s' r) = Figure.player (fig s r).

(** ... or figure [t] has moved from the alive list to its owner's pool. *)
Definition buried (t : ref) (s s' : GameState) : Prop :=
  (∃ l, list_remove_first t (figures s) = Some l ∧ figures s' = l)
  ∧ dead_figures s'
    = dset (dead_figures s) (Figure.player (fig s t))
        (dget (dead_figures s) (Figure.player (fig s t)) ++ [t])
  ∧ ∀ r, Figure.player (fig s' r) = Figure.player (fig s r).

(** ... or, for a resurrection, figure [d] has moved from player [q]'s pool
    back to the alive list. *)
Definition revived (d : ref) (q : Player) (s s' : GameState) : Prop :=
  (∃ l, list_remove_first d (dget (dead_figures s) q) = Some l
        ∧ dead_figures s' = dset (dead_figures s) q l)
  ∧ figures s' = figures s ++ [d]
  ∧ ∀ r, Figure.player (fig s' r) = Figure.player (fig s r).

(** A short exchange without mind control: player two's Knight advances and
    falls to two Plagues. *)
Definition skirmish : list Action :=
  [MoveFigure 2%nat (2, 1); Plague 3%nat 2%nat 4; EndTurn;
   Plague 3%nat 2%nat 1].

(** ** Basic attack *)

(** The cells strictly between two cells, in the words of the
    specification: the line is cut into [steps = max(|Δrow|, |Δcol|)] equal
    increments and the intermediate points are taken. *)
Definition cells_strictly_between (a b : pos) : list pos :=
  let steps := Z.max (Z.abs (fst b - fst a)) (Z.abs (snd b - snd a)) in
  (λ i, path_cell a b steps i) <$> seqZ 1 (steps - 1).




(** ** Knight charge *)

(** The cells a charge from [(row, col)] along [(dr, dc)] may pass, nearest
    first. *)
Definition charge_cells (row col dr dc : Z) : list pos :=
  (λ i, (row + i * dr, col + i * dc)) <$> seqZ 1 4.

(** The part of them reached before the board edge or a terrain cell. *)
Fixpoint open_lane (s : GameState) (cells : list pos) : list pos :=
  match cells with
  | [] => []
  | p :: rest =>
      if is_valid_position p && negb (is_terrain s p)
      then p :: open_lane s rest
      else []
  end.

(** The unoccupied cells among them. *)
Definition free_cells (s : GameState) (lane : list pos) : list pos :=
  filter (λ p, get_figure_at s p = None) lane.

(** The cells of a lane that come strictly before cell [p]. *)
Fixpoint cells_before (p : pos) (lane : list pos) : list pos :=
  match lane with
  | [] => []
  | q :: rest => if decide (q = p) then [] else q :: cells_before p rest
  end.

(** The figures standing in a lane that are not of the knight's player. *)
Fixpoint lane_enemies (s : GameState) (knight : ref) (lane : list pos)
  : list ref :=
  match lane with
  | [] => []
  | p :: rest =>
      match get_figure_at s p with
      | Some t =>
          if decide (Figure.player (fig s t) ≠ Figure.player (fig s knight))
          then t :: lane_enemies s knight rest
          else lane_enemies s knight rest
      | None => lane_enemies s knight rest
      end
  end.

(** What one damage call of amount [d] does to the figure it hits. *)
Definition hit (d : Z) (f : Figure.t) : Figure.t :=
  let f1 := Figure.set_life (Figure.life f - d) f in
  if bool_decide (Figure.life f1 ≤ 0) && negb (Figure.is_dead f1)
  then Figure.set_is_dead true (Figure.set_life 0 f1)
  else f1.

(** The board is eight rows of eight slots, and every figure in a slot is
    alive, on the alive list, and has that cell as its position. *)
Definition board_sound (s : GameState) : Prop :=
  length (board s) = 8%nat
  ∧ (∀ row, row ∈ board s → length row = 8%nat)
  ∧ ∀ p u, get_figure_at s p = Some u →
           Figure.position (fig s u) = Some p
           ∧ Figure.is_dead (fig s u) = false
           ∧ u ∈ figures s.

(** Player one's Knight (1) faces two of player two's figures in a row, with
    free cells behind them. *)
Definition charge_game : GameState :=
  Eval vm_compute in
  (run [MoveFigure 2%nat (3, 1); MoveFigure 3%nat (4, 1); EndTurn; EndTurn;
        MoveFigure 2%nat (1, 1); MoveFigure 3%nat (2, 1);
        MoveFigure 1%nat (0, 1); EndTurn]
     (new_game [(1%nat, KNIGHT, ONE, (0, 0));
                (2%nat, KNIGHT, TWO, (6, 1));
                (3%nat, BARBARIAN, TWO, (7, 1));
                (4%nat, WHITE_MAGE, TWO, (7, 7))])).

(** The sixty-four cells of the board. *)
Definition all_cells : list pos :=
  row ← seqZ 0 8; col ← seqZ 0 8; [(row, col)].

(** A decision procedure for the third clause of [board_sound]. *)
Definition slots_sound (s : GameState) : bool :=
  forallb (λ p, match get_figure_at s p with
                | None => true
                | Some u =>
                    bool_decide (Figure.position (fig s u) = Some p)
                    && negb (Figure.is_dead (fig s u))
                    && bool_decide (u ∈ figures s)
                end)
          all_cells.

(** ** Further vocabulary *)

(** The figure on whose behalf a call is made, when there is one. *)
Definition actor (a : Action) : option ref :=
  match a with
  | PlaceFigure _ _ | EndTurn => None
  | MoveFigure f _ | KnightCharge f _ | Attack f _ | ArbalistLongEye f _
  | MagicBomb f _ | Plague f _ _ | VampiricPush f _ _ | Conjure f _
  | Heal f _ | CounterContainment f _ => Some f
  end.

(** The turn bookkeeping of a state: whose turn it is, the turn count and
    the verdict. *)
Definition same_turn (s s' : GameState) : Prop :=
  current_player s' = current_player s ∧ turn_count s' = turn_count s
  ∧ game_over s' = game_over s ∧ winner s' = winner s.

(** The attributes of a figure that [Figure.__init__] fixes from its
    type. *)
Definition same_stats (f f' : Figure.t) : Prop :=
  Figure.type f' = Figure.type f ∧ Figure.max_life f' = Figure.max_life f
  ∧ Figure.move f' = Figure.move f ∧ Figure.attack f' = Figure.attack f
  ∧ Figure.reach f' = Figure.reach f.

(** The board is eight rows of eight slots. *)
Definition board_shape (s : GameState) : Prop :=
  length (board s) = 8%nat ∧ ∀ row, row ∈ board s → length row = 8%nat.

(** The rules of the game as data: terrain, the stats of every figure, and
    the shape of the board. *)
Definition rules_kept (s s' : GameState) : Prop :=
  terrain s' = terrain s
  ∧ (∀ r, same_stats (fig s r) (fig s' r))
  ∧ (board_shape s → board_shape s').

(** The scoreboard agrees with the dead pools: a player's score is the
    number of figures in the opponent's pool. *)
Definition scores_match (s : GameState) : Prop :=
  ∀ p, dget (scores s) (opponent p)
       = Z.of_nat (length (dget (dead_figures s) p)).

(** What a resurrection makes of the figure it brings back. *)
Definition revive (p : pos) (f : Figure.t) : Figure.t :=
  Figure.set_counter_containment_turns 0
    (Figure.set_has_acted false
       (Figure.set_has_moved false
          (Figure.set_position (Some p)
             (Figure.set_life 2 (Figure.set_is_dead false f))))).

(** The verdict of the win check: four points win, player one first; failing
    that, a player without a figure on the alive list loses, player one
    first. *)
Definition verdict (s : GameState) : option Player :=
  if bool_decide (4 ≤ dget (scores s) ONE) then Some ONE
  else if bool_decide (4 ≤ dget (scores s) TWO) then Some TWO
  else if bool_decide (alive_of s ONE = []) then Some TWO
  else if bool_decide (alive_of s TWO = []) then Some ONE
  else None.

(** What the two loops of [end_turn] leave alone: every field of the state
    and, in every figure, all but the two flags and the counter. *)
Definition flags_only (s s' : GameState) : Prop :=
  same_fields s s'
  ∧ ∀ r, Figure.set_counter_containment_turns 0
           (Figure.set_has_acted false
              (Figure.set_has_moved false (fig s' r)))
         = Figure.set_counter_containment_turns 0
             (Figure.set_has_acted false
                (Figure.set_has_moved false (fig s r))).

(** The game is over, and a winner declared in [s0] is still declared. *)
Definition still_over (s0 s : GameState) : Prop :=
  game_over s = true ∧ (is_Some (winner s0) → is_Some (winner s)).

(** Player two's only figure, a White Mage (2), walks up to player one's
    Black Mage (1) and is killed by a Plague; the turn is then ended. *)
Definition won_game : GameState :=
  Eval vm_compute in
  (run [MoveFigure 2%nat (4, 1); EndTurn; EndTurn; MoveFigure 2%nat (2, 1);
        Plague 1%nat 2%nat 3; EndTurn]
     (new_game [(1%nat, BLACK_MAGE, ONE, (1, 1));
                (2%nat, WHITE_MAGE, TWO, (6, 1))])).

(** The taxicab distance of [_in_reach]. *)
Definition taxicab (a b : pos) : Z :=
  Z.abs (fst b - fst a) + Z.abs (snd b - snd a).

(** A figure that the damage routine can process without raising: if it is
    not dead, it stands on a cell of the board and is on the alive list. *)
Definition damageable (s : GameState) (t : ref) : Prop :=
  Figure.is_dead (fig s t) = false →
  ∃ p, Figure.position (fig s t) = Some p ∧ is_valid_position p = true
       ∧ t ∈ figures s.

(** The state after figure [f] has been put on cell [p]. *)
Definition placed (f : ref) (p : pos) (s : GameState) : GameState :=
  set_figures (figures s ++ [f])
    (update_figure f (Figure.set_position (Some p))
       (set_board (board_store (board s) (Z.to_nat (fst p))
                     (Z.to_nat (snd p)) (Some f)) s)).

(** A cell that is neither occupied nor terrain. *)
Definition passable (s : GameState) (c : pos) : Prop :=
  get_figure_at s c = None ∧ is_terrain s c = false.

(** Player two's Knight (2) has advanced to within reach of player one's
    White Mage (1) and Black Mage (3); nobody has acted yet. *)
Definition standoff : GameState :=
  Eval vm_compute in
  (run [MoveFigure 2%nat (2, 1)]
     (new_game [(1%nat, WHITE_MAGE, ONE, (1, 1));
                (2%nat, KNIGHT, TWO, (6, 1));
                (3%nat, BLACK_MAGE, ONE, (1, 2));
                (4%nat, BARBARIAN, TWO, (7, 7))])).

(** Player one's Black Mage (1) at full life, with player one's Knight (2)
    fallen and in the dead pool. *)
Definition fallen_game : GameState :=
  Eval vm_compute in
  (state_of (_deal_damage 2%nat 7
     (new_game [(1%nat, BLACK_MAGE, ONE, (0, 0));
                (2%nat, KNIGHT, ONE, (0, 1));
                (3%nat, BARBARIAN, TWO, (7, 0))]))).

(** The cells Long Eye looks at from [(row, col)] along [(dr, dc)], nearest
    first. *)
Definition line_of_fire (row col dr dc : Z) : list pos :=
  (λ i, (row + i * dr, col + i * dc)) <$> seqZ 1 7.

(** The first figure met on a list of cells. *)
Fixpoint first_figure (s : GameState) (cells : list pos) : option ref :=
  match cells with
  | [] => None
  | p :: rest =>
      match get_figure_at s p with
      | Some u => Some u
      | None => first_figure s rest
      end
  end.

(** The figures standing on a list of cells, in the order of the cells. *)
Definition figures_on (s : GameState) (cells : list pos) : list ref :=
  omap (get_figure_at s) cells.

(** The slots of the cells [cells] are consistent: a figure in one of them
    has that cell as its position, is not dead, and is on the alive list. *)
Definition cells_sound (s : GameState) (cells : list pos) : Prop :=
  ∀ p u, p ∈ cells → get_figure_at s p = Some u →
         Figure.position (fig s u) = Some p
         ∧ Figure.is_dead (fig s u) = false
         ∧ u ∈ figures s.

(** Player one's Arbalist (1) in a corner and player two's Barbarian (2) at
    the far end of the same column, a terrain cell between them. *)
Definition sniper_game : GameState :=
  Eval vm_compute in
  (new_game [(1%nat, ARBALIST, ONE, (0, 0)); (2%nat, BARBARIAN, TWO, (7, 0))]).

(** A figure that stands on the cell its position names. *)
Definition on_board (s : GameState) (u : ref) : Prop :=
  ∃ p, Figure.position (fig s u) = Some p ∧ get_figure_at s p = Some u.

(** A consistent game: the board is sound, the alive list names each of the
    figures on the board once, and the dead pools name dead figures, each
    once. *)
Definition well_formed (s : GameState) : Prop :=
  board_sound s
  ∧ NoDup (figures s)
  ∧ (∀ u, u ∈ figures s → on_board s u)
  ∧ (∀ q u, u ∈ dget (dead_figures s) q → Figure.is_dead (fig s u) = true)
  ∧ NoDup (dget (dead_figures s) ONE ++ dget (dead_figures s) TWO).

(** A figure the damage routine accepts: on the alive list, or dead. *)
Definition accounted (s : GameState) (x : ref) : Prop :=
  x ∈ figures s ∨ Figure.is_dead (fig s x) = true.

(** Two states whose figures differ at most in attributes other than
    position and death, everything else that consistency looks at being
    equal. *)
Definition same_layout (s s' : GameState) : Prop :=
  board s' = board s ∧ figures s' = figures s
  ∧ dead_figures s' = dead_figures s
  ∧ ∀ r, Figure.position (fig s' r) = Figure.position (fig s r)
         ∧ Figure.is_dead (fig s' r) = Figure.is_dead (fig s r).

(** The call returned, in a state satisfying [I]. *)
Definition safe {A} (I : GameState → Prop) (r : Result A) : Prop :=
  ∃ a s', r = Ok a s' ∧ I s'.

(** The invariant carried through a call that started in [s0]: the game is
    consistent and no figure accounted for in [s0] has been lost. *)
Definition kept (s0 s : GameState) : Prop :=
  well_formed s ∧ ∀ x, accounted s0 x → accounted s x.

(** The state after figure [f] has gone from cell [old] to cell [new]. *)
Definition relocate (f : ref) (old new : pos) (s : GameState) : GameState :=
  update_figure f (Figure.set_position (Some new))
    (set_board
       (board_store
          (board_store (board s) (Z.to_nat (fst old)) (Z.to_nat (snd old)) None)
          (Z.to_nat (fst new)) (Z.to_nat (snd new)) (Some f)) s).

(** The calls the interactive layer makes when coordinates are on the board:
    actors and targets are figures on the alive list, destinations are cells
    of the board, and only a figure that is neither dead nor listed is
    placed. *)
Definition legal (s : GameState) (a : Action) : Prop :=
  match a with
  | PlaceFigure f p =>
      is_valid_position p = true ∧ Figure.is_dead (fig s f) = false
      ∧ f ∉ figures s
  | MoveFigure f p => f ∈ figures s ∧ is_valid_position p = true
  | KnightCharge f _ | Attack f _ | ArbalistLongEye f _ | MagicBomb f _
  | VampiricPush f _ _ => f ∈ figures s
  | Plague m t _ | Conjure m t | Heal m t | CounterContainment m t =>
      m ∈ figures s ∧ t ∈ figures s
  | EndTurn => True
  end.

(** Every call of a sequence is legal in the state it is made in. *)
Fixpoint legal_run (acts : list Action) (s : GameState) : Prop :=
  match acts with
  | [] => True
  | a :: rest => legal s a ∧ legal_run rest (state_of (perform a s))
  end.

(** Every call of a sequence returns: none raises. *)
Fixpoint all_return (acts : list Action) (s : GameState) : Prop :=
  match acts with
  | [] => True
  | a :: rest =>
      is_Some (reported (perform a s))
      ∧ all_return rest (state_of (perform a s))
  end.

(** A decision procedure for [well_formed], used on sample games. *)
Definition well_formed_check (s : GameState) : bool :=
  bool_decide (length (board s) = 8%nat)
  && forallb (λ row, bool_decide (length row = 8%nat)) (board s)
  && slots_sound s
  && bool_decide (NoDup (figures s))
  && forallb (λ u, match Figure.position (fig s u) with
                   | Some p => bool_decide (get_figure_at s p = Some u)
                   | None => false
                   end) (figures s)
  && forallb (λ u, Figure.is_dead (fig s u))
       (dget (dead_figures s) ONE ++ dget (dead_figures s) TWO)
  && bool_decide (NoDup (dget (dead_figures s) ONE
                         ++ dget (dead_figures s) TWO)).


(** The same game with other turn bookkeeping: player to move, turn count,
    game-over flag and winner. *)
Definition retag (p : Player) (n : Z) (g : bool) (w : option Player)
  (s : GameState) : GameState :=
  set_winner w (set_game_over g (set_turn_count n (set_current_player p s))).

(** An outcome with its state transformed. *)
Definition rmap {A} (T : GameState → GameState) (r : Result A) : Result A :=
  match r with
  | Ok a s => Ok a (T s)
  | Raise e s => Raise e (T s)
  end.

(** The ranges a figure's attributes stay in: life at most the maximum, the
    containment counter between 0 and 2; and, of its fixed stats, a maximum
    life of at least 2 and a non-negative attack. *)
Definition in_range (f : Figure.t) : Prop :=
  Figure.life f ≤ Figure.max_life f
  ∧ 0 ≤ Figure.counter_containment_turns f ≤ 2
  ∧ 2 ≤ Figure.max_life f
  ∧ 0 ≤ Figure.attack f.

Definition all_in_range (s : GameState) : Prop := ∀ r, in_range (fig s r).

(** Player one's Knight (1) in the corner; player two's Knight (2) has come
    to stand two cells below it, right before the terrain cell (3, 0). *)
Definition ambush_game : GameState :=
  Eval vm_compute in
  (run [MoveFigure 2%nat (2, 1); EndTurn; EndTurn; MoveFigure 2%nat (2, 0)]
     (new_game [(1%nat, KNIGHT, ONE, (0, 0));
                (2%nat, KNIGHT, TWO, (6, 1));
                (3%nat, BARBARIAN, TWO, (7, 7))])).
(** * Basic facts about the store and the monad *)

Lemma fig_update_figure s r f r' :
  fig (update_figure r f s) r' = if decide (r = r') then f (fig s r) else fig s r'.
Proof.
  unfold fig, update_figure; simpl.
  destruct (decide (r = r')) as [->|Hne].
  - by rewrite lookup_total_insert_eq.
  - by rewrite lookup_total_insert_ne.
Qed.

Lemma fig_update_figure_eq s r f : fig (update_figure r f s) r = f (fig s r).
Proof. rewrite fig_update_figure. by rewrite decide_True. Qed.

Lemma fig_update_figure_ne s r f r' :
  r ≠ r' → fig (update_figure r f s) r' = fig s r'.
Proof. intros. rewrite fig_update_figure. by rewrite decide_False. Qed.

(** Assigning an attribute of the game state leaves the objects alone. *)
Lemma fig_set_board v s r : fig (set_board v s) r = fig s r.
Proof. done. Qed.
Lemma fig_set_current_player v s r : fig (set_current_player v s) r = fig s r.
Proof. done. Qed.
Lemma fig_set_figures v s r : fig (set_figures v s) r = fig s r.
Proof. done. Qed.
Lemma fig_set_dead_figures v s r : fig (set_dead_figures v s) r = fig s r.
Proof. done. Qed.
Lemma fig_set_scores v s r : fig (set_scores v s) r = fig s r.
Proof. done. Qed.
Lemma fig_set_magic_bomb_used v s r :
  fig (set_magic_bomb_used v s) r = fig s r.
Proof. done. Qed.
Lemma fig_set_turn_count v s r : fig (set_turn_count v s) r = fig s r.
Proof. done. Qed.
Lemma fig_set_game_over v s r : fig (set_game_over v s) r = fig s r.
Proof. done. Qed.
Lemma fig_set_winner v s r : fig (set_winner v s) r = fig s r.
Proof. done. Qed.

Create Rewrite HintDb game.
#[global] Hint Rewrite fig_set_board fig_set_current_player fig_set_figures
  fig_set_dead_figures fig_set_scores fig_set_magic_bomb_used
  fig_set_turn_count fig_set_game_over fig_set_winner
  fig_update_figure_eq : game.

Lemma bind_Ok {A B} (m : M A) (k : A → M B) s b s' :
  bind m k s = Ok b s' ↔ ∃ a s1, m s = Ok a s1 ∧ k a s1 = Ok b s'.
Proof.
  unfold bind. destruct (m s) as [a s1|e s1]; split.
  - eauto.
  - by intros (? & ? & [= -> ->] & ?).
  - done.
  - by intros (? & ? & ? & ?).
Qed.

Lemma for_each_app {A} (xs ys : list A) (body : A → M unit) s :
  for_each (xs ++ ys) body s = (for_each xs body >> for_each ys body) s.
Proof.
  revert s. induction xs as [|x xs IH]; intros s; simpl.
  - done.
  - unfold bind. destruct (body x s) as [[] s1|e s1]; [|done].
    by rewrite IH.
Qed.

(** * Reported failures and the state

    Every validation of a call precedes its first mutation, so a reported
    failure is an early return on the untouched state; the one exception is
    the resurrection spell, whose self-damage comes before its last check. *)

Lemma failure_inv msg s b msg' s' :
  failure msg s = Ok (b, msg') s' → b = false ∧ s' = s.
Proof. by intros [= <- <- <-]. Qed.

Lemma success_inv msg s b msg' s' :
  success msg s = Ok (b, msg') s' → b = true ∧ msg' = msg ∧ s' = s.
Proof. by intros [= <- <- <-]. Qed.

Lemma modify_Ok f s a s' : modify f s = Ok a s' → s' = f s.
Proof. by intros [= _ <-]. Qed.

Lemma unpack_Ok p s rc s' : unpack p s = Ok rc s' → p = Some rc ∧ s' = s.
Proof. destruct p; [by intros [= -> ->]|done]. Qed.

Lemma _in_reach_Ok a b r s ok s' : _in_reach a b r s = Ok ok s' → s' = s.
Proof.
  unfold _in_reach. intros H.
  apply bind_Ok in H as ([] & ? & [_ ->]%unpack_Ok & H).
  apply bind_Ok in H as ([] & ? & [_ ->]%unpack_Ok & H).
  by injection H.
Qed.

(** One step along the control flow of a call whose outcome is known. *)
Ltac chase H :=
  cbv beta zeta in H;
  lazymatch type of H with
  | failure _ _ = Ok _ _ =>
      apply failure_inv in H as [? ?]; subst
  | success _ _ = Ok _ _ =>
      apply success_inv in H as (? & ? & ?); subst
  | bind _ _ _ = Ok _ _ =>
      let a := fresh "a" in let s := fresh "s" in let Hm := fresh "Hm" in
      apply bind_Ok in H as (a & s & Hm & H);
      try (apply unpack_Ok in Hm as [? ?]; subst);
      try (apply _in_reach_Ok in Hm; subst);
      try (apply modify_Ok in Hm; subst)
  | (if ?c then _ else _) _ = _ => destruct c eqn:?
  | (if ?c then _ else _) = _ => destruct c eqn:?
  | (match ?x with _ => _ end) _ = _ => destruct x eqn:?
  | (match ?x with _ => _ end) = _ => destruct x eqn:?
  end.

Ltac chase_all H := repeat chase H; try done.

Lemma move_figure_failure f p s msg s' :
  move_figure f p s = Ok (false, msg) s' → s' = s.
Proof. unfold move_figure. intros H. chase_all H. Qed.

Lemma knight_charge_failure f p s msg s' :
  knight_charge f p s = Ok (false, msg) s' → s' = s.
Proof. unfold knight_charge. intros H. chase_all H. Qed.

Lemma attack_failure f p s msg s' :
  attack f p s = Ok (false, msg) s' → s' = s.
Proof. unfold attack. intros H. chase_all H. Qed.

Lemma arbalist_long_eye_failure f p s msg s' :
  arbalist_long_eye f p s = Ok (false, msg) s' → s' = s.
Proof. unfold arbalist_long_eye. intros H. chase_all H. Qed.

Lemma black_mage_magic_bomb_failure f p s msg s' :
  black_mage_magic_bomb f p s = Ok (false, msg) s' → s' = s.
Proof. unfold black_mage_magic_bomb. intros H. chase_all H. Qed.

Lemma black_mage_plague_failure f t x s msg s' :
  black_mage_plague f t x s = Ok (false, msg) s' → s' = s.
Proof. unfold black_mage_plague. intros H. chase_all H. Qed.

Lemma white_mage_conjure_failure f t s msg s' :
  white_mage_conjure f t s = Ok (false, msg) s' → s' = s.
Proof. unfold white_mage_conjure. intros H. chase_all H. Qed.

Lemma white_mage_heal_failure f t s msg s' :
  white_mage_heal f t s = Ok (false, msg) s' → s' = s.
Proof. unfold white_mage_heal. intros H. chase_all H. Qed.

Lemma white_mage_counter_containment_failure f t s msg s' :
  white_mage_counter_containment f t s = Ok (false, msg) s' → s' = s.
Proof. unfold white_mage_counter_containment. intros H. chase_all H. Qed.

Lemma board_getitem_Ok row col s v s' :
  board_getitem row col s = Ok v s' → s' = s.
Proof.
  unfold board_getitem.
  destruct (py_index row), (py_index col); by intros [= _ ->] || done.
Qed.

Lemma place_figure_failure f p s s' :
  place_figure f p s = Ok false s' → s' = s.
Proof.
  unfold place_figure. destruct p as [row col]. intros H.
  apply bind_Ok in H as (slot & s1 & ->%board_getitem_Ok & H).
  destruct slot; [by injection H|].
  destruct (negb _); [by injection H|].
  repeat (apply bind_Ok in H as (? & ? & _ & H)). by injection H.
Qed.

Lemma black_mage_vampiric_push_failure mage d p s msg s' :
  black_mage_vampiric_push mage d p s = Ok (false, msg) s' →
  s' = s ∨ (_deal_damage mage 1 s = Ok tt s'
            ∧ Figure.is_dead (fig s' mage) = true).
Proof.
  unfold black_mage_vampiric_push. intros H.
  repeat (chase H; try (by left)).
  - unfold resurrect in H. chase_all H.
  - right. destruct a. split; [done|]. by apply negb_false_iff.
Qed.

(** * Combat resolver *)

Lemma list_remove_first_elem x l :
  x ∈ l → is_Some (list_remove_first x l).
Proof.
  induction l as [|y l IH]; [by intros ?%elem_of_nil|].
  intros Hx. simpl. destruct (decide (x = y)); [done|].
  apply elem_of_cons in Hx as [?|Hx]; [done|].
  by destruct (IH Hx) as [l' ->].
Qed.

Lemma _deal_damage_dead target d s :
  Figure.is_dead (fig s target) = true →
  _deal_damage target d s
  = Ok tt (update_figure target
             (λ f, Figure.set_life (Figure.life f - d) f) s).
Proof.
  intros Hdead. unfold _deal_damage, bind, modify.
  rewrite fig_update_figure_eq. simpl. rewrite Hdead.
  by rewrite andb_false_r.
Qed.

Lemma _deal_damage_survive target d s :
  Figure.life (fig s target) - d > 0 →
  _deal_damage target d s
  = Ok tt (update_figure target
             (λ f, Figure.set_life (Figure.life f - d) f) s).
Proof.
  intros Hlife. unfold _deal_damage, bind, modify.
  rewrite fig_update_figure_eq. simpl.
  rewrite bool_decide_false; [done|lia].
Qed.

Lemma _deal_damage_kill target d s r c l :
  Figure.is_dead (fig s target) = false →
  Figure.life (fig s target) - d ≤ 0 →
  slot_of (fig s target) = Some (r, c) →
  list_remove_first target (figures s) = Some l →
  ∃ s', _deal_damage target d s = Ok tt s'
    ∧ fig s' target
      = Figure.set_is_dead true
          (Figure.set_life 0
             (Figure.set_life (Figure.life (fig s target) - d)
                (fig s target)))
    ∧ (∀ x, x ≠ target → fig s' x = fig s x)
    ∧ board s' = board_store (board s) r c None
    ∧ figures s' = l
    ∧ dead_figures s'
      = dset (dead_figures s) (Figure.player (fig s target))
          (dget (dead_figures s) (Figure.player (fig s target)) ++ [target])
    ∧ scores s'
      = dset (scores s) (opponent (Figure.player (fig s target)))
          (dget (scores s) (opponent (Figure.player (fig s target))) + 1).
Proof.
  intros Halive Hlife Hslot Hrem. unfold slot_of in Hslot.
  destruct (Figure.position (fig s target)) as [[row col]|] eqn:Hpos; [|done].
  destruct (py_index row) as [r'|] eqn:Hr; [|done].
  destruct (py_index col) as [c'|] eqn:Hc; [|done].
  injection Hslot as -> ->.
  unfold _deal_damage, bind, modify, unpack, board_setitem, ret.
  rewrite fig_update_figure_eq. simpl.
  rewrite bool_decide_true by lia. rewrite Halive, Hpos. simpl.
  rewrite Hr, Hc. simpl. rewrite Hrem.
  eexists. split; [done|]. simpl.
  autorewrite with game. rewrite ?fig_update_figure_eq.
  repeat split; try done.
  intros x Hx. autorewrite with game. by rewrite !fig_update_figure_ne.
Qed.

Lemma for_each_cons_Ok {A} (x : A) xs body s s1 :
  body x s = Ok tt s1 → for_each (x :: xs) body s = for_each xs body s1.
Proof. intros H. simpl. unfold bind. by rewrite H. Qed.

Lemma deal_damages_dead target ds s :
  Figure.is_dead (fig s target) = true →
  ∃ s', for_each ds (_deal_damage target) s = Ok tt s'
    ∧ Figure.is_dead (fig s' target) = true
    ∧ (∀ x, x ≠ target → fig s' x = fig s x)
    ∧ board s' = board s ∧ figures s' = figures s
    ∧ dead_figures s' = dead_figures s ∧ scores s' = scores s.
Proof.
  revert s. induction ds as [|d ds IH]; intros s Hdead.
  - by exists s.
  - rewrite (for_each_cons_Ok _ _ _ _ _ (_deal_damage_dead target d s Hdead)).
    destruct (IH (update_figure target
                    (λ f, Figure.set_life (Figure.life f - d) f) s))
      as (s' & Hrun & Hd & Hothers & Hb & Hf & Hp & Hsc).
    { by rewrite fig_update_figure_eq. }
    exists s'. repeat split; try done.
    intros x Hx. rewrite Hothers by done. by rewrite fig_update_figure_ne.
Qed.

(** C3: over any sequence of damage calls on one figure, the first call that
    brings its life to zero or below marks it dead, clears its board slot,
    drops it from the alive list, appends it to its owner's dead pool and
    adds exactly one to the opponent's score; calls after that one (and any
    call on a figure that was dead to begin with) change no score, no board
    slot, no alive list and no dead pool.  No other figure is touched, so
    the hits on several targets of one action do not interfere. *)
Theorem deal_damage_sequence target ds s :
  (Figure.is_dead (fig s target) = false →
   is_Some (slot_of (fig s target)) ∧ target ∈ figures s) →
  ∃ s', for_each ds (_deal_damage target) s = Ok tt s'
    ∧ (∀ x, x ≠ target → fig s' x = fig s x)
    ∧ Figure.is_dead (fig s' target)
      = Figure.is_dead (fig s target) || dies (fig s target) ds
    ∧ if dies (fig s target) ds then
        ∃ r c l,
          slot_of (fig s target) = Some (r, c)
          ∧ list_remove_first target (figures s) = Some l
          ∧ board s' = board_store (board s) r c None
          ∧ figures s' = l
          ∧ dead_figures s'
            = dset (dead_figures s) (Figure.player (fig s target))
                (dget (dead_figures s) (Figure.player (fig s target))
                 ++ [target])
          ∧ scores s'
            = dset (scores s) (opponent (Figure.player (fig s target)))
                (dget (scores s) (opponent (Figure.player (fig s target)))
                 + 1)
      else
        board s' = board s ∧ figures s' = figures s
        ∧ dead_figures s' = dead_figures s ∧ scores s' = scores s.
Proof.
  unfold dies.
  destruct (Figure.is_dead (fig s target)) eqn:Hdead; simpl.
  { intros _.
    destruct (deal_damages_dead target ds s Hdead)
      as (s' & Hrun & Hd & Hothers & Hrest).
    by exists s'. }
  intros Hwf. destruct (Hwf eq_refl) as [[[r c] Hslot] Hin]. clear Hwf.
  revert s Hdead Hslot Hin. induction ds as [|d ds IH]; intros s Hdead Hslot Hin.
  - exists s. by rewrite Hdead.
  - simpl lethal. case_bool_decide as Hlife; cbn [orb].
    + destruct (list_remove_first_elem _ _ Hin) as [l Hl].
      destruct (_deal_damage_kill target d s r c l Hdead Hlife Hslot Hl)
        as (s1 & Hhit & Hfig1 & Ho1 & Hb1 & Hf1 & Hp1 & Hs1).
      assert (Hd1 : Figure.is_dead (fig s1 target) = true)
        by (by rewrite Hfig1).
      rewrite (for_each_cons_Ok _ _ _ _ _ Hhit).
      destruct (deal_damages_dead target ds s1 Hd1)
        as (s' & Hrun & Hd & Hothers & Hb & Hf & Hp & Hsc).
      exists s'. split; [done|]. split.
      { intros x Hx. rewrite Hothers by done. by apply Ho1. }
      split; [done|].
      exists r, c, l. repeat split; congruence.
    + rewrite (for_each_cons_Ok _ _ _ _ _
                 (_deal_damage_survive target d s ltac:(lia))).
      set (s1 := update_figure target
                   (λ f, Figure.set_life (Figure.life f - d) f) s).
      assert (Hfig1 : fig s1 target
                = Figure.set_life (Figure.life (fig s target) - d)
                    (fig s target))
        by (unfold s1; rewrite fig_update_figure_eq; reflexivity).
      destruct (IH s1) as (s' & Hrun & Hothers & Hd & Hcases).
      { by rewrite Hfig1. }
      { by rewrite Hfig1. }
      { done. }
      rewrite Hfig1 in Hd, Hcases. simpl in Hd, Hcases.
      exists s'. split; [done|]. split.
      { intros x Hx. rewrite Hothers by done.
        by apply fig_update_figure_ne. }
      split; [done|].
      destruct (lethal _ ds); [|done].
      destruct Hcases as (r' & c' & l & ? & ? & ? & ? & ? & ?).
      by exists r', c', l.
Qed.

Lemma deal_damage_sequence_witness :
  (Figure.is_dead (fig revive_game 3%nat) = false →
   is_Some (slot_of (fig revive_game 3%nat)) ∧ 3%nat ∈ figures revive_game)
  ∧ ∃ s', for_each [3; 5; 2; 2] (_deal_damage 3%nat) revive_game = Ok tt s'
      ∧ Figure.is_dead (fig s' 3%nat) = true
      ∧ dget (scores s') ONE = dget (scores revive_game) ONE + 1
      ∧ dget (dead_figures s') TWO = [3%nat].
Proof.
  assert (Hwf : Figure.is_dead (fig revive_game 3%nat) = false →
                is_Some (slot_of (fig revive_game 3%nat))
                ∧ 3%nat ∈ figures revive_game).
  { intros _. split; [by eexists|].
    refine (bool_decide_unpack _ _). by vm_compute. }
  split; [exact Hwf|].
  destruct (deal_damage_sequence 3%nat [3; 5; 2; 2] revive_game Hwf)
    as (s' & Hrun & _ & Hdead & Hcase).
  exists s'. split; [exact Hrun|].
  change (dies (fig revive_game 3%nat) [3; 5; 2; 2]) with true in *.
  destruct Hcase as (r & c & l & _ & _ & _ & _ & Hpool & Hscore).
  split; [exact Hdead|]. rewrite Hpool, Hscore. clear. vm_compute.
  by split.
Defined.

(** * Frame reasoning along the control flow of a call *)

Section Walk.
Variable P : GameState → Prop.

Lemma state_of_bind {A B} (m : M A) (k : A → M B) s :
  P (state_of (m s)) →
  (∀ a s1, m s = Ok a s1 → P s1 → P (state_of (k a s1))) →
  P (state_of (bind m k s)).
Proof.
  unfold bind. destruct (m s) as [a s1|e s1]; simpl; [|done].
  intros H1 Hk. by apply Hk.
Qed.

Lemma state_of_for_each {A} (body : A → M unit) xs s :
  (∀ x s1, P s1 → P (state_of (body x s1))) →
  P s → P (state_of (for_each xs body s)).
Proof.
  intros Hbody. revert s. induction xs as [|x xs IH]; intros s Hs; [done|].
  simpl. apply state_of_bind; [by apply Hbody|]. intros _ s1 _. apply IH.
Qed.

Lemma state_of_bomb_loop affected damaged s :
  (∀ t s1, P s1 → P (state_of (_deal_damage t 2 s1))) →
  P s → P (state_of (bomb_loop affected damaged s)).
Proof.
  intros Hd. revert damaged s.
  induction affected as [|p rest IH]; intros damaged s Hs; [done|].
  simpl. destruct (get_figure_at s p); [|by apply IH].
  apply state_of_bind; [by apply Hd|]. intros _ s1 _. apply IH.
Qed.

Lemma state_of_unpack p s : P s → P (state_of (unpack p s)).
Proof. by destruct p. Qed.

Lemma state_of_in_reach a b r s : P s → P (state_of (_in_reach a b r s)).
Proof.
  intros Hs. unfold _in_reach.
  apply state_of_bind; [by apply state_of_unpack|].
  intros [] s1 [_ ->]%unpack_Ok _.
  apply state_of_bind; [by apply state_of_unpack|].
  by intros [] s1 [_ ->]%unpack_Ok _.
Qed.

Lemma state_of_board_getitem row col s :
  P s → P (state_of (board_getitem row col s)).
Proof.
  intros Hs. unfold board_getitem. by destruct (py_index row), (py_index col).
Qed.

Lemma state_of_board_setitem row col v s :
  P s → (∀ b, P (set_board b s)) →
  P (state_of (board_setitem row col v s)).
Proof.
  intros Hs Hb. unfold board_setitem.
  destruct (py_index row), (py_index col); simpl; auto.
Qed.
End Walk.

Ltac walk leaf :=
  cbv beta zeta;
  lazymatch goal with
  | |- _ (state_of (bind _ _ _)) =>
      apply state_of_bind; [walk leaf | intros ? ? ? ?; walk leaf]
  | |- _ (state_of (unpack _ _)) => apply state_of_unpack; assumption
  | |- _ (state_of (_in_reach _ _ _ _)) => apply state_of_in_reach; assumption
  | |- _ (state_of (board_getitem _ _ _)) =>
      apply state_of_board_getitem; assumption
  | |- _ (state_of (board_setitem _ _ _ _)) =>
      apply state_of_board_setitem; [assumption | intros ?; leaf]
  | |- _ (state_of (for_each _ _ _)) =>
      apply state_of_for_each; [intros ? ? ?; walk leaf | assumption]
  | |- _ (state_of ((if ?c then _ else _) _)) => destruct c eqn:?; walk leaf
  | |- _ (state_of (if ?c then _ else _)) => destruct c eqn:?; walk leaf
  | |- _ (state_of ((match ?x with _ => _ end) _)) =>
      destruct x eqn:?; walk leaf
  | |- _ (state_of (match ?x with _ => _ end)) => destruct x eqn:?; walk leaf
  | |- _ => leaf
  end.


Definition bomb_flags_kept (s0 s : GameState) : Prop :=
  ∀ p, dget (magic_bomb_used s0) p = true → dget (magic_bomb_used s) p = true.

Lemma dget_dset {A} (d : PlayerDict A) p q v :
  dget (dset d p v) q = if decide (p = q) then v else dget d q.
Proof. by destruct p, q. Qed.

Ltac leaf_bomb :=
  first [ assumption
        | by (unfold bomb_flags_kept in *; simpl; intros; rewrite ?dget_dset;
              repeat (match goal with
                      | |- context [decide ?Q] => destruct (decide Q)
                      end); auto) ].

Lemma _deal_damage_bomb_flags_kept s0 t d s :
  bomb_flags_kept s0 s → bomb_flags_kept s0 (state_of (_deal_damage t d s)).
Proof.
  intros Hs. unfold _deal_damage. walk leaf_bomb.
Qed.

Ltac walk_bomb :=
  walk ltac:(first [ by apply _deal_damage_bomb_flags_kept
                   | apply state_of_bomb_loop;
                     [by intros; apply _deal_damage_bomb_flags_kept|assumption]
                   | leaf_bomb ]).

Lemma perform_bomb_flags_kept s0 a s :
  bomb_flags_kept s0 s → bomb_flags_kept s0 (state_of (perform a s)).
Proof.
  intros Hs. destruct a; simpl.
  - unfold place_figure. destruct p. walk_bomb.
  - unfold move_figure. walk_bomb.
  - unfold knight_charge. walk_bomb.
  - unfold attack. walk_bomb.
  - unfold arbalist_long_eye. walk_bomb.
  - unfold black_mage_magic_bomb. walk_bomb.
  - unfold black_mage_plague. walk_bomb.
  - unfold black_mage_vampiric_push, resurrect. walk_bomb.
  - unfold white_mage_conjure. walk_bomb.
  - unfold white_mage_heal. walk_bomb.
  - unfold white_mage_counter_containment. walk_bomb.
  - unfold end_turn, reset_flags, decay_containment, _check_win_conditions. walk_bomb.
Qed.

Lemma run_bomb_flags_kept s0 acts s :
  bomb_flags_kept s0 s → bomb_flags_kept s0 (run acts s).
Proof.
  revert s. induction acts as [|a acts IH]; intros s Hs; [done|].
  simpl. by apply IH, perform_bomb_flags_kept.
Qed.

Definition damage_frame (s0 s : GameState) : Prop :=
  magic_bomb_used s = magic_bomb_used s0
  ∧ ∀ r, Figure.player (fig s r) = Figure.player (fig s0 r).

Lemma damage_frame_refl s : damage_frame s s.
Proof. done. Qed.

Ltac leaf_frame :=
  first [ assumption
        | by (unfold damage_frame in *; simpl; destruct_and?; split;
              [done|];
              intros; rewrite ?fig_update_figure;
              repeat (match goal with
                      | |- context [decide ?Q] => destruct (decide Q); subst
                      end); simpl; auto) ].

Lemma _deal_damage_frame s0 t d s :
  damage_frame s0 s → damage_frame s0 (state_of (_deal_damage t d s)).
Proof. intros Hs. unfold _deal_damage. walk leaf_frame. Qed.

Lemma bomb_loop_frame affected damaged s :
  damage_frame s (state_of (bomb_loop affected damaged s)).
Proof.
  apply state_of_bomb_loop; [|done].
  intros. by apply _deal_damage_frame.
Qed.

Lemma magic_bomb_sets_flag mage target_pos s msg s1 :
  black_mage_magic_bomb mage target_pos s = Ok (true, msg) s1 →
  magic_bomb_used s1
  = dset (magic_bomb_used s) (Figure.player (fig s mage)) true.
Proof.
  unfold black_mage_magic_bomb. intros H.
  repeat (chase H; try done).
  pose proof (bomb_loop_frame (bomb_area target_pos) [] s) as [Hflags Hpl].
  rewrite Hm in Hflags, Hpl. simpl in *. by rewrite Hflags, Hpl.
Qed.

Lemma magic_bomb_used_up mage target_pos s :
  dget (magic_bomb_used s) (Figure.player (fig s mage)) = true →
  ∃ msg, black_mage_magic_bomb mage target_pos s = Ok (false, msg) s.
Proof.
  intros Hused. unfold black_mage_magic_bomb.
  repeat (match goal with
          | |- context [if ?c then _ else _] => destruct c eqn:?
          end; [by eexists|]).
  congruence.
Qed.

(** C9: once a player's Magic Bomb has succeeded, every later attempt by a
    mage of that player fails and leaves the state alone, whatever calls
    came in between; the cast does not touch the other player's flag. *)
Theorem magic_bomb_once s mage target_pos msg s1 acts mage' target_pos' :
  black_mage_magic_bomb mage target_pos s = Ok (true, msg) s1 →
  Figure.player (fig (run acts s1) mage') = Figure.player (fig s mage) →
  (∃ msg', black_mage_magic_bomb mage' target_pos' (run acts s1)
           = Ok (false, msg') (run acts s1))
  ∧ dget (magic_bomb_used s1) (opponent (Figure.player (fig s mage)))
    = dget (magic_bomb_used s) (opponent (Figure.player (fig s mage))).
Proof.
  intros Hcast Hsame. apply magic_bomb_sets_flag in Hcast as Hflag. split.
  - apply magic_bomb_used_up. rewrite Hsame.
    apply (run_bomb_flags_kept s1); [by intros ?|].
    rewrite Hflag, dget_dset. by rewrite decide_True.
  - rewrite Hflag, dget_dset.
    case_decide as Heq; [by destruct (Figure.player (fig s mage))|done].
Qed.

Lemma magic_bomb_once_witness :
  (∃ msg', black_mage_magic_bomb 1%nat (0, 1)
             (run [EndTurn; EndTurn] bombed_game)
           = Ok (false, msg') (run [EndTurn; EndTurn] bombed_game))
  ∧ dget (magic_bomb_used bombed_game)
      (opponent (Figure.player (fig revive_game 1%nat)))
    = dget (magic_bomb_used revive_game)
        (opponent (Figure.player (fig revive_game 1%nat))).
Proof.
  apply (magic_bomb_once revive_game 1%nat (2, 0)
           "Magic Bomb damaged 0 figures" bombed_game
           [EndTurn; EndTurn] 1%nat (0, 1)); by vm_compute.
Defined.

(** * Head counts *)

Ltac same_players :=
  intros; cbn [state_of modify];
  repeat first
    [ rewrite fig_set_board | rewrite fig_set_figures
    | rewrite fig_set_dead_figures | rewrite fig_set_scores
    | rewrite fig_update_figure;
      match goal with
      | |- context [decide ?Q] => destruct (decide Q); subst; simpl
      end ];
  done.

Lemma _deal_damage_books t d s :
  books_kept s (state_of (_deal_damage t d s))
  ∨ buried t s (state_of (_deal_damage t d s)).
Proof.
  assert (Hkept : ∀ s', (∀ r, Figure.player (fig s' r) = Figure.player (fig s r)) →
            figures s' = figures s → dead_figures s' = dead_figures s →
            books_kept s s' ∨ buried t s s').
  { intros s' ? ? ?. by left. }
  unfold _deal_damage, bind, modify. cbv beta.
  destruct (_ && _); [|apply Hkept; [same_players|done..]].
  match goal with
  | |- context [unpack ?p] => destruct p as [[row col]|]
  end; cbn [unpack ret raise state_of];
    [|apply Hkept; [same_players|done..]].
  unfold board_setitem.
  destruct (py_index row); [|apply Hkept; [same_players|done..]].
  destruct (py_index col); [|apply Hkept; [same_players|done..]].
  cbn [figures set_board].
  destruct (list_remove_first t _) as [l|] eqn:Hl;
    [|apply Hkept; [same_players|done..]].
  right. split; [exists l; split; [exact Hl|reflexivity]|].
  split; [|same_players].
  cbn [state_of dead_figures set_scores set_dead_figures set_figures set_board].
  by rewrite fig_update_figure_eq.
Qed.

Lemma remove_first_length t l l' :
  list_remove_first t l = Some l' → length l = S (length l').
Proof.
  revert l'. induction l as [|y l IH]; intros l' H; [done|].
  simpl in H. destruct (decide (t = y)); [by injection H as <-|].
  destruct (list_remove_first t l) as [l''|]; [|done].
  injection H as <-. simpl. by rewrite (IH l'').
Qed.

Lemma remove_first_filter_length (Q : ref → Prop) `{!∀ x, Decision (Q x)}
  t l l' :
  list_remove_first t l = Some l' →
  length (filter Q l)
  = (length (filter Q l') + if decide (Q t) then 1 else 0)%nat.
Proof.
  revert l'. induction l as [|y l IH]; intros l' Hrem; [done|].
  simpl in Hrem. destruct (decide (t = y)) as [->|Hne].
  - injection Hrem as <-. rewrite filter_cons.
    destruct (decide (Q y)); simpl; lia.
  - destruct (list_remove_first t l) as [l''|]; [|done].
    injection Hrem as <-. rewrite !filter_cons.
    destruct (decide (Q y)); simpl; rewrite (IH l'' eq_refl); lia.
Qed.

Lemma remove_first_subset t l l' x :
  list_remove_first t l = Some l' → x ∈ l' → x ∈ l.
Proof.
  revert l'. induction l as [|y l IH]; intros l' H Hx; [done|].
  simpl in H. destruct (decide (t = y)) as [->|Hne].
  - injection H as <-. by apply list_elem_of_further.
  - destruct (list_remove_first t l) as [l''|]; [|done].
    injection H as <-. apply elem_of_cons in Hx as [->|Hx].
    + apply list_elem_of_here.
    + apply list_elem_of_further. by apply (IH l'').
Qed.

Lemma alive_of_players s s' p :
  figures s' = figures s →
  (∀ r, Figure.player (fig s' r) = Figure.player (fig s r)) →
  alive_of s' p = alive_of s p.
Proof.
  intros Hf Hp. unfold alive_of. rewrite Hf.
  apply list_filter_iff. intros x. by rewrite Hp.
Qed.

Lemma roster_tally s : roster s = (tally s ONE + tally s TWO)%nat.
Proof.
  unfold roster, tally, alive_of.
  assert (length (figures s)
          = (length (filter (λ f, Figure.player (fig s f) = ONE) (figures s))
             + length (filter (λ f, Figure.player (fig s f) = TWO)
                         (figures s)))%nat) as ->; [|lia].
  induction (figures s) as [|x l IH]; [done|].
  rewrite !filter_cons. simpl. rewrite IH.
  destruct (Figure.player (fig s x)); simpl; lia.
Qed.

Lemma books_kept_counts s s' :
  books_kept s s' →
  (∀ p, tally s' p = tally s p) ∧ (pool_owned s → pool_owned s').
Proof.
  intros (Hf & Hd & Hp). split.
  - intros p. unfold tally. by rewrite (alive_of_players s s'), Hd.
  - intros Hown p u. rewrite Hd, Hp. apply Hown.
Qed.

Lemma buried_counts t s s' :
  buried t s s' →
  (∀ p, tally s' p = tally s p) ∧ (pool_owned s → pool_owned s').
Proof.
  intros ((l & Hl & Hf) & Hd & Hp). split.
  - intros p. unfold tally, alive_of. rewrite Hf, Hd, dget_dset.
    rewrite (list_filter_iff _ (λ f, Figure.player (fig s f) = p))
      by (by intros x; rewrite Hp).
    rewrite (remove_first_filter_length
               (λ f, Figure.player (fig s f) = p) t (figures s) l Hl).
    cbv beta.
    destruct (decide (Figure.player (fig s t) = p)) as [Heq|Hne].
    + rewrite List.length_app, Heq. simpl. lia.
    + lia.
  - intros Hown p u. rewrite Hd, Hp, dget_dset.
    destruct (decide _) as [<-|]; [|apply Hown].
    intros [Hu| ->%list_elem_of_singleton]%elem_of_app; [by apply Hown|done].
Qed.

Lemma books_kept_refl s : books_kept s s.
Proof. by repeat split. Qed.

Lemma start_zone_index pl p :
  p ∈ get_start_zone pl →
  ∃ r c, py_index (fst p) = Some r ∧ py_index (snd p) = Some c.
Proof.
  intros H. destruct pl; cbv [get_start_zone] in H; simpl in H;
    repeat (apply elem_of_cons in H as [->|H]; [by eexists _, _|]);
    by apply elem_of_nil in H.
Qed.

Lemma resurrect_books mage d p s :
  d ∈ dget (dead_figures s) (Figure.player (fig s mage)) →
  p ∈ get_start_zone (Figure.player (fig s mage)) →
  revived d (Figure.player (fig s mage)) s (state_of (resurrect mage d p s)).
Proof.
  intros Hd Hp.
  destruct (list_remove_first_elem _ _ Hd) as [l Hl].
  destruct (start_zone_index _ _ Hp) as (r & c & Hr & Hc).
  unfold resurrect, bind, modify, board_setitem, success, ret. cbv beta.
  rewrite Hl. cbn [fst snd]. rewrite Hr, Hc. cbn [state_of].
  split; [exists l; split; [done|]|split].
  - reflexivity.
  - reflexivity.
  - intros x. cbn [state_of].
    repeat first
      [ rewrite fig_set_board | rewrite fig_set_figures
      | rewrite fig_set_dead_figures | rewrite fig_set_scores
      | rewrite fig_update_figure;
        match goal with
        | |- context [decide ?Q] => destruct (decide Q); subst; simpl
        end ]; done.
Qed.

Section Engine_invariant.
Variable P : GameState → Prop.
Hypothesis P_kept : ∀ s s', books_kept s s' → P s → P s'.
Hypothesis P_buried : ∀ t s s', buried t s s' → P s → P s'.
Hypothesis P_revived : ∀ d q s s', revived d q s s' → P s → P s'.

Lemma _deal_damage_kept t d s : P s → P (state_of (_deal_damage t d s)).
Proof.
  intros Hs. destruct (_deal_damage_books t d s); eauto.
Qed.

Ltac leaf_kept :=
  first
    [ assumption
    | by apply _deal_damage_kept
    | apply state_of_bomb_loop;
      [by intros; apply _deal_damage_kept|assumption]
    | match goal with
      | H : P ?s |- P _ =>
          apply (P_kept s); [|exact H];
          split; [reflexivity|split; [reflexivity|same_players]]
      end ].

Lemma black_mage_vampiric_push_kept mage dead_figure p s :
  P s → P (state_of (black_mage_vampiric_push mage dead_figure p s)).
Proof.
  intros Hs. unfold black_mage_vampiric_push. cbv beta zeta.
  repeat (match goal with
          | |- P (state_of ((if ?c then _ else _) _)) => destruct c eqn:?
          | |- P (state_of (if ?c then _ else _)) => destruct c eqn:?
          end; [exact Hs|]).
  apply negb_false_iff, bool_decide_eq_true in Heqb2, Heqb3.
  apply state_of_bind; [by apply _deal_damage_kept|].
  intros [] s1 Hrun Hs1.
  destruct (negb (Figure.is_dead (fig s1 mage))); [|exact Hs1].
  assert (Hbooks : books_kept s s1 ∨ buried mage s s1).
  { pose proof (_deal_damage_books mage 1 s) as H. by rewrite Hrun in H. }
  assert (Hpl : Figure.player (fig s1 mage) = Figure.player (fig s mage)).
  { destruct Hbooks as [(_ & _ & H)|(_ & _ & H)]; apply H. }
  apply (P_revived dead_figure (Figure.player (fig s1 mage)) s1); [|done].
  apply resurrect_books; rewrite Hpl; [|done].
  destruct Hbooks as [(_ & -> & _)|(_ & -> & _)]; [done|].
  rewrite dget_dset, decide_True by done.
  apply elem_of_app. by left.
Qed.

Lemma perform_kept a s :
  is_placement a = false → is_conjure a = false →
  P s → P (state_of (perform a s)).
Proof.
  intros Hplace Hconj Hs. destruct a; try done; simpl.
  - unfold move_figure. walk leaf_kept.
  - unfold knight_charge. walk leaf_kept.
  - unfold attack. walk leaf_kept.
  - unfold arbalist_long_eye. walk leaf_kept.
  - unfold black_mage_magic_bomb. walk leaf_kept.
  - unfold black_mage_plague. walk leaf_kept.
  - apply state_of_bind; [by apply black_mage_vampiric_push_kept|].
    by intros.
  - unfold white_mage_heal. walk leaf_kept.
  - unfold white_mage_counter_containment. walk leaf_kept.
  - unfold end_turn, reset_flags, decay_containment, _check_win_conditions.
    walk leaf_kept.
Qed.

Lemma run_kept acts s :
  forallb (λ a, negb (is_placement a) && negb (is_conjure a)) acts = true →
  P s → P (run acts s).
Proof.
  revert s. induction acts as [|a acts IH]; intros s Hall Hs; [done|].
  simpl in Hall. apply andb_true_iff in Hall as [Ha Hall].
  apply andb_true_iff in Ha as [Hpl Hcj].
  apply negb_true_iff in Hpl, Hcj.
  simpl. apply IH; [done|]. by apply perform_kept.
Qed.
End Engine_invariant.

Lemma remove_first_elem_of t l l' : list_remove_first t l = Some l' → t ∈ l.
Proof.
  revert l'. induction l as [|y l IH]; intros l' H; [done|].
  simpl in H. destruct (decide (t = y)) as [->|Hne]; [apply list_elem_of_here|].
  destruct (list_remove_first t l) as [l''|]; [|done].
  apply list_elem_of_further. by apply (IH l'').
Qed.

Lemma revived_roster d q s s' : revived d q s s' → roster s' = roster s.
Proof.
  intros ((l & Hl & Hd) & Hf & _). unfold roster.
  rewrite Hd, Hf, !dget_dset, List.length_app.
  apply remove_first_length in Hl. simpl.
  destruct q; simpl; rewrite Hl; lia.
Qed.

Lemma revived_counts d q s s' :
  revived d q s s' → pool_owned s →
  (∀ p, tally s' p = tally s p) ∧ pool_owned s'.
Proof.
  intros ((l & Hl & Hd) & Hf & Hp) Hown.
  assert (Hq : Figure.player (fig s d) = q)
    by (by apply Hown, (remove_first_elem_of _ _ l)).
  split.
  - intros p. unfold tally, alive_of. rewrite Hf, Hd, dget_dset.
    rewrite (list_filter_iff _ (λ f, Figure.player (fig s f) = p))
      by (by intros x; rewrite Hp).
    rewrite filter_app, List.length_app, filter_cons, filter_nil, Hq.
    pose proof (remove_first_length _ _ _ Hl) as Hlen.
    destruct (decide (q = p)) as [->|Hne]; simpl; lia.
  - intros p u. rewrite Hd, Hp, dget_dset.
    destruct (decide _) as [<-|]; [|apply Hown].
    intros Hu. apply Hown. by apply (remove_first_subset d _ l).
Qed.

Lemma perform_roster a s :
  is_placement a = false → roster (state_of (perform a s)) = roster s.
Proof.
  intros Hplace. destruct (is_conjure a) eqn:Hconj.
  - destruct a; try done. simpl.
    set (P := λ s', roster s' = roster s).
    assert (Hs : P s) by done.
    change (P (state_of (bind (white_mage_conjure mage target)
                           (λ r, ret (Some (fst r))) s))).
    unfold white_mage_conjure.
    walk ltac:(first [assumption | by unfold P, roster in *]).
  - apply (perform_kept (λ s', roster s' = roster s)); try done.
    + intros s1 s2 Hk <-. rewrite !roster_tally.
      by rewrite !(proj1 (books_kept_counts s1 s2 Hk)).
    + intros t s1 s2 Hb <-. rewrite !roster_tally.
      by rewrite !(proj1 (buried_counts t s1 s2 Hb)).
    + intros d q s1 s2 Hr <-. by apply (revived_roster d q).
Qed.

Lemma perform_counts a s :
  is_placement a = false → is_conjure a = false → pool_owned s →
  pool_owned (state_of (perform a s))
  ∧ ∀ p, tally (state_of (perform a s)) p = tally s p.
Proof.
  intros Hplace Hconj Hown.
  apply (perform_kept (λ s', pool_owned s' ∧ ∀ p, tally s' p = tally s p));
    try done.
  - intros s1 s2 Hk [Ho Ht]. destruct (books_kept_counts s1 s2 Hk) as [Ht' Ho'].
    split; [by apply Ho'|]. intros p. by rewrite Ht'.
  - intros t s1 s2 Hb [Ho Ht]. destruct (buried_counts t s1 s2 Hb) as [Ht' Ho'].
    split; [by apply Ho'|]. intros p. by rewrite Ht'.
  - intros d q s1 s2 Hr [Ho Ht].
    destruct (revived_counts d q s1 s2 Hr Ho) as [Ht' Ho'].
    split; [done|]. intros p. by rewrite Ht'.
Qed.

(** C8 as stated is refuted: from a complete setup, a successful conjuring
    leaves the caster's player with six figures and the other with four,
    and no resurrection is involved. *)
Lemma conjure_breaks_tally :
  tally full_setup ONE = 5%nat ∧ tally full_setup TWO = 5%nat
  ∧ reported (perform (Conjure 1%nat 2%nat)
                (run [MoveFigure 2%nat (2, 1); Plague 3%nat 2%nat 4]
                   full_setup))
    = Some (Some true)
  ∧ tally (run capture_knight full_setup) ONE = 6%nat
  ∧ tally (run capture_knight full_setup) TWO = 4%nat.
Proof. repeat split; vm_compute; reflexivity. Qed.

(** C8 (amended): over the states reached from a complete setup by engine
    calls other than placement, the alive list and the two dead pools hold
    ten figures in all; and as long as none of the calls is a conjuring,
    each player's alive figures plus dead pool number five.  Deaths and
    resurrections move figures between the alive list and a pool without
    changing either count. *)
Theorem tally_invariant s0 acts :
  tally s0 ONE = 5%nat → tally s0 TWO = 5%nat → pool_owned s0 →
  forallb (λ a, negb (is_placement a)) acts = true →
  roster (run acts s0) = 10%nat
  ∧ (forallb (λ a, negb (is_conjure a)) acts = true →
     ∀ p, tally (run acts s0) p = 5%nat).
Proof.
  intros H1 H2 Hown Hplace. split.
  - assert (Hr : roster s0 = 10%nat) by (rewrite roster_tally; lia).
    clear H1 H2 Hown. revert s0 Hr.
    induction acts as [|a acts IH]; intros s0 Hr; [done|].
    simpl in Hplace. apply andb_true_iff in Hplace as [Ha Hplace].
    apply negb_true_iff in Ha. simpl. apply IH; [done|].
    by rewrite perform_roster.
  - intros Hconj.
    assert (Ht : ∀ p, tally s0 p = 5%nat) by (by intros []).
    clear H1 H2. revert s0 Hown Ht.
    induction acts as [|a acts IH]; intros s0 Hown Ht; [done|].
    simpl in Hplace, Hconj.
    apply andb_true_iff in Hplace as [Ha Hplace].
    apply andb_true_iff in Hconj as [Hc Hconj].
    apply negb_true_iff in Ha, Hc.
    destruct (perform_counts a s0 Ha Hc Hown) as [Hown' Ht'].
    simpl. apply IH; try done. intros p. by rewrite Ht'.
Qed.

Lemma tally_invariant_witness :
  tally full_setup ONE = 5%nat ∧ tally full_setup TWO = 5%nat
  ∧ pool_owned full_setup
  ∧ forallb (λ a, negb (is_placement a)) skirmish = true
  ∧ roster (run skirmish full_setup) = 10%nat
  ∧ (forallb (λ a, negb (is_conjure a)) skirmish = true →
     ∀ p, tally (run skirmish full_setup) p = 5%nat).
Proof.
  assert (Hown : pool_owned full_setup).
  { intros p u Hu. destruct p; by apply elem_of_nil in Hu. }
  split; [reflexivity|]. split; [reflexivity|]. split; [exact Hown|].
  split; [reflexivity|].
  apply (tally_invariant full_setup skirmish); try reflexivity. exact Hown.
Defined.

(** * Mind control *)



Lemma _check_win_conditions_cases s :
  ∃ s', _check_win_conditions s = Ok tt s'
    ∧ (s' = s
       ∨ ∃ w, s' = set_winner (Some w) (set_game_over true s)
           ∧ (4 ≤ dget (scores s) w
              ∨ filter (λ f, Figure.player (fig s f) = opponent w)
                  (figures s) = [])).
Proof.
  unfold _check_win_conditions.
  repeat case_bool_decide.
  - eexists; split; [done|]. right. exists ONE. split; [done|]. left. lia.
  - eexists; split; [done|]. right. exists TWO. split; [done|]. left. lia.
  - destruct (filter _ _) eqn:H1.
    { eexists; split; [done|]. right. exists TWO. split; [done|]. by right. }
    destruct (filter (λ f, Figure.player (fig s f) = TWO) _) eqn:H2.
    { eexists; split; [done|]. right. exists ONE. split; [done|]. by right. }
    eexists; split; [done|]. by left.
Qed.



(** * Basic attack *)





(** With [check_target=False] the loop of [_is_path_clear] runs up to and
    including the last step, so it inspects the target cell too. *)
Lemma _is_path_clear_checks_target s a b diagonal target :
  a ≠ b → get_figure_at s b = Some target →
  _is_path_clear s a b diagonal false = false.
Proof.
  destruct a as [fr fc], b as [tr tc]. intros Hne Htarget.
  unfold _is_path_clear.
  destruct (negb diagonal && _); [done|].
  set (steps := Z.max (Z.abs (tr - fr)) (Z.abs (tc - fc))).
  assert (Hsteps : 0 < steps).
  { unfold steps. destruct (decide (tr = fr)), (decide (tc = fc)); subst;
      [done|lia..]. }
  rewrite bool_decide_false by lia.
  apply not_true_iff_false. intros Hall.
  rewrite forallb_forall in Hall.
  specialize (Hall steps). cbv beta zeta in Hall.
  assert (Hcell : path_cell (fr, fc) (tr, tc) steps steps = (tr, tc)).
  { unfold path_cell. f_equal.
    - replace (fr * steps + (tr - fr) * steps) with (tr * steps) by lia.
      apply Z.quot_mul. lia.
    - replace (fc * steps + (tc - fc) * steps) with (tc * steps) by lia.
      apply Z.quot_mul. lia. }
  rewrite Hcell, Htarget in Hall.
  rewrite bool_decide_true in Hall by done.
  assert (Hin : In steps (seqZ 1 (steps + 1 - 1))).
  { apply list_elem_of_In, elem_of_seqZ. lia. }
  by specialize (Hall Hin).
Qed.



(** * Knight charge *)

Lemma charge_scan_lane s knight row col dr dc steps damaged final :
  let lane := open_lane s ((λ i, (row + i * dr, col + i * dc)) <$> steps) in
  charge_scan s knight row col dr dc steps damaged final
  = (damaged ++ lane_enemies s knight lane,
     match last (free_cells s lane) with
     | Some p => Some p
     | None => final
     end).
Proof.
  revert damaged final. induction steps as [|i steps IH]; intros damaged final.
  - simpl. by rewrite app_nil_r.
  - rewrite fmap_cons. cbn [charge_scan open_lane lane_enemies].
    set (p := (row + i * dr, col + i * dc)).
    destruct (is_valid_position p); cbn [negb andb];
      [|by rewrite app_nil_r].
    destruct (is_terrain s p); cbn [negb andb]; [by rewrite app_nil_r|].
    cbn [lane_enemies]. unfold free_cells. rewrite filter_cons.
    destruct (decide (get_figure_at s p = None)) as [Hfree|Hocc].
    + rewrite Hfree, IH, last_cons. unfold free_cells.
      by destruct (last _).
    + destruct (get_figure_at s p) as [t|]; [|done].
      destruct (decide (Figure.player (fig s t) ≠ _)).
      * rewrite IH. by rewrite <- app_assoc.
      * by rewrite IH.
Qed.

Lemma charge_vector_cases direction dr dc :
  charge_vector direction = Some (dr, dc) →
  (dr, dc) = (-1, 0) ∨ (dr, dc) = (1, 0) ∨ (dr, dc) = (0, -1)
  ∨ (dr, dc) = (0, 1).
Proof.
  unfold charge_vector. repeat case_decide; intros [= <- <-]; auto.
Qed.

Lemma open_lane_elem s cells p :
  p ∈ open_lane s cells →
  p ∈ cells ∧ is_valid_position p = true ∧ is_terrain s p = false.
Proof.
  induction cells as [|q cells IH]; [by intros ?%elem_of_nil|].
  simpl. destruct (is_valid_position q) eqn:Hv; simpl;
    [|by intros ?%elem_of_nil].
  destruct (is_terrain s q) eqn:Ht; simpl; [by intros ?%elem_of_nil|].
  intros [->|Hp]%elem_of_cons.
  - split; [apply list_elem_of_here|done].
  - destruct (IH Hp) as (? & ? & ?). split; [by apply list_elem_of_further|done].
Qed.

Lemma open_lane_NoDup s cells : NoDup cells → NoDup (open_lane s cells).
Proof.
  induction 1 as [|q cells Hq Hnd IH]; [constructor|].
  simpl. destruct (_ && _); [|constructor].
  constructor; [|done]. intros Hin. by apply open_lane_elem in Hin as [? _].
Qed.

Lemma charge_cells_NoDup direction row col dr dc :
  charge_vector direction = Some (dr, dc) →
  NoDup (charge_cells row col dr dc).
Proof.
  intros Hdir. unfold charge_cells. apply NoDup_fmap_2_strong; [|apply NoDup_seqZ].
  intros i j _ _ [= H1 H2].
  apply charge_vector_cases in Hdir as [[= -> ->]|[[= -> ->]|[[= -> ->]|[= -> ->]]]];
    lia.
Qed.

Lemma charge_cells_origin direction row col dr dc :
  charge_vector direction = Some (dr, dc) →
  (row, col) ∉ charge_cells row col dr dc.
Proof.
  intros Hdir. unfold charge_cells.
  intros (i & [= H1 H2] & Hi%elem_of_seqZ)%list_elem_of_fmap.
  apply charge_vector_cases in Hdir as [[= -> ->]|[[= -> ->]|[[= -> ->]|[= -> ->]]]];
    lia.
Qed.

Lemma free_cells_elem s lane p :
  p ∈ free_cells s lane ↔ p ∈ lane ∧ get_figure_at s p = None.
Proof. unfold free_cells. by rewrite list_elem_of_filter, (comm and). Qed.

Lemma last_elem_of {A} (l : list A) x : last l = Some x → x ∈ l.
Proof.
  induction l as [|y l IH]; [done|]. rewrite last_cons.
  destruct (last l) eqn:Hl.
  - intros [= ->]. by apply list_elem_of_further, IH.
  - intros [= ->]. apply list_elem_of_here.
Qed.

Lemma cells_before_elem p lane q : q ∈ cells_before p lane → q ∈ lane.
Proof.
  induction lane as [|x lane IH]; [done|]. simpl.
  case_decide; [by intros ?%elem_of_nil|].
  intros [->|Hq]%elem_of_cons; [apply list_elem_of_here|].
  by apply list_elem_of_further, IH.
Qed.

Lemma lane_enemies_elem s knight lane u :
  u ∈ lane_enemies s knight lane ↔
  ∃ p, p ∈ lane ∧ get_figure_at s p = Some u
       ∧ Figure.player (fig s u) ≠ Figure.player (fig s knight).
Proof.
  induction lane as [|q lane IH]; simpl.
  - split; [by intros ?%elem_of_nil|]. by intros (p & ?%elem_of_nil & _).
  - destruct (get_figure_at s q) as [t|] eqn:Hq.
    + destruct (decide _) as [Hen|Hfr].
      * rewrite elem_of_cons, IH. split.
        -- intros [->|(p & Hp & ?)].
           ++ exists q. split; [apply list_elem_of_here|done].
           ++ exists p. split; [by apply list_elem_of_further|done].
        -- intros (p & [->|Hp]%elem_of_cons & Hu & ?).
           ++ left. congruence.
           ++ right. by exists p.
      * rewrite IH. split.
        -- intros (p & Hp & ?). exists p.
           split; [by apply list_elem_of_further|done].
        -- intros (p & [->|Hp]%elem_of_cons & Hu & ?).
           ++ exfalso. apply Hfr. congruence.
           ++ by exists p.
    + rewrite IH. split.
      * intros (p & Hp & ?). exists p.
        split; [by apply list_elem_of_further|done].
      * intros (p & [->|Hp]%elem_of_cons & Hu & ?); [congruence|by exists p].
Qed.

Lemma lane_enemies_NoDup s knight lane :
  board_sound s → NoDup lane → NoDup (lane_enemies s knight lane).
Proof.
  intros (_ & _ & Hsound). induction 1 as [|q lane Hq Hnd IH]; [constructor|].
  simpl. destruct (get_figure_at s q) as [t|] eqn:Hcell; [|done].
  destruct (decide _); [|done].
  constructor; [|done].
  intros (p & Hp & Hpt & _)%lane_enemies_elem.
  destruct (Hsound _ _ Hcell) as [Hpos1 _].
  destruct (Hsound _ _ Hpt) as [Hpos2 _].
  congruence.
Qed.

(** Reading and writing board slots. *)

Lemma board_lookup_store_ne b r c v r' c' :
  (r, c) ≠ (r', c') →
  board_lookup (board_store b r c v) r' c' = board_lookup b r' c'.
Proof.
  intros Hne. unfold board_lookup, board_store.
  destruct (decide (r = r')) as [->|Hr].
  - rewrite list_lookup_alter_eq. destruct (b !! r') as [row|]; [|done].
    simpl. rewrite list_lookup_insert_ne; [done|]. congruence.
  - by rewrite list_lookup_alter_ne.
Qed.

Lemma board_lookup_store_eq b r c v row :
  b !! r = Some row → (c < length row)%nat →
  board_lookup (board_store b r c v) r c = v.
Proof.
  intros Hrow Hc. unfold board_lookup, board_store.
  rewrite list_lookup_alter_eq, Hrow. simpl.
  by rewrite list_lookup_insert_eq.
Qed.

Lemma board_lookup_store_None b r c r' c' :
  board_lookup b r' c' = None →
  board_lookup (board_store b r c None) r' c' = None.
Proof.
  intros Hnone. destruct (decide ((r, c) = (r', c'))) as [[= <- <-]|Hne];
    [|by rewrite board_lookup_store_ne].
  unfold board_lookup, board_store in *.
  rewrite list_lookup_alter_eq. destruct (b !! r) as [row|]; [|done]. simpl.
  destruct (decide (c < length row)%nat).
  - by rewrite list_lookup_insert_eq.
  - by rewrite list_insert_ge by lia.
Qed.

Lemma py_index_valid row col :
  is_valid_position (row, col) = true →
  py_index row = Some (Z.to_nat row) ∧ py_index col = Some (Z.to_nat col).
Proof.
  unfold is_valid_position, py_index.
  intros [Hr Hc]%andb_true_iff.
  apply bool_decide_eq_true in Hr, Hc.
  by rewrite !bool_decide_true by done.
Qed.

Lemma get_figure_at_store_ne s row col v q :
  is_valid_position (row, col) = true → q ≠ (row, col) →
  get_figure_at
    (set_board (board_store (board s) (Z.to_nat row) (Z.to_nat col) v) s) q
  = get_figure_at s q.
Proof.
  intros Hv Hq. unfold get_figure_at.
  destruct (is_valid_position q) eqn:Hvq; [|done]. simpl.
  destruct q as [qr qc]. apply board_lookup_store_ne.
  unfold is_valid_position in Hv, Hvq.
  apply andb_true_iff in Hv as [?%bool_decide_eq_true ?%bool_decide_eq_true].
  apply andb_true_iff in Hvq as [?%bool_decide_eq_true ?%bool_decide_eq_true].
  intros [= Heq1 Heq2]. apply Hq. f_equal; lia.
Qed.

Lemma get_figure_at_store_eq s row col v :
  length (board s) = 8%nat → (∀ r, r ∈ board s → length r = 8%nat) →
  is_valid_position (row, col) = true →
  get_figure_at
    (set_board (board_store (board s) (Z.to_nat row) (Z.to_nat col) v) s)
    (row, col)
  = v.
Proof.
  intros Hlen Hrows Hv. unfold get_figure_at. rewrite Hv. simpl.
  unfold is_valid_position in Hv.
  apply andb_true_iff in Hv as [?%bool_decide_eq_true ?%bool_decide_eq_true].
  destruct (lookup_lt_is_Some_2 (board s) (Z.to_nat row)) as [r Hr]; [lia|].
  apply (board_lookup_store_eq _ _ _ _ r); [done|].
  rewrite (Hrows r) by (by eapply list_elem_of_lookup_2). lia.
Qed.

Lemma get_figure_at_store_None s r c q :
  get_figure_at s q = None →
  get_figure_at (set_board (board_store (board s) r c None) s) q = None.
Proof.
  unfold get_figure_at. destruct (negb _); [done|]. destruct q.
  apply board_lookup_store_None.
Qed.

Lemma board_store_shape b r c v :
  length b = 8%nat → (∀ row, row ∈ b → length row = 8%nat) →
  length (board_store b r c v) = 8%nat
  ∧ ∀ row, row ∈ board_store b r c v → length row = 8%nat.
Proof.
  intros Hlen Hrows. unfold board_store. split; [by rewrite length_alter|].
  intros row (i & Hi)%list_elem_of_lookup_1.
  destruct (decide (r = i)) as [->|Hne].
  - rewrite list_lookup_alter_eq in Hi.
    destruct (b !! i) as [row0|] eqn:Hrow0; [|done].
    injection Hi as <-. rewrite length_insert.
    apply Hrows. by eapply list_elem_of_lookup_2.
  - rewrite list_lookup_alter_ne in Hi by done.
    apply Hrows. by eapply list_elem_of_lookup_2.
Qed.

Lemma remove_first_other t l l' x :
  list_remove_first t l = Some l' → x ≠ t → x ∈ l → x ∈ l'.
Proof.
  revert l'. induction l as [|y l IH]; intros l' H Hne Hx; [done|].
  simpl in H. destruct (decide (t = y)) as [->|Hty].
  - injection H as <-. by apply elem_of_cons in Hx as [->|Hx].
  - destruct (list_remove_first t l) as [l''|]; [|done].
    injection H as <-. apply elem_of_cons in Hx as [->|Hx].
    + apply list_elem_of_here.
    + apply list_elem_of_further. by apply (IH l'').
Qed.

(** The damage dealt along the lane. *)

Lemma _deal_damage_sound t d s p :
  Figure.is_dead (fig s t) = false →
  Figure.position (fig s t) = Some p →
  is_valid_position p = true →
  t ∈ figures s →
  ∃ s', _deal_damage t d s = Ok tt s'
    ∧ fig s' t = hit d (fig s t)
    ∧ (∀ x, x ≠ t → fig s' x = fig s x)
    ∧ (∀ x, x ≠ t → x ∈ figures s → x ∈ figures s')
    ∧ (∀ q, q ≠ p → get_figure_at s' q = get_figure_at s q)
    ∧ (∀ q, get_figure_at s q = None → get_figure_at s' q = None).
Proof.
  intros Halive Hpos Hvalid Hin. destruct p as [row col].
  destruct (decide (Figure.life (fig s t) - d ≤ 0)) as [Hlife|Hlife].
  - destruct (py_index_valid _ _ Hvalid) as [Hr Hc].
    destruct (list_remove_first_elem _ _ Hin) as [l Hl].
    destruct (_deal_damage_kill t d s (Z.to_nat row) (Z.to_nat col) l)
      as (s' & Hhit & Hfig & Hothers & Hboard & Hfigs & _); try done.
    { unfold slot_of. by rewrite Hpos, Hr, Hc. }
    exists s'. split; [done|]. split; [|split; [done|split; [|split]]].
    + rewrite Hfig. unfold hit. cbn [Figure.life Figure.set_life Figure.is_dead].
      by rewrite bool_decide_true, Halive by done.
    + intros x Hx Hxin. rewrite Hfigs.
      by apply (remove_first_other t (figures s) l).
    + intros q Hq. unfold get_figure_at at 1. rewrite Hboard.
      by apply (get_figure_at_store_ne s row col None q).
    + intros q Hq. unfold get_figure_at at 1. rewrite Hboard.
      by apply (get_figure_at_store_None s _ _ q).
  - exists (update_figure t (λ f, Figure.set_life (Figure.life f - d) f) s).
    split; [apply _deal_damage_survive; lia|].
    split; [|split; [|done]].
    + rewrite fig_update_figure_eq. unfold hit.
      cbn [Figure.life Figure.set_life].
      by rewrite bool_decide_false by done.
    + intros x Hx. by rewrite fig_update_figure_ne.
Qed.

Lemma charge_damage ts s :
  NoDup ts →
  (∀ t, t ∈ ts →
        Figure.is_dead (fig s t) = false ∧ t ∈ figures s
        ∧ ∃ p, Figure.position (fig s t) = Some p
               ∧ is_valid_position p = true) →
  ∃ s', for_each ts (λ t, _deal_damage t 2) s = Ok tt s'
    ∧ (∀ x, fig s' x = if decide (x ∈ ts) then hit 2 (fig s x) else fig s x)
    ∧ (∀ q, (∀ t, t ∈ ts → Figure.position (fig s t) ≠ Some q) →
            get_figure_at s' q = get_figure_at s q)
    ∧ (∀ q, get_figure_at s q = None → get_figure_at s' q = None).
Proof.
  intros Hnd. revert s. induction Hnd as [|t ts Ht Hnd IH]; intros s Hwf.
  - exists s. split; [done|]. split; [|done].
    intros x. by rewrite decide_False by apply not_elem_of_nil.
  - destruct (Hwf t) as (Halive & Hin & p & Hpos & Hvalid);
      [apply list_elem_of_here|].
    destruct (_deal_damage_sound t 2 s p Halive Hpos Hvalid Hin)
      as (s1 & Hhit & Hfig & Hothers & Hfigs & Hne & Hnone).
    destruct (IH s1) as (s' & Hrun & Hfig' & Hne' & Hnone').
    { intros x Hx. assert (x ≠ t) by (by intros ->).
      destruct (Hwf x) as (? & ? & Hp); [by apply list_elem_of_further|].
      rewrite Hothers by done. split; [done|]. split; [by apply Hfigs|done]. }
    exists s'. split.
    { by rewrite (for_each_cons_Ok t ts (λ t, _deal_damage t 2) s s1 Hhit). }
    split; [|split].
    + intros x. rewrite Hfig'. destruct (decide (x = t)) as [->|Hx].
      * destruct (decide (t ∈ ts)); [done|].
        destruct (decide (t ∈ t :: ts)) as [|Hn]; [done|].
        exfalso. apply Hn, list_elem_of_here.
      * rewrite Hothers by done.
        destruct (decide (x ∈ ts)), (decide (x ∈ t :: ts)) as [Hy|Hn];
          try done.
        -- exfalso. by apply Hn, list_elem_of_further.
        -- by apply elem_of_cons in Hy as [?|?].
    + intros q Hq. rewrite Hne'.
      * apply Hne. intros ->. by apply (Hq t); [apply list_elem_of_here|].
      * intros x Hx. assert (x ≠ t) by (by intros ->).
        rewrite Hothers by done. by apply Hq, list_elem_of_further.
    + intros q Hq. by apply Hnone', Hnone.
Qed.

Lemma get_figure_at_Some_valid s p u :
  get_figure_at s p = Some u → is_valid_position p = true.
Proof. unfold get_figure_at. by destruct (is_valid_position p). Qed.

Lemma get_figure_at_update_figure s r f p :
  get_figure_at (update_figure r f s) p = get_figure_at s p.
Proof. done. Qed.

Lemma knight_charge_unfold s knight direction row col dr dc :
  Figure.type (fig s knight) = KNIGHT →
  Figure.has_moved (fig s knight) = false →
  Figure.has_acted (fig s knight) = false →
  Figure.counter_containment_turns (fig s knight) ≤ 0 →
  Figure.position (fig s knight) = Some (row, col) →
  charge_vector direction = Some (dr, dc) →
  knight_charge knight direction s
  = match charge_scan s knight row col dr dc (seqZ 1 4) [] None with
    | (damaged_figures, Some (final_row, final_col)) =>
        (board_setitem row col None >>
         board_setitem final_row final_col (Some knight) >>
         modify (update_figure knight
                   (Figure.set_position (Some (final_row, final_col)))) >>
         for_each damaged_figures (λ target, _deal_damage target 2) >>
         modify (update_figure knight (Figure.set_has_moved true)) >>
         modify (update_figure knight (Figure.set_has_acted true)) >>
         success ("Charge successful, damaged "
                  +:+ pretty (length damaged_figures) +:+ " figures")) s
    | (_, None) => failure "No valid charge destination" s
    end.
Proof.
  intros Htype Hmoved Hacted Hfree Hpos Hdir. unfold knight_charge.
  rewrite Htype, Hmoved, Hacted. rewrite bool_decide_true by done.
  rewrite (bool_decide_false (_ > _)) by lia. cbn [negb orb].
  rewrite Hpos, Hdir. unfold bind at 1. cbn [unpack]. unfold ret at 1.
  by destruct (charge_scan _ _ _ _ _ _ _ _ _) as [? [[]|]].
Qed.

(** C2 (amended): a Knight that has not moved or acted and is not contained
    charges in a cardinal direction over a sound board.  If one of the four
    cells ahead is unoccupied and is reached before terrain or the board
    edge, the charge succeeds: the Knight lands on the last such cell (its
    position and the board slot move there, the origin slot is emptied),
    every enemy figure on a cell strictly between origin and landing cell
    takes 2 damage through [_deal_damage], and [has_moved] and [has_acted]
    are set.  Otherwise the charge fails and the state is unchanged. *)
Theorem knight_charge_effect s knight direction row col dr dc :
  board_sound s →
  Figure.type (fig s knight) = KNIGHT →
  Figure.has_moved (fig s knight) = false →
  Figure.has_acted (fig s knight) = false →
  Figure.counter_containment_turns (fig s knight) ≤ 0 →
  Figure.position (fig s knight) = Some (row, col) →
  get_figure_at s (row, col) = Some knight →
  charge_vector direction = Some (dr, dc) →
  let lane := open_lane s (charge_cells row col dr dc) in
  match last (free_cells s lane) with
  | None => ∃ msg, knight_charge knight direction s = Ok (false, msg) s
  | Some landing =>
      ∃ msg s',
        knight_charge knight direction s = Ok (true, msg) s'
        ∧ Figure.position (fig s' knight) = Some landing
        ∧ get_figure_at s' landing = Some knight
        ∧ get_figure_at s' (row, col) = None
        ∧ Figure.has_moved (fig s' knight) = true
        ∧ Figure.has_acted (fig s' knight) = true
        ∧ ∀ p u,
            p ∈ cells_before landing lane →
            get_figure_at s p = Some u →
            Figure.player (fig s u) ≠ Figure.player (fig s knight) →
            fig s' u = hit 2 (fig s u)
            ∧ Figure.life (fig s' u) = Z.max 0 (Figure.life (fig s u) - 2)
  end.
Proof.
  intros Hsound Htype Hmoved Hacted Hfree Hpos Horigin Hdir lane.
  pose proof Hsound as (Hlen & Hrows & Hcells).
  rewrite (knight_charge_unfold s knight direction row col dr dc) by done.
  pose proof (charge_scan_lane s knight row col dr dc (seqZ 1 4) [] None)
    as Hscan.
  cbv zeta in Hscan. fold (charge_cells row col dr dc) in Hscan.
  fold lane in Hscan. rewrite Hscan. cbn [app]. cbv beta iota.
  destruct (last (free_cells s lane)) as [[lrow lcol]|] eqn:Hlast;
    [|by eexists].
  (* the landing cell *)
  apply last_elem_of, free_cells_elem in Hlast as [Hlane Hempty].
  apply open_lane_elem in Hlane as Hlanding.
  destruct Hlanding as (Hcell & Hvalid & _).
  assert (Hdistinct : (lrow, lcol) ≠ (row, col)).
  { intros Heq. rewrite Heq in Hcell.
    by apply (charge_cells_origin direction) in Hcell. }
  assert (Hvalid0 : is_valid_position (row, col) = true)
    by by eapply get_figure_at_Some_valid.
  destruct (py_index_valid _ _ Hvalid0) as [Hr0 Hc0].
  destruct (py_index_valid _ _ Hvalid) as [Hr1 Hc1].
  set (sa := set_board (board_store (board s) (Z.to_nat row) (Z.to_nat col)
                          None) s).
  set (sb := set_board (board_store (board sa) (Z.to_nat lrow)
                          (Z.to_nat lcol) (Some knight)) sa).
  set (sc := update_figure knight
               (Figure.set_position (Some (lrow, lcol))) sb).
  (* the figures hit *)
  set (damaged := lane_enemies s knight lane).
  assert (Hnd : NoDup damaged).
  { apply lane_enemies_NoDup; [done|].
    apply open_lane_NoDup. by eapply charge_cells_NoDup. }
  assert (Henemy : ∀ t, t ∈ damaged →
             t ≠ knight ∧ ∃ p, p ∈ lane ∧ get_figure_at s p = Some t).
  { intros t (p & Hp & Hpt & Hpl)%lane_enemies_elem.
    split; [by intros ->|by exists p]. }
  destruct (charge_damage damaged sc Hnd) as (sd & Hrun & Hfig & Hkeep & Hnone).
  { intros t Ht. destruct (Henemy t Ht) as (Hne & p & Hp & Hpt).
    destruct (Hcells p t Hpt) as (Hpos_t & Halive_t & Hin_t).
    unfold sc. rewrite fig_update_figure_ne by done.
    split; [done|]. split; [done|]. exists p. split; [done|].
    by apply open_lane_elem in Hp as (_ & ? & _). }
  eexists _, (update_figure knight (Figure.set_has_acted true)
                (update_figure knight (Figure.set_has_moved true) sd)).
  split.
  { unfold bind, board_setitem, modify, success, ret.
    rewrite Hr0, Hc0. cbn [board]. fold sa. rewrite Hr1, Hc1. fold sb sc.
    fold damaged. by rewrite Hrun. }
  assert (Hknight : knight ∉ damaged).
  { intros Hin. by destruct (Henemy knight Hin). }
  assert (Hfig_k : fig sd knight = fig sc knight).
  { rewrite Hfig. by rewrite decide_False. }
  split.
  { rewrite fig_update_figure_eq, fig_update_figure_eq, Hfig_k.
    unfold sc. by rewrite fig_update_figure_eq. }
  split.
  { rewrite !get_figure_at_update_figure. rewrite Hkeep.
    - unfold sc. rewrite get_figure_at_update_figure. unfold sb.
      apply get_figure_at_store_eq; [| |done];
        by apply board_store_shape.
    - intros t Ht. destruct (Henemy t Ht) as (Hne & p & Hp & Hpt).
      destruct (Hcells p t Hpt) as (Hpos_t & _).
      unfold sc. rewrite fig_update_figure_ne by done.
      change (Figure.position (fig s t) ≠ Some (lrow, lcol)).
      rewrite Hpos_t. intros [= ->]. congruence. }
  split.
  { rewrite !get_figure_at_update_figure. apply Hnone.
    unfold sc. rewrite get_figure_at_update_figure. unfold sb.
    rewrite get_figure_at_store_ne by done.
    unfold sa. by apply get_figure_at_store_eq. }
  split; [by rewrite fig_update_figure_eq, fig_update_figure_eq|].
  split; [by rewrite fig_update_figure_eq|].
  intros p u Hp Hpu Hpl.
  assert (Hu : u ∈ damaged).
  { apply lane_enemies_elem. exists p.
    split; [by eapply cells_before_elem|done]. }
  destruct (Henemy u Hu) as [Hne _].
  destruct (Hcells p u Hpu) as (_ & Halive_u & _).
  assert (Hfinal : fig (update_figure knight (Figure.set_has_acted true)
                          (update_figure knight (Figure.set_has_moved true) sd))
                     u = hit 2 (fig s u)).
  { rewrite !fig_update_figure_ne by done. rewrite Hfig.
    rewrite decide_True by done. unfold sc.
    by rewrite fig_update_figure_ne by done. }
  split; [done|]. rewrite Hfinal. unfold hit.
  cbn [Figure.life Figure.set_life Figure.is_dead]. rewrite Halive_u.
  case_bool_decide; cbn [negb andb Figure.life Figure.set_life Figure.set_is_dead];
    lia.
Qed.

Lemma all_cells_valid p : is_valid_position p = true → p ∈ all_cells.
Proof.
  destruct p as [row col]. unfold is_valid_position, all_cells.
  intros [Hr%bool_decide_eq_true Hc%bool_decide_eq_true]%andb_true_iff.
  apply list_elem_of_bind. exists row. split; [|apply elem_of_seqZ; lia].
  apply list_elem_of_bind. exists col. split; [|apply elem_of_seqZ; lia].
  apply list_elem_of_singleton. done.
Qed.

Lemma slots_sound_correct s :
  length (board s) = 8%nat →
  Forall (λ row, length row = 8%nat) (board s) →
  slots_sound s = true →
  board_sound s.
Proof.
  intros Hlen Hrows Hslots. split; [done|]. split.
  { by apply Forall_forall. }
  intros p u Hpu. unfold slots_sound in Hslots.
  rewrite forallb_forall in Hslots.
  assert (Hin : In p all_cells).
  { apply list_elem_of_In, all_cells_valid.
    by eapply get_figure_at_Some_valid. }
  specialize (Hslots p Hin). cbv beta in Hslots. rewrite Hpu in Hslots.
  apply andb_true_iff in Hslots as [[Hp Ha]%andb_true_iff Hf].
  apply bool_decide_eq_true in Hp, Hf. by apply negb_true_iff in Ha.
Qed.

(** C2 as stated is refuted: with two enemies ahead and two free cells
    behind them, the Knight does not stop on the first free cell (3, 1) but
    on the last one within range, (4, 1). *)
Lemma charge_lands_on_last_free_cell :
  head (free_cells charge_game
          (open_lane charge_game (charge_cells 0 1 1 0))) = Some (3, 1)
  ∧ reported (knight_charge 1%nat "down" charge_game)
    = Some (true, "Charge successful, damaged 2 figures")
  ∧ Figure.position (fig (state_of (knight_charge 1%nat "down" charge_game))
                       1%nat)
    = Some (4, 1).
Proof. repeat split; vm_compute; reflexivity. Qed.

Lemma knight_charge_effect_witness :
  board_sound charge_game
  ∧ ∃ msg s',
      knight_charge 1%nat "down" charge_game = Ok (true, msg) s'
      ∧ Figure.position (fig s' 1%nat) = Some (4, 1)
      ∧ get_figure_at s' (4, 1) = Some 1%nat
      ∧ get_figure_at s' (0, 1) = None
      ∧ Figure.has_moved (fig s' 1%nat) = true
      ∧ Figure.has_acted (fig s' 1%nat) = true
      ∧ Figure.life (fig s' 2%nat) = 5
      ∧ Figure.life (fig s' 3%nat) = 6.
Proof.
  assert (Hsound : board_sound charge_game).
  { apply slots_sound_correct; [reflexivity| |reflexivity].
    refine (bool_decide_unpack _ _). vm_compute. exact I. }
  split; [exact Hsound|].
  pose proof (knight_charge_effect charge_game 1%nat "down" 0 1 1 0 Hsound
                eq_refl eq_refl eq_refl) as H.
  cbv zeta in H.
  assert (Hlast : last (free_cells charge_game
                          (open_lane charge_game (charge_cells 0 1 1 0)))
                  = Some (4, 1)) by (vm_compute; reflexivity).
  rewrite Hlast in H.
  destruct H as (msg & s' & Hrun & Hpos & Hland & Horigin & Hm & Ha & Hhit);
    [vm_compute; discriminate | reflexivity | reflexivity | reflexivity |].
  exists msg, s'. repeat (split; [assumption|]).
  assert (Hbefore : ∀ p, p ∈ [(1, 1); (2, 1)] →
            p ∈ cells_before (4, 1)
                  (open_lane charge_game (charge_cells 0 1 1 0))).
  { intros p Hp. refine (bool_decide_unpack _ _).
    repeat (apply elem_of_cons in Hp as [->|Hp]; [vm_compute; exact I|]).
    by apply elem_of_nil in Hp. }
  split.
  - destruct (Hhit (1, 1) 2%nat) as [_ ->];
      [apply Hbefore, list_elem_of_here | reflexivity
      | vm_compute; discriminate |].
    reflexivity.
  - destruct (Hhit (2, 1) 3%nat) as [_ ->];
      [apply Hbefore, list_elem_of_further, list_elem_of_here | reflexivity
      | vm_compute; discriminate |].
    reflexivity.
Defined.

(** * Turn manager *)

Section Loop.
Variable body : ref → M unit.
Variable h : Figure.t → Figure.t.
Variable s0 : GameState.
Hypothesis body_spec : ∀ r s,
  same_fields s0 s →
  ∃ s', body r s = Ok tt s' ∧ same_fields s0 s'
    ∧ fig s' r = h (fig s r) ∧ ∀ x, x ≠ r → fig s' x = fig s x.

Lemma for_each_pointwise xs s :
  NoDup xs → same_fields s0 s →
  ∃ s', for_each xs body s = Ok tt s' ∧ same_fields s0 s'
    ∧ ∀ x, fig s' x = if decide (x ∈ xs) then h (fig s x) else fig s x.
Proof.
  revert s. induction xs as [|r xs IH]; intros s Hnd Hs.
  - exists s. split; [done|]. split; [done|]. intros x.
    by rewrite decide_False by apply not_elem_of_nil.
  - apply NoDup_cons in Hnd as [Hr Hnd].
    destruct (body_spec r s Hs) as (s1 & Hb & Hs1 & Hfr & Hfo).
    destruct (IH s1 Hnd Hs1) as (s' & Hrun & Hs' & Hfig).
    exists s'. split; [by rewrite (for_each_cons_Ok _ _ _ _ _ Hb)|].
    split; [done|]. intros x. rewrite Hfig.
    destruct (decide (x = r)) as [->|Hx].
    + rewrite decide_False by done. rewrite decide_True by apply list_elem_of_here.
      done.
    + rewrite Hfo by done.
      destruct (decide (x ∈ xs)).
      * by rewrite decide_True by by apply list_elem_of_further.
      * rewrite decide_False; [done|]. by intros [?|?]%elem_of_cons.
Qed.
End Loop.

Lemma same_fields_refl s : same_fields s s.
Proof. by repeat split. Qed.

Lemma same_fields_update_figure s0 s r f :
  same_fields s0 s → same_fields s0 (update_figure r f s).
Proof. done. Qed.

Lemma reset_flags_spec s0 r s :
  same_fields s0 s →
  ∃ s', reset_flags r s = Ok tt s' ∧ same_fields s0 s'
    ∧ fig s' r = reset_of (current_player s0) (fig s r)
    ∧ ∀ x, x ≠ r → fig s' x = fig s x.
Proof.
  intros Hs. unfold reset_flags, reset_of.
  assert (Hcp : current_player s = current_player s0) by apply Hs.
  rewrite Hcp. case_bool_decide as Hp.
  - eexists. split; [done|]. simpl. split; [done|].
    rewrite decide_True by done. split.
    + by rewrite !fig_update_figure_eq.
    + intros x Hx. by rewrite !fig_update_figure_ne.
  - exists s. rewrite decide_False by done. done.
Qed.

Lemma decay_containment_spec s0 r s :
  same_fields s0 s →
  ∃ s', decay_containment r s = Ok tt s' ∧ same_fields s0 s'
    ∧ fig s' r = decay_of (fig s r)
    ∧ ∀ x, x ≠ r → fig s' x = fig s x.
Proof.
  intros Hs. unfold decay_containment, decay_of.
  destruct (bool_decide _).
  - eexists. split; [done|]. simpl. split; [done|]. split.
    + by rewrite !fig_update_figure_eq.
    + intros x Hx. by rewrite !fig_update_figure_ne.
  - by exists s.
Qed.



(** * Failure results *)

(** C5 as stated is refuted: with the caster on its last life, the
    resurrection spell reports failure after its self-damage has killed the
    caster and scored for the opponent. *)
Lemma failed_revive_changes_state :
  reported (perform (VampiricPush 1%nat 2%nat (0, 1)) revive_game)
    = Some (Some false)
  ∧ state_of (perform (VampiricPush 1%nat 2%nat (0, 1)) revive_game)
    ≠ revive_game.
Proof.
  split; [by vm_compute|].
  intros H. apply (f_equal scores) in H. vm_compute in H. discriminate.
Qed.

(** C5 (amended): a call that reports failure returns the state it was
    given, except the resurrection spell on its caster-death branch, where
    the state is the one the caster's unit of self-damage has produced. *)
Theorem failure_leaves_state (a : Action) s s' :
  perform a s = Ok (Some false) s' →
  s' = s ∨
  (∃ mage d p, a = VampiricPush mage d p
     ∧ _deal_damage mage 1 s = Ok tt s'
     ∧ Figure.is_dead (fig s' mage) = true).
Proof.
  intros H.
  destruct a; simpl in H;
    apply bind_Ok in H as (r & s1 & Hcall & H);
    injection H as H ->.
  - left. subst r. eauto using place_figure_failure.
  - left. destruct r; simpl in H; subst. eauto using move_figure_failure.
  - left. destruct r; simpl in H; subst. eauto using knight_charge_failure.
  - left. destruct r; simpl in H; subst. eauto using attack_failure.
  - left. destruct r; simpl in H; subst.
    eauto using arbalist_long_eye_failure.
  - left. destruct r; simpl in H; subst.
    eauto using black_mage_magic_bomb_failure.
  - left. destruct r; simpl in H; subst.
    eauto using black_mage_plague_failure.
  - destruct r; simpl in H; subst.
    apply black_mage_vampiric_push_failure in Hcall as [->|[? ?]];
      [by left|right; eauto 10].
  - left. destruct r; simpl in H; subst.
    eauto using white_mage_conjure_failure.
  - left. destruct r; simpl in H; subst. eauto using white_mage_heal_failure.
  - left. destruct r; simpl in H; subst.
    eauto using white_mage_counter_containment_failure.
  - discriminate.
Qed.

Lemma failure_leaves_state_witness :
  perform (MoveFigure 1%nat (3, 0)) revive_game = Ok (Some false) revive_game
  ∧ (revive_game = revive_game ∨
     ∃ mage d p, MoveFigure 1%nat (3, 0) = VampiricPush mage d p
       ∧ _deal_damage mage 1 revive_game = Ok tt revive_game
       ∧ Figure.is_dead (fig revive_game mage) = true).
Proof.
  split; [by vm_compute|].
  apply (failure_leaves_state (MoveFigure 1%nat (3, 0))). by vm_compute.
Defined.

(** C6: [move_figure] takes [None] from [get_figure_at] to mean a free
    cell, so a destination off the board passes every check.  Row -1 wraps
    to row 7: the call reports success and overwrites the slot of the figure
    standing there.  Row 8 raises [IndexError] after the origin slot has
    been cleared. *)
Theorem move_figure_out_of_bounds :
  is_valid_position (-1, 0) = false
  ∧ get_figure_at corner_game (7, 0) = Some 2%nat
  ∧ reported (move_figure 1%nat (-1, 0) corner_game)
    = Some (true, "Move successful")
  ∧ get_figure_at (state_of (move_figure 1%nat (-1, 0) corner_game)) (7, 0)
    = Some 1%nat
  ∧ is_valid_position (8, 0) = false
  ∧ (∃ s', move_figure 2%nat (8, 0) corner_game = Raise IndexError s'
           ∧ get_figure_at s' (7, 0) = None
           ∧ Figure.position (fig s' 2%nat) = Some (7, 0)).
Proof.
  repeat split; try by vm_compute.
  eexists. split; [by vm_compute|]. split; by vm_compute.
Qed.

(** On a figure that is alive, a hit keeps the life invariant ... *)
Lemma hit_keeps_life_invariant d f :
  0 ≤ d → Figure.is_dead f = false →
  life_invariant f → life_invariant (hit d f).
Proof.
  intros Hd Halive [Hrange Hzero]. unfold hit, life_invariant.
  cbn [Figure.life Figure.set_life Figure.is_dead]. rewrite Halive.
  case_bool_decide as Hlife; cbn [negb andb];
    destruct f; cbn in *; subst; split; lia.
Qed.

(** ... but a hit on a dead figure takes its life below zero. *)
Lemma _deal_damage_dead_goes_negative target d s :
  Figure.is_dead (fig s target) = true →
  Figure.life (fig s target) = 0 → 0 < d →
  ∃ s', _deal_damage target d s = Ok tt s'
    ∧ Figure.life (fig s' target) = - d
    ∧ Figure.is_dead (fig s' target) = true.
Proof.
  intros Hdead Hlife Hd. eexists. split; [by apply _deal_damage_dead|].
  rewrite fig_update_figure_eq. cbn [Figure.life Figure.set_life Figure.is_dead].
  split; [lia|done].
Qed.

(** C4: the life invariant does not survive a call whose target is already
    dead.  In [plague_game] every figure satisfies it; a further Plague on
    the dead White Mage (still "in reach" through the position it died on)
    drives its life to -2, past the clamp that [_deal_damage] applies only
    on the dying branch, and a Heal on it gives a dead figure 3 life. *)
Theorem life_invariant_broken_on_dead_target :
  (∀ r, r ∈ [1%nat; 2%nat; 3%nat; 4%nat] →
        life_invariant (fig plague_game r))
  ∧ Figure.is_dead (fig plague_game 2%nat) = true
  ∧ reported (black_mage_plague 1%nat 2%nat 1 plague_game)
    = Some (true, "Plague cast: Mage lost 1 life, target lost 2 life")
  ∧ Figure.life
      (fig (state_of (black_mage_plague 1%nat 2%nat 1 plague_game)) 2%nat)
    = -2
  ∧ ¬ life_invariant
      (fig (state_of (black_mage_plague 1%nat 2%nat 1 plague_game)) 2%nat)
  ∧ reported (white_mage_heal 4%nat 2%nat plague_game)
    = Some (true, "Healed White Mage for 3 life")
  ∧ Figure.life (fig (state_of (white_mage_heal 4%nat 2%nat plague_game)) 2%nat)
    = 3
  ∧ Figure.is_dead
      (fig (state_of (white_mage_heal 4%nat 2%nat plague_game)) 2%nat)
    = true
  ∧ ¬ life_invariant
      (fig (state_of (white_mage_heal 4%nat 2%nat plague_game)) 2%nat).
Proof.
  split.
  { intros r Hr. unfold life_invariant.
    repeat (apply elem_of_cons in Hr as [->|Hr]; [by vm_compute|]).
    by apply elem_of_nil in Hr. }
  repeat split; try by vm_compute.
  - intros [[Hlo _] _]. by vm_compute in Hlo.
  - intros [_ [_ Hdead]]. vm_compute in Hdead. by specialize (Hdead eq_refl).
Qed.

(** * Further properties of the engine *)

(** ** Who may act *)

(** X1.  A figure that has already acted this turn, or that is under
    counter containment, can do nothing: every call made on its behalf,
    whatever the action and its arguments, reports a failure and leaves the
    game exactly as it was. *)
Theorem spent_or_contained_cannot_act a f s :
  actor a = Some f →
  Figure.has_acted (fig s f) = true
  ∨ 0 < Figure.counter_containment_turns (fig s f) →
  perform a s = Ok (Some false) s.
Proof.
  intros Hactor Hblocked.
  assert (Hcases : ∀ c : bool, Figure.has_acted (fig s f) = false →
            bool_decide (Figure.counter_containment_turns (fig s f) > 0)
            = false → c = c → False).
  { intros _ Ha Hc _. apply bool_decide_eq_false in Hc.
    destruct Hblocked as [Hb|Hb]; [congruence|lia]. }
  destruct a; simplify_eq/=; unfold bind.
  - unfold move_figure.
    destruct (Figure.has_acted (fig s f)) eqn:Ha; [done|]. simpl.
    destruct (Figure.has_moved (fig s f)); [done|].
    destruct (bool_decide _) eqn:Hc; [done|]. by destruct (Hcases true).
  - unfold knight_charge.
    destruct (negb _); [done|].
    destruct (Figure.has_moved (fig s f)); [done|]. simpl.
    destruct (Figure.has_acted (fig s f)) eqn:Ha; [done|].
    destruct (bool_decide _) eqn:Hc; [done|]. by destruct (Hcases true).
  - unfold attack.
    destruct (Figure.has_acted (fig s f)) eqn:Ha; [done|].
    destruct (bool_decide _) eqn:Hc; [done|]. by destruct (Hcases true).
  - unfold arbalist_long_eye. destruct (negb _); [done|].
    destruct (Figure.has_acted (fig s f)) eqn:Ha; [done|].
    destruct (bool_decide _) eqn:Hc; [done|]. by destruct (Hcases true).
  - unfold black_mage_magic_bomb. destruct (negb _); [done|].
    destruct (Figure.has_acted (fig s f)) eqn:Ha; [done|].
    destruct (bool_decide _) eqn:Hc; [done|]. by destruct (Hcases true).
  - unfold black_mage_plague. destruct (negb _); [done|].
    destruct (Figure.has_acted (fig s f)) eqn:Ha; [done|].
    destruct (bool_decide _) eqn:Hc; [done|]. by destruct (Hcases true).
  - unfold black_mage_vampiric_push. destruct (negb _); [done|].
    destruct (Figure.has_acted (fig s f)) eqn:Ha; [done|].
    destruct (bool_decide _) eqn:Hc; [done|]. by destruct (Hcases true).
  - unfold white_mage_conjure. destruct (negb _); [done|].
    destruct (Figure.has_acted (fig s f)) eqn:Ha; [done|].
    destruct (bool_decide _) eqn:Hc; [done|]. by destruct (Hcases true).
  - unfold white_mage_heal. destruct (negb _); [done|].
    destruct (Figure.has_acted (fig s f)) eqn:Ha; [done|].
    destruct (bool_decide _) eqn:Hc; [done|]. by destruct (Hcases true).
  - unfold white_mage_counter_containment. destruct (negb _); [done|].
    destruct (Figure.has_acted (fig s f)) eqn:Ha; [done|].
    destruct (bool_decide _) eqn:Hc; [done|]. by destruct (Hcases true).
Qed.

Lemma spent_or_contained_cannot_act_witness :
  actor (Heal 1%nat 3%nat) = Some 1%nat
  ∧ Figure.has_acted (fig conjured_game 1%nat) = true
  ∧ perform (Heal 1%nat 3%nat) conjured_game = Ok (Some false) conjured_game.
Proof.
  split; [reflexivity|]. split; [vm_compute; reflexivity|].
  apply (spent_or_contained_cannot_act (Heal 1%nat 3%nat) 1%nat conjured_game).
  - reflexivity.
  - left. vm_compute. reflexivity.
Defined.

(** ** Turn bookkeeping *)

Lemma same_turn_refl s : same_turn s s.
Proof. by repeat split. Qed.

Ltac leaf_turn :=
  first [ assumption | by (unfold same_turn in *; simpl; destruct_and?) ].

Lemma _deal_damage_same_turn s0 t d s :
  same_turn s0 s → same_turn s0 (state_of (_deal_damage t d s)).
Proof. intros Hs. unfold _deal_damage. walk leaf_turn. Qed.

Ltac walk_turn :=
  walk ltac:(first [ by apply _deal_damage_same_turn
                   | apply state_of_bomb_loop;
                     [by intros; apply _deal_damage_same_turn|assumption]
                   | leaf_turn ]).

(** X2.  Only [end_turn] advances the game: every other call, successful or
    not, leaves the player to move, the turn count, the game-over flag and
    the winner as they were.  In particular no kill ends the game before
    the turn is ended. *)
Theorem only_end_turn_advances a s :
  a ≠ EndTurn → same_turn s (state_of (perform a s)).
Proof.
  intros Ha. pose proof (same_turn_refl s) as Hs.
  destruct a; simpl; [..|done].
  - unfold place_figure. destruct p. walk_turn.
  - unfold move_figure. walk_turn.
  - unfold knight_charge. walk_turn.
  - unfold attack. walk_turn.
  - unfold arbalist_long_eye. walk_turn.
  - unfold black_mage_magic_bomb. walk_turn.
  - unfold black_mage_plague. walk_turn.
  - unfold black_mage_vampiric_push, resurrect. walk_turn.
  - unfold white_mage_conjure. walk_turn.
  - unfold white_mage_heal. walk_turn.
  - unfold white_mage_counter_containment. walk_turn.
Qed.

Lemma only_end_turn_advances_witness :
  Conjure 1%nat 2%nat ≠ EndTurn
  ∧ same_turn conjure_game (state_of (perform (Conjure 1%nat 2%nat) conjure_game)).
Proof.
  split; [discriminate|].
  apply (only_end_turn_advances (Conjure 1%nat 2%nat) conjure_game).
  discriminate.
Defined.

(** ** The rules as data *)

(** A variant of [walk] that leaves board assignments to the leaf tactic. *)
Ltac stroll leaf :=
  cbv beta zeta;
  lazymatch goal with
  | |- _ (state_of (bind _ _ _)) =>
      apply state_of_bind; [stroll leaf | intros ? ? ? ?; stroll leaf]
  | |- _ (state_of (unpack _ _)) => apply state_of_unpack; assumption
  | |- _ (state_of (_in_reach _ _ _ _)) => apply state_of_in_reach; assumption
  | |- _ (state_of (board_getitem _ _ _)) =>
      apply state_of_board_getitem; assumption
  | |- _ (state_of (board_setitem _ _ _ _)) => leaf
  | |- _ (state_of (for_each _ _ _)) =>
      apply state_of_for_each; [intros ? ? ?; stroll leaf | assumption]
  | |- _ (state_of ((if ?c then _ else _) _)) => destruct c eqn:?; stroll leaf
  | |- _ (state_of (if ?c then _ else _)) => destruct c eqn:?; stroll leaf
  | |- _ (state_of ((match ?x with _ => _ end) _)) =>
      destruct x eqn:?; stroll leaf
  | |- _ (state_of (match ?x with _ => _ end)) =>
      destruct x eqn:?; stroll leaf
  | |- _ => leaf
  end.

Lemma same_stats_refl f : same_stats f f.
Proof. by repeat split. Qed.

Lemma rules_kept_refl s : rules_kept s s.
Proof. split; [done|]. split; [intros; apply same_stats_refl|done]. Qed.

Lemma rules_kept_update_figure s0 s r f :
  (∀ x, same_stats x (f x)) →
  rules_kept s0 s → rules_kept s0 (update_figure r f s).
Proof.
  intros Hf (Ht & Hs & Hb). split; [done|]. split; [|done].
  intros x. rewrite fig_update_figure. destruct (decide (r = x)) as [->|]; [|done].
  specialize (Hs x). specialize (Hf (fig s x)).
  unfold same_stats in *. destruct_and?. repeat split; congruence.
Qed.

Lemma board_setitem_rules s0 row col v s :
  rules_kept s0 s → rules_kept s0 (state_of (board_setitem row col v s)).
Proof.
  intros (Ht & Hs & Hb). unfold board_setitem.
  destruct (py_index row), (py_index col); try done. simpl.
  split; [done|]. split; [done|]. intros H0.
  destruct (Hb H0) as [Hlen Hrows]. by apply board_store_shape.
Qed.

Ltac leaf_rules :=
  first [ assumption
        | by apply board_setitem_rules
        | by (cbn [state_of modify];
              apply rules_kept_update_figure; [by intros; repeat split|])
        | by (unfold rules_kept, board_shape, fig in *; simpl; destruct_and?) ].

Lemma _deal_damage_rules s0 t d s :
  rules_kept s0 s → rules_kept s0 (state_of (_deal_damage t d s)).
Proof. intros Hs. unfold _deal_damage. stroll leaf_rules. Qed.

Ltac stroll_rules :=
  stroll ltac:(first [ by apply _deal_damage_rules
                   | apply state_of_bomb_loop;
                     [by intros; apply _deal_damage_rules|assumption]
                   | leaf_rules ]).

Lemma perform_rules s0 a s :
  rules_kept s0 s → rules_kept s0 (state_of (perform a s)).
Proof.
  intros Hs. destruct a; simpl.
  - unfold place_figure. destruct p. stroll_rules.
  - unfold move_figure. stroll_rules.
  - unfold knight_charge. stroll_rules.
  - unfold attack. stroll_rules.
  - unfold arbalist_long_eye. stroll_rules.
  - unfold black_mage_magic_bomb. stroll_rules.
  - unfold black_mage_plague. stroll_rules.
  - unfold black_mage_vampiric_push, resurrect. stroll_rules.
  - unfold white_mage_conjure. stroll_rules.
  - unfold white_mage_heal. stroll_rules.
  - unfold white_mage_counter_containment. stroll_rules.
  - unfold end_turn, reset_flags, decay_containment, _check_win_conditions.
    stroll_rules.
Qed.

(** X3.  The rules are data that no call ever touches: over any sequence
    of calls the terrain cells stay where they are, every figure keeps its
    type, maximum life, move, attack and reach, and the board stays eight
    rows of eight slots. *)
Theorem rules_never_change acts s :
  terrain (run acts s) = terrain s
  ∧ (∀ r, same_stats (fig s r) (fig (run acts s) r))
  ∧ (board_shape s → board_shape (run acts s)).
Proof.
  assert (H : ∀ s1, rules_kept s s1 → rules_kept s (run acts s1)).
  { induction acts as [|a acts IH]; intros s1 Hs1; [done|].
    simpl. by apply IH, perform_rules. }
  apply (H s), rules_kept_refl.
Qed.

Lemma rules_never_change_witness :
  board_shape full_setup
  ∧ terrain (run skirmish full_setup) = terrain full_setup
  ∧ (∀ r, same_stats (fig full_setup r) (fig (run skirmish full_setup) r))
  ∧ board_shape (run skirmish full_setup).
Proof.
  assert (Hshape : board_shape full_setup).
  { split; [reflexivity|]. intros row Hrow. vm_compute in Hrow.
    repeat (apply elem_of_cons in Hrow as [->|Hrow]; [reflexivity|]).
    by apply elem_of_nil in Hrow. }
  split; [exact Hshape|].
  destruct (rules_never_change skirmish full_setup) as (Ht & Hs & Hb).
  split; [exact Ht|]. split; [exact Hs|]. exact (Hb Hshape).
Defined.


(** ** Scores and dead pools *)

(** A damage call either leaves both ledgers alone or enters the death in
    both. *)
Lemma _deal_damage_ledger t d s :
  let s' := state_of (_deal_damage t d s) in
  (dead_figures s' = dead_figures s ∧ scores s' = scores s)
  ∨ (dead_figures s'
     = dset (dead_figures s) (Figure.player (fig s t))
         (dget (dead_figures s) (Figure.player (fig s t)) ++ [t])
     ∧ scores s'
       = dset (scores s) (opponent (Figure.player (fig s t)))
           (dget (scores s) (opponent (Figure.player (fig s t))) + 1)).
Proof.
  unfold _deal_damage, bind, modify. cbv beta zeta.
  destruct (_ && _); [|by left].
  match goal with
  | |- context [unpack ?p] => destruct p as [[row col]|]
  end; cbn [unpack ret raise state_of]; [|by left].
  unfold board_setitem.
  destruct (py_index row); [|by left].
  destruct (py_index col); [|by left].
  cbn [figures set_board].
  destruct (list_remove_first t _) as [l|] eqn:Hl; [|by left].
  right.
  cbn [state_of dead_figures scores set_scores set_dead_figures set_figures
       set_board].
  by autorewrite with game.
Qed.

Lemma opponent_inj p q : opponent p = opponent q → p = q.
Proof. by destruct p, q. Qed.

Lemma scores_match_buried s s' q t :
  dead_figures s' = dset (dead_figures s) q (dget (dead_figures s) q ++ [t]) →
  scores s' = dset (scores s) (opponent q) (dget (scores s) (opponent q) + 1) →
  scores_match s → scores_match s'.
Proof.
  intros Hd Hs Hm p. rewrite Hd, Hs, !dget_dset.
  destruct (decide (q = p)) as [->|Hne].
  - rewrite decide_True by done. rewrite Hm, length_app. simpl. lia.
  - rewrite decide_False; [apply Hm|]. by intros ?%opponent_inj.
Qed.

Lemma _deal_damage_scores_match t d s :
  scores_match s → scores_match (state_of (_deal_damage t d s)).
Proof.
  intros Hm. destruct (_deal_damage_ledger t d s) as [[Hd Hs]|[Hd Hs]].
  - intros p. rewrite Hd, Hs. apply Hm.
  - by eapply scores_match_buried.
Qed.

Lemma start_zone_valid pl p :
  p ∈ get_start_zone pl → is_valid_position p = true.
Proof.
  intros H. destruct pl; cbv [get_start_zone] in H; simpl in H;
    repeat (apply elem_of_cons in H as [->|H]; [done|]);
    by apply elem_of_nil in H.
Qed.

Lemma resurrect_success mage d p s l :
  let q := Figure.player (fig s mage) in
  list_remove_first d (dget (dead_figures s) q) = Some l →
  is_valid_position p = true →
  ∃ s', resurrect mage d p s = Ok (true, "Vampiric Push successful") s'
    ∧ dead_figures s' = dset (dead_figures s) q l
    ∧ figures s' = figures s ++ [d]
    ∧ scores s'
      = dset (scores s) (opponent q) (dget (scores s) (opponent q) - 1)
    ∧ board s'
      = board_store (board s) (Z.to_nat (fst p)) (Z.to_nat (snd p)) (Some d)
    ∧ (∀ x, fig s' x
            = (if decide (x = mage) then Figure.set_has_acted true else id)
                ((if decide (x = d) then revive p else id) (fig s x)))
    ∧ same_turn s s' ∧ terrain s' = terrain s
    ∧ magic_bomb_used s' = magic_bomb_used s.
Proof.
  intros q Hl Hp. destruct p as [row col].
  destruct (py_index_valid _ _ Hp) as [Hr Hc].
  unfold resurrect, bind, modify, board_setitem, success, ret. cbv beta.
  fold q. rewrite Hl. cbn [fst snd]. rewrite Hr, Hc.
  eexists. split; [reflexivity|].
  simpl. autorewrite with game.
  match goal with
  | |- context [fig ?chain mage] =>
      assert (Hfig : ∀ x, fig chain x
                = (if decide (x = d) then revive (row, col) else id) (fig s x))
  end.
  { intros x. destruct (decide (x = d)) as [->|Hne].
    - by autorewrite with game.
    - rewrite !fig_update_figure_ne by done. by autorewrite with game. }
  assert (Hq : Figure.player
                 ((if decide (mage = d) then revive (row, col) else id)
                    (fig s mage)) = q).
  { by destruct (decide _). }
  rewrite Hfig, Hq.
  repeat split.
  intros x. rewrite fig_update_figure. autorewrite with game.
  rewrite !Hfig.
  destruct (decide (mage = x)) as [->|Hne].
  - by rewrite (decide_True (P := x = x)) by done.
  - by rewrite (decide_False (P := x = mage)) by done.
Qed.

Lemma _deal_damage_alive_after t d s s1 :
  _deal_damage t d s = Ok tt s1 →
  Figure.is_dead (fig s1 t) = false →
  s1 = update_figure t (λ f, Figure.set_life (Figure.life f - d) f) s
  ∧ Figure.is_dead (fig s t) = false
  ∧ Figure.life (fig s t) - d > 0.
Proof.
  unfold _deal_damage, bind, modify. cbv beta zeta.
  destruct (_ && _) eqn:Hc.
  - match goal with
    | |- context [unpack ?p] => destruct p as [[row col]|]
    end; cbn [unpack ret raise]; [|done].
    unfold board_setitem.
    destruct (py_index row); [|done]. destruct (py_index col); [|done].
    cbn [figures set_board].
    destruct (list_remove_first t _) as [l|]; [|done].
    intros [= <-]. simpl. by autorewrite with game.
  - intros [= <-]. revert Hc. autorewrite with game. simpl.
    intros Hc Hd. rewrite Hd in Hc. rewrite andb_true_r in Hc.
    apply bool_decide_eq_false in Hc. split; [done|]. split; [done|lia].
Qed.

Lemma vampiric_push_cases mage d p s :
  let r := black_mage_vampiric_push mage d p s in
  let q := Figure.player (fig s mage) in
  state_of r = s
  ∨ state_of r = state_of (_deal_damage mage 1 s)
  ∨ (Figure.type (fig s mage) = BLACK_MAGE
     ∧ Figure.has_acted (fig s mage) = false
     ∧ Figure.counter_containment_turns (fig s mage) ≤ 0
     ∧ d ∈ dget (dead_figures s) q
     ∧ p ∈ get_start_zone q
     ∧ get_figure_at s p = None
     ∧ Figure.is_dead (fig s mage) = false
     ∧ 1 < Figure.life (fig s mage)
     ∧ r = resurrect mage d p
             (update_figure mage
                (λ f, Figure.set_life (Figure.life f - 1) f) s)).
Proof.
  intros r q. unfold r, black_mage_vampiric_push. cbv beta zeta.
  destruct (negb (bool_decide (Figure.type _ = _))) eqn:Ht; [by left|].
  destruct (Figure.has_acted _) eqn:Ha; [by left|].
  destruct (bool_decide (_ > 0)) eqn:Hc; [by left|].
  destruct (negb (bool_decide (d ∈ _))) eqn:Hd; [by left|].
  destruct (negb (bool_decide (p ∈ _))) eqn:Hp; [by left|].
  destruct (get_figure_at s p) eqn:Hfree; [by left|].
  right. unfold bind at 1.
  destruct (_deal_damage mage 1 s) as [[] s1|e s1] eqn:Hdmg; [|by left].
  destruct (negb (Figure.is_dead (fig s1 mage))) eqn:Hdead; [|by left].
  right. pose proof Hdead as Hdead'. apply negb_true_iff in Hdead'.
  destruct (_deal_damage_alive_after _ _ _ _ Hdmg Hdead')
    as (Hs1 & Hal & Hlife).
  apply negb_false_iff, bool_decide_eq_true in Ht, Hd, Hp.
  apply bool_decide_eq_false in Hc.
  split_and!; try done; try lia.
  unfold bind. rewrite Hdmg. cbv beta. by rewrite Hdead, Hs1.
Qed.

Lemma scores_match_revived s s' q l d :
  list_remove_first d (dget (dead_figures s) q) = Some l →
  dead_figures s' = dset (dead_figures s) q l →
  scores s' = dset (scores s) (opponent q) (dget (scores s) (opponent q) - 1) →
  scores_match s → scores_match s'.
Proof.
  intros Hl Hd Hs Hm p. rewrite Hd, Hs, !dget_dset.
  apply remove_first_length in Hl.
  destruct (decide (q = p)) as [->|Hne].
  - rewrite decide_True by done. rewrite Hm, Hl. lia.
  - rewrite decide_False; [apply Hm|]. by intros ?%opponent_inj.
Qed.

Lemma vampiric_push_scores_match mage d p s :
  scores_match s →
  scores_match (state_of (black_mage_vampiric_push mage d p s)).
Proof.
  intros Hm.
  destruct (vampiric_push_cases mage d p s) as [->|[->|H]]; [done| |].
  - by apply _deal_damage_scores_match.
  - destruct H as (_ & _ & _ & Hd & Hp & _ & _ & _ & ->).
    set (s1 := update_figure mage _ s).
    assert (Hq : Figure.player (fig s1 mage) = Figure.player (fig s mage)).
    { unfold s1. by autorewrite with game. }
    destruct (list_remove_first_elem _ _ Hd) as [l Hl].
    destruct (resurrect_success mage d p s1 l) as (s' & -> & Hd' & _ & Hs' & _).
    { by rewrite Hq. }
    { by eapply start_zone_valid. }
    simpl. rewrite Hq in Hd', Hs'.
    by apply (scores_match_revived s1 s' (Figure.player (fig s mage)) l d).
Qed.

Ltac leaf_scores :=
  first [ assumption
        | by (unfold scores_match in *; simpl) ].

Ltac walk_scores :=
  walk ltac:(first [ by apply _deal_damage_scores_match
                   | apply state_of_bomb_loop;
                     [by intros; apply _deal_damage_scores_match|assumption]
                   | leaf_scores ]).

Lemma perform_scores_match a s :
  scores_match s → scores_match (state_of (perform a s)).
Proof.
  intros Hs. destruct a; simpl.
  - unfold place_figure. destruct p. walk_scores.
  - unfold move_figure. walk_scores.
  - unfold knight_charge. walk_scores.
  - unfold attack. walk_scores.
  - unfold arbalist_long_eye. walk_scores.
  - unfold black_mage_magic_bomb. walk_scores.
  - unfold black_mage_plague. walk_scores.
  - apply state_of_bind; [by apply vampiric_push_scores_match|]. by intros.
  - unfold white_mage_conjure. walk_scores.
  - unfold white_mage_heal. walk_scores.
  - unfold white_mage_counter_containment. walk_scores.
  - unfold end_turn, reset_flags, decay_containment, _check_win_conditions.
    walk_scores.
Qed.

(** X4.  The scoreboard and the dead pools never drift apart: if each
    player's score equals the number of figures in the opponent's dead pool,
    it still does after any sequence of calls.  A kill adds one to both, a
    resurrection takes one from both, and nothing else touches either. *)
Theorem score_counts_dead_pool acts s :
  scores_match s → scores_match (run acts s).
Proof.
  revert s. induction acts as [|a acts IH]; intros s Hs; [done|].
  simpl. by apply IH, perform_scores_match.
Qed.

Lemma score_counts_dead_pool_witness :
  scores_match full_setup ∧ scores_match (run skirmish full_setup).
Proof.
  assert (H : scores_match full_setup).
  { intros p. destruct p; vm_compute; reflexivity. }
  split; [exact H|].
  apply (score_counts_dead_pool skirmish full_setup). exact H.
Defined.

(** ** The verdict at the end of a turn *)

Lemma for_each_preserves {A} (P : GameState → Prop) (body : A → M unit) xs s :
  (∀ x s1, P s1 → ∃ s', body x s1 = Ok tt s' ∧ P s') →
  P s → ∃ s', for_each xs body s = Ok tt s' ∧ P s'.
Proof.
  intros Hbody. revert s. induction xs as [|x xs IH]; intros s Hs.
  - by exists s.
  - destruct (Hbody x s Hs) as (s1 & Hrun & Hs1).
    destruct (IH s1 Hs1) as (s2 & Hrun2 & Hs2).
    exists s2. split; [|done]. simpl. unfold bind. by rewrite Hrun.
Qed.

Lemma flags_only_player s s' r :
  flags_only s s' → Figure.player (fig s' r) = Figure.player (fig s r).
Proof. intros [_ H]. specialize (H r). by injection H. Qed.

Lemma flags_only_step s0 s r f :
  (∀ x, Figure.set_counter_containment_turns 0
          (Figure.set_has_acted false (Figure.set_has_moved false (f x)))
        = Figure.set_counter_containment_turns 0
            (Figure.set_has_acted false (Figure.set_has_moved false x))) →
  flags_only s0 s → flags_only s0 (update_figure r f s).
Proof.
  intros Hf [Hs Hfig]. split; [done|]. intros x.
  rewrite fig_update_figure. destruct (decide (r = x)) as [->|]; [|done].
  by rewrite Hf.
Qed.

Lemma end_turn_loops s :
  ∃ s2, flags_only s s2
    ∧ end_turn s
      = _check_win_conditions
          (set_turn_count (turn_count s + 1)
             (set_current_player (opponent (current_player s)) s2)).
Proof.
  destruct (for_each_preserves (flags_only s) reset_flags (figures s) s)
    as (s1 & Hrun1 & Hs1).
  { intros x s1 Hs1. unfold reset_flags. destruct (bool_decide _).
    - eexists. split; [reflexivity|].
      by do 2 (apply flags_only_step; [done|]).
    - by exists s1. }
  { split; [apply same_fields_refl|done]. }
  destruct (for_each_preserves (flags_only s) decay_containment (figures s1) s1)
    as (s2 & Hrun2 & Hs2).
  { intros x s2 Hs2. unfold decay_containment. destruct (bool_decide _).
    - eexists. split; [reflexivity|]. by apply flags_only_step.
    - by exists s2. }
  { done. }
  exists s2. split; [done|].
  unfold end_turn, bind. rewrite Hrun1, Hrun2. unfold modify. simpl.
  destruct Hs2 as [(_ & Hcp & _ & _ & _ & _ & _ & Htc & _) _].
  by rewrite Hcp, Htc.
Qed.

Lemma _check_win_conditions_verdict s :
  _check_win_conditions s
  = Ok tt match verdict s with
          | Some w => set_winner (Some w) (set_game_over true s)
          | None => s
          end.
Proof.
  unfold _check_win_conditions, verdict, alive_of.
  assert (Hge : ∀ x, bool_decide (x >= 4) = bool_decide (4 ≤ x)).
  { intros x. apply bool_decide_ext. lia. }
  rewrite !Hge.
  destruct (bool_decide (4 ≤ dget (scores s) ONE)); [done|].
  destruct (bool_decide (4 ≤ dget (scores s) TWO)); [done|].
  destruct (filter _ (figures s)) as [|x l]; [done|].
  rewrite bool_decide_eq_false_2 by done.
  destruct (filter _ (figures s)) as [|y l']; [done|].
  by rewrite bool_decide_eq_false_2.
Qed.

Lemma verdict_ext s s' :
  scores s' = scores s → figures s' = figures s →
  (∀ r, Figure.player (fig s' r) = Figure.player (fig s r)) →
  verdict s' = verdict s.
Proof.
  intros Hs Hf Hp. unfold verdict.
  by rewrite Hs, !(alive_of_players s s') by done.
Qed.

(** X5.  [end_turn] always returns, and what it decides can be read off
    the state it is called on: a player with four points wins, player one
    first when both have them; failing that, a player with no figure on the
    alive list loses, player one first when both lists are empty; otherwise
    the game-over flag and the winner stay as they were. *)
Theorem end_turn_verdict s :
  ∃ s', end_turn s = Ok tt s'
    ∧ match verdict s with
      | Some w => game_over s' = true ∧ winner s' = Some w
      | None => game_over s' = game_over s ∧ winner s' = winner s
      end.
Proof.
  destruct (end_turn_loops s) as (s2 & Hs2 & ->).
  rewrite _check_win_conditions_verdict.
  eexists. split; [reflexivity|].
  set (s_mid := set_turn_count _ _).
  assert (Hv : verdict s_mid = verdict s).
  { apply verdict_ext.
    - apply Hs2.
    - apply Hs2.
    - intros r. unfold s_mid. autorewrite with game.
      by apply flags_only_player. }
  rewrite Hv. destruct (verdict s); [done|].
  unfold s_mid. simpl. split; apply Hs2.
Qed.

Lemma still_over_frame s0 s1 s2 :
  game_over s2 = game_over s1 → winner s2 = winner s1 →
  still_over s0 s1 → still_over s0 s2.
Proof. intros Hg Hw [H1 H2]. split; [congruence|]. by rewrite Hw. Qed.

Ltac leaf_over :=
  first [ assumption
        | match goal with
          | H : still_over _ ?s1 |- still_over _ _ =>
              by apply (still_over_frame _ s1)
          end
        | by (split; [done|]; intros _; eexists) ].

Lemma _deal_damage_over s0 t d s :
  still_over s0 s → still_over s0 (state_of (_deal_damage t d s)).
Proof. intros Hs. unfold _deal_damage. walk leaf_over. Qed.

Ltac walk_over :=
  walk ltac:(first [ by apply _deal_damage_over
                   | apply state_of_bomb_loop;
                     [by intros; apply _deal_damage_over|assumption]
                   | leaf_over ]).

Lemma perform_over s0 a s :
  still_over s0 s → still_over s0 (state_of (perform a s)).
Proof.
  intros Hs. destruct a; simpl.
  - unfold place_figure. destruct p. walk_over.
  - unfold move_figure. walk_over.
  - unfold knight_charge. walk_over.
  - unfold attack. walk_over.
  - unfold arbalist_long_eye. walk_over.
  - unfold black_mage_magic_bomb. walk_over.
  - unfold black_mage_plague. walk_over.
  - unfold black_mage_vampiric_push, resurrect. walk_over.
  - unfold white_mage_conjure. walk_over.
  - unfold white_mage_heal. walk_over.
  - unfold white_mage_counter_containment. walk_over.
  - unfold end_turn, reset_flags, decay_containment, _check_win_conditions.
    walk_over.
Qed.

(** X6.  Nothing ever reopens a game: once the game-over flag is set it
    stays set over any sequence of calls, and a declared winner is never
    withdrawn (though the engine keeps accepting calls, and a later
    [end_turn] may name the other player). *)
Theorem game_over_is_permanent acts s :
  game_over s = true →
  game_over (run acts s) = true
  ∧ (is_Some (winner s) → is_Some (winner (run acts s))).
Proof.
  intros Hs.
  assert (H : ∀ s1, still_over s s1 → still_over s (run acts s1)).
  { induction acts as [|a acts IH]; intros s1 Hs1; [done|].
    simpl. by apply IH, perform_over. }
  by apply (H s).
Qed.

Lemma game_over_is_permanent_witness :
  game_over won_game = true
  ∧ game_over (run [MoveFigure 1%nat (1, 2); EndTurn] won_game) = true
  ∧ (is_Some (winner won_game) →
     is_Some (winner (run [MoveFigure 1%nat (1, 2); EndTurn] won_game))).
Proof.
  split; [reflexivity|].
  apply (game_over_is_permanent [MoveFigure 1%nat (1, 2); EndTurn] won_game).
  reflexivity.
Defined.

(** ** Spells and moves, when they succeed *)

Lemma _in_reach_Some a b reach s :
  _in_reach (Some a) (Some b) reach s
  = Ok (bool_decide (taxicab a b ≤ reach)) s.
Proof. by destruct a, b. Qed.

Lemma hit_dead d f :
  Figure.is_dead f = true → hit d f = Figure.set_life (Figure.life f - d) f.
Proof. intros H. unfold hit. simpl. by rewrite H, andb_false_r. Qed.

Lemma hit_survive d f :
  Figure.life f - d > 0 → hit d f = Figure.set_life (Figure.life f - d) f.
Proof.
  intros H. unfold hit. simpl. by rewrite bool_decide_eq_false_2 by lia.
Qed.

Lemma hit_alive d f :
  Figure.is_dead f = false →
  Figure.life (hit d f) = Z.max 0 (Figure.life f - d)
  ∧ Figure.is_dead (hit d f) = bool_decide (Figure.life f ≤ d).
Proof.
  intros H. unfold hit. simpl. rewrite H, andb_true_r.
  case_bool_decide as Hc; simpl.
  - split; [lia|]. by rewrite bool_decide_eq_true_2 by lia.
  - split; [lia|]. rewrite H. by rewrite bool_decide_eq_false_2 by lia.
Qed.

Lemma _deal_damage_hit t d s :
  damageable s t →
  ∃ s', _deal_damage t d s = Ok tt s'
    ∧ fig s' t = hit d (fig s t)
    ∧ ∀ x, x ≠ t → fig s' x = fig s x.
Proof.
  intros Hok. destruct (Figure.is_dead (fig s t)) eqn:Hdead.
  - eexists. split; [by apply _deal_damage_dead|].
    split.
    + by rewrite fig_update_figure_eq, hit_dead.
    + intros x Hx. by rewrite fig_update_figure_ne.
  - destruct Hok as (p & Hp & Hv & Hin); [done|].
    destruct (_deal_damage_sound t d s p Hdead Hp Hv Hin)
      as (s' & Hrun & Hfig & Hoth & _).
    by exists s'.
Qed.

(** ** Heal *)

(** X7.  Heal.  A White Mage that has not acted and is not contained
    heals any figure within taxicab reach of it: friend or foe, alive or
    dead, itself included.  The target's life becomes
    [min (life + 3) max_life], so it never goes above the maximum and never
    goes down when it was within it; nothing else about the target changes
    (a dead figure stays dead), the mage is marked as having acted, and no
    other figure is touched. *)
Theorem heal_effect mage target s mp tp :
  Figure.type (fig s mage) = WHITE_MAGE →
  Figure.has_acted (fig s mage) = false →
  Figure.counter_containment_turns (fig s mage) ≤ 0 →
  Figure.position (fig s mage) = Some mp →
  Figure.position (fig s target) = Some tp →
  taxicab mp tp ≤ Figure.reach (fig s mage) →
  let t := fig s target in
  let new_life := Z.min (Figure.life t + 3) (Figure.max_life t) in
  ∃ msg s',
    white_mage_heal mage target s = Ok (true, msg) s'
    ∧ s' = update_figure mage (Figure.set_has_acted true)
             (update_figure target (Figure.set_life new_life) s)
    ∧ Figure.life (fig s' target) = new_life
    ∧ Figure.is_dead (fig s' target) = Figure.is_dead t
    ∧ Figure.player (fig s' target) = Figure.player t
    ∧ Figure.has_acted (fig s' mage) = true
    ∧ (Figure.life t ≤ Figure.max_life t →
       Figure.life t ≤ new_life ≤ Figure.max_life t)
    ∧ (∀ x, x ≠ mage → x ≠ target → fig s' x = fig s x).
Proof.
  intros Hty Hact Hcc Hmp Htp Hreach t new_life.
  eexists _, _. split.
  { unfold white_mage_heal. cbv beta zeta.
    rewrite Hty, Hact, Hmp, Htp. simpl.
    rewrite bool_decide_eq_false_2 by lia.
    unfold bind. rewrite _in_reach_Some.
    rewrite bool_decide_eq_true_2 by done. simpl. reflexivity. }
  split; [done|].
  assert (Hfig : ∀ x, fig (update_figure mage (Figure.set_has_acted true)
                        (update_figure target (Figure.set_life new_life) s)) x
                 = (if decide (x = mage) then Figure.set_has_acted true else id)
                     ((if decide (x = target)
                       then Figure.set_life new_life else id) (fig s x))).
  { intros x.
    destruct (decide (x = mage)) as [->|Hm];
      [rewrite fig_update_figure_eq|rewrite fig_update_figure_ne by congruence];
      (destruct (decide (_ = target)) as [->|Ht];
       [rewrite fig_update_figure_eq|rewrite fig_update_figure_ne by congruence]);
      done. }
  rewrite !Hfig.
  rewrite (decide_True (P := target = target)),
    (decide_True (P := mage = mage)) by done.
  split_and!.
  - by destruct (decide (target = mage)).
  - by destruct (decide (target = mage)).
  - by destruct (decide (target = mage)).
  - by destruct (decide (mage = target)).
  - lia.
  - intros x Hx1 Hx2. rewrite Hfig. by rewrite !decide_False by done.
Qed.

(** ** Plague *)

(** X8.  Plague.  A Black Mage that has not acted and is not contained
    may spend [x] life, for any [1 <= x < life], on an enemy figure within
    taxicab reach: the mage loses exactly [x] and so always survives with
    at least one life left, the target takes one damage call of [x + 1] (an
    alive target ends at [max 0 (life - (x + 1))] and dies exactly when
    [life <= x + 1]), the mage is marked as having acted, and no other
    figure changes. *)
Theorem plague_effect mage target x s mp tp :
  Figure.type (fig s mage) = BLACK_MAGE →
  Figure.has_acted (fig s mage) = false →
  Figure.counter_containment_turns (fig s mage) ≤ 0 →
  1 ≤ x < Figure.life (fig s mage) →
  Figure.player (fig s target) ≠ Figure.player (fig s mage) →
  Figure.position (fig s mage) = Some mp →
  Figure.position (fig s target) = Some tp →
  taxicab mp tp ≤ Figure.reach (fig s mage) →
  damageable s target →
  ∃ msg s',
    black_mage_plague mage target x s = Ok (true, msg) s'
    ∧ fig s' mage
      = Figure.set_has_acted true
          (Figure.set_life (Figure.life (fig s mage) - x) (fig s mage))
    ∧ 1 ≤ Figure.life (fig s' mage)
    ∧ Figure.is_dead (fig s' mage) = Figure.is_dead (fig s mage)
    ∧ fig s' target = hit (x + 1) (fig s target)
    ∧ (Figure.is_dead (fig s target) = false →
       Figure.life (fig s' target)
       = Z.max 0 (Figure.life (fig s target) - (x + 1))
       ∧ Figure.is_dead (fig s' target)
         = bool_decide (Figure.life (fig s target) ≤ x + 1))
    ∧ (∀ r, r ≠ mage → r ≠ target → fig s' r = fig s r).
Proof.
  intros Hty Hact Hcc Hx Hpl Hmp Htp Hreach Hok.
  assert (Hne : target ≠ mage) by (intros ->; done).
  set (s1 := update_figure mage
               (λ f, Figure.set_life (Figure.life f - x) f) s).
  assert (Hrun1 : _deal_damage mage x s = Ok tt s1).
  { apply _deal_damage_survive. lia. }
  assert (Hfig1 : fig s1 target = fig s target).
  { unfold s1. by rewrite fig_update_figure_ne. }
  destruct (_deal_damage_hit target (x + 1) s1) as (s2 & Hrun2 & Hfig2 & Hoth2).
  { unfold damageable. by rewrite Hfig1. }
  eexists _, _. split.
  { unfold black_mage_plague. cbv beta zeta.
    rewrite Hty, Hact, Hmp, Htp. simpl.
    rewrite (bool_decide_eq_false_2 (_ > 0)) by lia.
    rewrite (bool_decide_eq_false_2 (x < 1)) by lia.
    rewrite (bool_decide_eq_false_2 (x >= _)) by lia.
    rewrite (bool_decide_eq_false_2 (_ = _)) by done. simpl.
    unfold bind. rewrite _in_reach_Some.
    rewrite bool_decide_eq_true_2 by done. simpl.
    rewrite Hrun1, Hrun2. reflexivity. }
  assert (Hm : fig s2 mage
               = Figure.set_life (Figure.life (fig s mage) - x) (fig s mage)).
  { rewrite Hoth2 by done. unfold s1. by rewrite fig_update_figure_eq. }
  split_and!.
  - by rewrite fig_update_figure_eq, Hm.
  - rewrite fig_update_figure_eq, Hm. simpl. lia.
  - by rewrite fig_update_figure_eq, Hm.
  - rewrite fig_update_figure_ne by done. by rewrite Hfig2, Hfig1.
  - intros Halive. rewrite fig_update_figure_ne by done.
    rewrite Hfig2, Hfig1. by apply hit_alive.
  - intros r Hr1 Hr2. rewrite fig_update_figure_ne by done.
    rewrite Hoth2 by done. unfold s1. by rewrite fig_update_figure_ne.
Qed.

(** ** Vampiric Push *)

(** X9.  Vampiric Push, when it succeeds.  An alive Black Mage with more
    than one life, fresh and not contained, brings back a figure of its own
    player's dead pool on a free cell of that player's start zone.  The
    figure returns with exactly 2 life whatever its maximum, not dead, flags
    and containment counter cleared, standing on the chosen cell; it leaves
    the pool (first occurrence) and joins the end of the alive list; the
    opponent's score goes down by one; the mage pays one life and is marked
    as having acted; no other figure or cell changes. *)
Theorem vampiric_push_effect mage d p s :
  let q := Figure.player (fig s mage) in
  Figure.type (fig s mage) = BLACK_MAGE →
  Figure.has_acted (fig s mage) = false →
  Figure.counter_containment_turns (fig s mage) ≤ 0 →
  d ∈ dget (dead_figures s) q →
  p ∈ get_start_zone q →
  get_figure_at s p = None →
  Figure.is_dead (fig s mage) = false →
  1 < Figure.life (fig s mage) →
  d ≠ mage →
  board_shape s →
  ∃ s' l,
    black_mage_vampiric_push mage d p s
    = Ok (true, "Vampiric Push successful") s'
    ∧ fig s' d = revive p (fig s d)
    ∧ fig s' mage
      = Figure.set_has_acted true
          (Figure.set_life (Figure.life (fig s mage) - 1) (fig s mage))
    ∧ (∀ x, x ≠ mage → x ≠ d → fig s' x = fig s x)
    ∧ get_figure_at s' p = Some d
    ∧ (∀ c, c ≠ p → get_figure_at s' c = get_figure_at s c)
    ∧ figures s' = figures s ++ [d]
    ∧ list_remove_first d (dget (dead_figures s) q) = Some l
    ∧ dead_figures s' = dset (dead_figures s) q l
    ∧ scores s'
      = dset (scores s) (opponent q) (dget (scores s) (opponent q) - 1).
Proof.
  intros q Hty Hact Hcc Hd Hp Hfree Halive Hlife Hne [Hlen Hrows].
  set (s1 := update_figure mage
               (λ f, Figure.set_life (Figure.life f - 1) f) s).
  assert (Hrun1 : _deal_damage mage 1 s = Ok tt s1).
  { apply _deal_damage_survive. lia. }
  assert (Hq : Figure.player (fig s1 mage) = q).
  { unfold s1. by rewrite fig_update_figure_eq. }
  destruct (list_remove_first_elem _ _ Hd) as [l Hl].
  pose proof (start_zone_valid _ _ Hp) as Hvalid.
  destruct (resurrect_success mage d p s1 l)
    as (s' & Hrun & Hdead & Hfigs & Hsc & Hb & Hfig & _); [by rewrite Hq|done|].
  rewrite Hq in Hdead, Hsc.
  exists s', l. split.
  { unfold black_mage_vampiric_push. cbv beta zeta. fold q.
    rewrite Hty, Hact, Hfree. simpl.
    rewrite (bool_decide_eq_false_2 (_ > 0)) by lia.
    rewrite (bool_decide_eq_true_2 (d ∈ _)) by done.
    rewrite (bool_decide_eq_true_2 (p ∈ _)) by done. simpl.
    unfold bind. rewrite Hrun1.
    replace (Figure.is_dead (fig s1 mage)) with false; [done|].
    unfold s1. by rewrite fig_update_figure_eq. }
  assert (Hget : ∀ c, get_figure_at s' c
            = get_figure_at
                (set_board (board_store (board s) (Z.to_nat (fst p))
                              (Z.to_nat (snd p)) (Some d)) s) c).
  { intros c. unfold get_figure_at. simpl. by rewrite Hb. }
  split_and!; try done.
  - rewrite Hfig, decide_False, decide_True by done.
    unfold s1. by rewrite fig_update_figure_ne.
  - rewrite Hfig, decide_True, decide_False by done.
    unfold s1. by rewrite fig_update_figure_eq.
  - intros x Hx1 Hx2. rewrite Hfig, !decide_False by done.
    unfold s1. by rewrite fig_update_figure_ne.
  - rewrite Hget. destruct p as [row col]. by apply get_figure_at_store_eq.
  - intros c Hc. rewrite Hget. destruct p as [row col].
    by apply get_figure_at_store_ne.
Qed.

(** ** Placement *)

Lemma start_zone_rows pl p :
  p ∈ get_start_zone pl ↔
  (if pl is ONE then 0 ≤ fst p < 2 else 6 ≤ fst p < 8) ∧ 0 ≤ snd p < 8.
Proof.
  destruct p as [row col]. split.
  - intros H. destruct pl; cbv [get_start_zone] in H; simpl in H;
      repeat (apply elem_of_cons in H as [[= -> ->]|H]; [simpl; lia|]);
      by apply elem_of_nil in H.
  - simpl. intros [Hr Hc]. unfold get_start_zone.
    destruct pl; apply list_elem_of_bind; exists row;
      (split; [|apply elem_of_seqZ; lia]);
      apply list_elem_of_bind; exists col;
      (split; [apply list_elem_of_singleton; done|apply elem_of_seqZ; lia]).
Qed.

(** X10.  Placement succeeds exactly when the cell lies in the start zone
    of the figure's owner (rows 0-1 for player one, rows 6-7 for player two)
    and is empty; the figure is then written to the cell, given the cell as
    its position and appended to the alive list, and nothing else changes.
    In particular no figure is ever placed outside its owner's start zone,
    and negative indices, which Python would wrap, are refused. *)
Theorem place_figure_effect f p s s' :
  place_figure f p s = Ok true s' ↔
  p ∈ get_start_zone (Figure.player (fig s f))
  ∧ get_figure_at s p = None
  ∧ s' = placed f p s.
Proof.
  destruct p as [row col]. unfold place_figure, bind, board_getitem.
  split.
  - destruct (py_index row) as [r|] eqn:Hr; [|done].
    destruct (py_index col) as [c|] eqn:Hc; [|done].
    destruct (board_lookup (board s) r c) eqn:Hslot; [done|].
    case_bool_decide as Hzone; simpl; [|done].
    pose proof (start_zone_valid _ _ Hzone) as Hv.
    destruct (py_index_valid _ _ Hv) as [Hr' Hc'].
    unfold board_setitem, modify, ret. rewrite Hr, Hc. intros [= <-].
    assert (r = Z.to_nat row) as -> by congruence.
    assert (c = Z.to_nat col) as -> by congruence.
    split; [done|]. split; [|done].
    unfold get_figure_at. by rewrite Hv.
  - intros (Hzone & Hfree & ->).
    pose proof (start_zone_valid _ _ Hzone) as Hv.
    destruct (py_index_valid _ _ Hv) as [Hr Hc].
    rewrite Hr, Hc. unfold get_figure_at in Hfree. rewrite Hv in Hfree.
    simpl in Hfree. rewrite Hfree.
    rewrite bool_decide_eq_true_2 by done. simpl.
    unfold board_setitem, modify, ret. by rewrite Hr, Hc.
Qed.

Lemma get_figure_at_ext s1 s2 p :
  board s1 = board s2 → get_figure_at s1 p = get_figure_at s2 p.
Proof. intros H. unfold get_figure_at. by rewrite H. Qed.

Lemma passable_check s c :
  negb (bool_decide (is_Some (get_figure_at s c))) && negb (is_terrain s c)
  = true ↔ passable s c.
Proof.
  unfold passable. destruct (get_figure_at s c), (is_terrain s c); simpl;
    split; try done; by intros [? ?].
Qed.

Lemma path_scan_passable s a b steps n :
  forallb (λ i, negb (bool_decide
                        (is_Some (get_figure_at s (path_cell a b steps i))))
                && negb (is_terrain s (path_cell a b steps i)))
    (seqZ 1 n) = true ↔
  Forall (passable s) ((λ i, path_cell a b steps i) <$> seqZ 1 n).
Proof.
  rewrite Forall_fmap. induction (seqZ 1 n) as [|i l IH]; simpl.
  - split; [by constructor|done].
  - by rewrite andb_true_iff, Forall_cons, IH, passable_check.
Qed.

Lemma _is_path_clear_between s a b diagonal :
  _is_path_clear s a b diagonal true = true ↔
  (diagonal = false → fst a = fst b ∨ snd a = snd b)
  ∧ Forall (passable s) (cells_strictly_between a b).
Proof.
  destruct a as [fr fc], b as [tr tc].
  unfold _is_path_clear, cells_strictly_between. cbn [fst snd].
  set (steps := Z.max _ _).
  assert (Hzero : steps = 0 →
            Forall (passable s)
              ((λ i, path_cell (fr, fc) (tr, tc) steps i) <$> seqZ 1 (steps - 1))).
  { intros ->. by apply Forall_nil. }
  destruct diagonal; cbn [negb andb]; cbv zeta.
  - destruct (bool_decide (steps = 0)) eqn:Hz.
    + apply bool_decide_eq_true in Hz.
      split; [|done]. intros _. split; [done|]. exact (Hzero Hz).
    + rewrite Z.add_0_r, path_scan_passable.
      split; [intros H; split; [done|exact H]|by intros [_ H]].
  - destruct (bool_decide (fr ≠ tr) && bool_decide (fc ≠ tc)) eqn:Hal.
    + cbv iota. split; [intros [=]|]. intros [H _]. exfalso.
      apply andb_true_iff in Hal
        as [H1%bool_decide_eq_true H2%bool_decide_eq_true].
      destruct H; done.
    + assert (Haligned : fr = tr ∨ fc = tc).
      { apply andb_false_iff in Hal
          as [H%bool_decide_eq_false|H%bool_decide_eq_false].
        - left. by destruct (decide (fr = tr)).
        - right. by destruct (decide (fc = tc)). }
      cbv iota. destruct (bool_decide (steps = 0)) eqn:Hz.
      * apply bool_decide_eq_true in Hz.
        split; [|done]. intros _. split; [done|]. exact (Hzero Hz).
      * rewrite Z.add_0_r, path_scan_passable.
        split; [intros H; split; [done|exact H]|by intros [_ H]].
Qed.

(** ** Moving on the board *)

(** X11.  A move to a cell of the board.  A figure standing on the board
    that has neither moved nor acted and is not contained moves to any cell
    on the board that is free, not terrain and within its move distance
    (king-move metric for the Arbalist, taxicab otherwise), provided every
    cell strictly between is free and not terrain, and, unless it is the
    Arbalist, the two cells share a row or a column.  The figure then
    stands on the new cell and the old one is empty, it is marked as having
    moved (but not acted), no other cell or figure changes, alive list,
    pools and scores are as before, and the board stays consistent. *)
Theorem move_figure_effect f old new_pos s :
  board_sound s →
  get_figure_at s old = Some f →
  is_valid_position new_pos = true →
  Figure.has_acted (fig s f) = false →
  Figure.has_moved (fig s f) = false →
  Figure.counter_containment_turns (fig s f) ≤ 0 →
  passable s new_pos →
  distance_for (Figure.type (fig s f)) old new_pos ≤ Figure.move (fig s f) →
  (Figure.type (fig s f) ≠ ARBALIST →
   fst old = fst new_pos ∨ snd old = snd new_pos) →
  Forall (passable s) (cells_strictly_between old new_pos) →
  ∃ s',
    move_figure f new_pos s = Ok (true, "Move successful") s'
    ∧ fig s' f
      = Figure.set_has_moved true
          (Figure.set_position (Some new_pos) (fig s f))
    ∧ (∀ x, x ≠ f → fig s' x = fig s x)
    ∧ get_figure_at s' new_pos = Some f
    ∧ get_figure_at s' old = None
    ∧ (∀ c, c ≠ old → c ≠ new_pos → get_figure_at s' c = get_figure_at s c)
    ∧ figures s' = figures s
    ∧ dead_figures s' = dead_figures s
    ∧ scores s' = scores s
    ∧ board_sound s'.
Proof.
  intros Hsound Hat Hvnew Hact Hmov Hcc [Hfree Hterr] Hdist Hline Hpath.
  destruct Hsound as (Hlen & Hrows & Hslots).
  destruct (Hslots old f Hat) as (Hpos & Halive & Hin).
  pose proof (get_figure_at_Some_valid _ _ _ Hat) as Hvold.
  destruct old as [old_row old_col], new_pos as [new_row new_col].
  destruct (py_index_valid _ _ Hvold) as [Hr0 Hc0].
  destruct (py_index_valid _ _ Hvnew) as [Hr1 Hc1].
  assert (Hne : (old_row, old_col) ≠ (new_row, new_col)).
  { intros Heq. rewrite Heq in Hat. congruence. }
  assert (Hclear : _is_path_clear s (old_row, old_col) (new_row, new_col)
                     (bool_decide (Figure.type (fig s f) = ARBALIST)) true
                   = true).
  { apply _is_path_clear_between. split; [|done].
    intros Hd%bool_decide_eq_false. by apply Hline. }
  set (b1 := board_store (board s) (Z.to_nat old_row) (Z.to_nat old_col) None).
  set (b2 := board_store b1 (Z.to_nat new_row) (Z.to_nat new_col) (Some f)).
  set (s' := update_figure f (Figure.set_has_moved true)
               (update_figure f (Figure.set_position (Some (new_row, new_col)))
                  (set_board b2 s))).
  destruct (board_store_shape (board s) (Z.to_nat old_row) (Z.to_nat old_col)
              None Hlen Hrows) as [Hlen1 Hrows1].
  assert (Hget : ∀ c, get_figure_at s' c
            = if decide (c = (new_row, new_col)) then Some f
              else if decide (c = (old_row, old_col)) then None
              else get_figure_at s c).
  { intros c. unfold s'. rewrite !get_figure_at_update_figure.
    rewrite (get_figure_at_ext _ (set_board (board_store (board (set_board b1 s))
               (Z.to_nat new_row) (Z.to_nat new_col) (Some f)) (set_board b1 s)))
      by done.
    destruct (decide (c = (new_row, new_col))) as [->|Hcn].
    { by apply get_figure_at_store_eq. }
    rewrite get_figure_at_store_ne by done.
    destruct (decide (c = (old_row, old_col))) as [->|Hco].
    { by apply get_figure_at_store_eq. }
    by apply get_figure_at_store_ne. }
  exists s'. split.
  { unfold move_figure. cbv beta zeta.
    rewrite Hact, Hmov, Hterr, Hfree, Hpos. cbn [orb].
    rewrite (bool_decide_eq_false_2 (_ > 0)) by lia.
    unfold bind, unpack, ret. cbv beta iota.
    rewrite (bool_decide_eq_false_2 (distance_for _ _ _ > _)) by lia.
    rewrite Hclear. cbn [negb].
    unfold board_setitem. rewrite Hr0, Hc0. simpl. rewrite Hr1, Hc1. done. }
  assert (Hf : fig s' f = Figure.set_has_moved true
                 (Figure.set_position (Some (new_row, new_col)) (fig s f))).
  { unfold s'. by autorewrite with game. }
  assert (Hoth : ∀ x, x ≠ f → fig s' x = fig s x).
  { intros x Hx. unfold s'. by rewrite !fig_update_figure_ne. }
  split_and!; try done.
  - by rewrite Hget, decide_True.
  - by rewrite Hget, decide_False, decide_True.
  - intros c Hco Hcn. by rewrite Hget, !decide_False.
  - split; [by apply board_store_shape|].
    split; [by apply (board_store_shape b1 _ _ _ Hlen1 Hrows1)|].
    intros p u. rewrite Hget.
    destruct (decide (p = _)) as [->|Hp1].
    { intros [= <-]. rewrite Hf. by split_and!. }
    destruct (decide (p = _)) as [->|Hp0]; [done|].
    intros Hu. destruct (Hslots p u Hu) as (Hup & Hud & Hui).
    assert (u ≠ f) by (intros ->; congruence).
    by rewrite Hoth.
Qed.

(** Sample runs of the spells and of the move. *)

Lemma heal_effect_witness :
  ∃ msg s',
    white_mage_heal 1%nat 2%nat conjure_game = Ok (true, msg) s'
    ∧ Figure.player (fig conjure_game 2%nat) = TWO
    ∧ Figure.life (fig conjure_game 2%nat) = 2
    ∧ Figure.life (fig s' 2%nat) = 5.
Proof.
  destruct (heal_effect 1%nat 2%nat conjure_game (1, 1) (2, 1))
    as (msg & s' & Hrun & _ & Hlife & _);
    [reflexivity | reflexivity | vm_compute; discriminate | reflexivity
    | reflexivity | vm_compute; discriminate |].
  exists msg, s'. split; [exact Hrun|].
  split; [reflexivity|]. split; [reflexivity|].
  rewrite Hlife. reflexivity.
Defined.

Lemma plague_effect_witness :
  ∃ msg s',
    black_mage_plague 3%nat 2%nat 4 standoff = Ok (true, msg) s'
    ∧ Figure.life (fig s' 3%nat) = 3
    ∧ Figure.life (fig s' 2%nat) = 2.
Proof.
  destruct (plague_effect 3%nat 2%nat 4 standoff (1, 2) (2, 1))
    as (msg & s' & Hrun & Hm & _ & _ & Ht & _);
    [reflexivity | reflexivity | vm_compute; discriminate
    | split; [vm_compute; discriminate|reflexivity]
    | vm_compute; discriminate | reflexivity | reflexivity
    | vm_compute; discriminate | |].
  { intros _. exists (2, 1). split; [reflexivity|]. split; [reflexivity|].
    refine (bool_decide_unpack _ _). vm_compute. exact I. }
  exists msg, s'. split; [exact Hrun|].
  rewrite Hm, Ht. split; reflexivity.
Defined.

Lemma board_shape_decide s :
  length (board s) = 8%nat →
  forallb (λ row, bool_decide (length row = 8%nat)) (board s) = true →
  board_shape s.
Proof.
  intros Hlen Hrows. split; [done|]. intros row Hrow.
  rewrite forallb_forall in Hrows.
  apply list_elem_of_In, Hrows in Hrow. by apply bool_decide_eq_true in Hrow.
Qed.

Lemma vampiric_push_effect_witness :
  ∃ s' l,
    black_mage_vampiric_push 1%nat 2%nat (1, 3) fallen_game
    = Ok (true, "Vampiric Push successful") s'
    ∧ Figure.life (fig s' 2%nat) = 2
    ∧ Figure.is_dead (fig s' 2%nat) = false
    ∧ get_figure_at s' (1, 3) = Some 2%nat
    ∧ Figure.life (fig s' 1%nat) = 6
    ∧ dget (dead_figures s') ONE = l ∧ l = []
    ∧ dget (scores fallen_game) TWO = 1
    ∧ dget (scores s') TWO = 0.
Proof.
  destruct (vampiric_push_effect 1%nat 2%nat (1, 3) fallen_game)
    as (s' & l & Hrun & Hd & Hm & _ & Hat & _ & _ & Hl & Hpool & Hsc);
    [reflexivity | reflexivity | vm_compute; discriminate
    | refine (bool_decide_unpack _ _); vm_compute; exact I
    | refine (bool_decide_unpack _ _); vm_compute; exact I
    | reflexivity | reflexivity | reflexivity | discriminate
    | by apply board_shape_decide |].
  exists s', l. split; [exact Hrun|].
  assert (Hnil : l = []).
  { vm_compute in Hl. injection Hl as <-. reflexivity. }
  rewrite Hd, Hm, Hpool, Hsc. subst l. repeat split; try reflexivity.
  exact Hat.
Defined.

Lemma move_figure_effect_witness :
  ∃ s',
    move_figure 1%nat (2, 0) corner_game = Ok (true, "Move successful") s'
    ∧ get_figure_at s' (2, 0) = Some 1%nat
    ∧ get_figure_at s' (0, 0) = None
    ∧ Figure.has_moved (fig s' 1%nat) = true
    ∧ Figure.has_acted (fig s' 1%nat) = false
    ∧ board_sound s'.
Proof.
  assert (Hsound : board_sound corner_game).
  { apply slots_sound_correct; [reflexivity| |reflexivity].
    refine (bool_decide_unpack _ _). vm_compute. exact I. }
  destruct (move_figure_effect 1%nat (0, 0) (2, 0) corner_game Hsound)
    as (s' & Hrun & Hf & _ & Hnew & Hold & _ & _ & _ & _ & Hs');
    [reflexivity | reflexivity | reflexivity | reflexivity
    | vm_compute; discriminate | split; reflexivity
    | vm_compute; discriminate | intros _; by right | |].
  { refine (bool_decide_unpack _ _). vm_compute. exact I. }
  exists s'. split; [exact Hrun|]. split; [exact Hnew|]. split; [exact Hold|].
  rewrite Hf. split; [reflexivity|]. split; [reflexivity|exact Hs'].
Defined.

(** ** Long Eye *)

Lemma first_figure_off_board s cells :
  Forall (λ p, is_valid_position p = false) cells →
  first_figure s cells = None.
Proof.
  induction 1 as [|p rest Hp _ IH]; [done|]. simpl.
  unfold get_figure_at. by rewrite Hp.
Qed.

Lemma first_figure_elem s cells u :
  first_figure s cells = Some u → ∃ p, p ∈ cells ∧ get_figure_at s p = Some u.
Proof.
  induction cells as [|p rest IH]; [done|]. simpl.
  destruct (get_figure_at s p) as [v|] eqn:Hp.
  - intros [= ->]. exists p. split; [apply list_elem_of_here|done].
  - intros (q & Hq & Hu)%IH. exists q. split; [|done].
    by apply list_elem_of_further.
Qed.

Lemma long_eye_vector_cases direction dr dc :
  long_eye_vector direction = Some (dr, dc) →
  (-1 ≤ dr ≤ 1) ∧ (-1 ≤ dc ≤ 1) ∧ (dr ≠ 0 ∨ dc ≠ 0).
Proof.
  unfold long_eye_vector. repeat case_decide; intros [= <- <-]; lia.
Qed.

Lemma long_eye_scan_first s arbalist row col dr dc (n : nat) k :
  is_valid_position (row, col) = true →
  -1 ≤ dr ≤ 1 → -1 ≤ dc ≤ 1 → 1 ≤ k →
  long_eye_scan s arbalist row col dr dc (seqZ k (Z.of_nat n))
  = match first_figure s ((λ i, (row + i * dr, col + i * dc)) <$> seqZ k (Z.of_nat n)) with
    | Some target =>
        if decide (Figure.player (fig s target)
                   ≠ Figure.player (fig s arbalist))
        then Some target else None
    | None => None
    end.
Proof.
  intros Hv Hdr Hdc. revert k. induction n as [|n IH]; intros k Hk.
  { done. }
  rewrite seqZ_cons by lia.
  replace (Z.pred (Z.of_nat (S n))) with (Z.of_nat n) by lia.
  rewrite fmap_cons. cbn [long_eye_scan first_figure]. cbv zeta.
  destruct (is_valid_position (row + k * dr, col + k * dc)) eqn:Hcell;
    cbn [negb].
  - destruct (get_figure_at s _); [done|]. apply IH. lia.
  - unfold get_figure_at at 1. rewrite Hcell. cbn [negb].
    rewrite first_figure_off_board; [done|].
    apply Forall_fmap, Forall_forall. intros j [Hj _]%elem_of_seqZ. simpl.
    unfold is_valid_position in *.
    apply andb_true_iff in Hv as [?%bool_decide_eq_true ?%bool_decide_eq_true].
    apply andb_false_iff in Hcell
      as [Hc%bool_decide_eq_false|Hc%bool_decide_eq_false].
    + rewrite (bool_decide_eq_false_2 (0 ≤ row + j * dr < 8)); [done|]. nia.
    + rewrite (bool_decide_eq_false_2 (0 ≤ col + j * dc < 8)).
      * apply andb_false_r.
      * nia.
Qed.

Lemma board_sound_damageable s p u :
  board_sound s → get_figure_at s p = Some u → damageable s u.
Proof.
  intros (_ & _ & Hslots) Hu _. destruct (Hslots p u Hu) as (Hp & _ & Hin).
  exists p. split; [done|]. split; [|done].
  by eapply get_figure_at_Some_valid.
Qed.

(** X12.  Long Eye.  An Arbalist on the board that has not acted and is
    not contained (whether or not it has moved) looks along one of the eight
    directions, up to seven cells and as far as the board goes; terrain does
    not block the view and the Arbalist's reach plays no role.  The first
    figure in that line decides: an enemy takes one damage call of 1 and the
    Arbalist is marked as having acted, nothing else changing; a friendly
    figure, or an empty line, makes the call fail and leaves the game as it
    was. *)
Theorem long_eye_effect arbalist direction s row col dr dc :
  board_sound s →
  Figure.type (fig s arbalist) = ARBALIST →
  Figure.has_acted (fig s arbalist) = false →
  Figure.counter_containment_turns (fig s arbalist) ≤ 0 →
  Figure.position (fig s arbalist) = Some (row, col) →
  is_valid_position (row, col) = true →
  long_eye_vector direction = Some (dr, dc) →
  match first_figure s (line_of_fire row col dr dc) with
  | Some target =>
      if decide (Figure.player (fig s target)
                 = Figure.player (fig s arbalist))
      then arbalist_long_eye arbalist direction s
           = Ok (false, "No target in line") s
      else ∃ s', arbalist_long_eye arbalist direction s
                 = Ok (true, "Long Eye hit target") s'
             ∧ fig s' target = hit 1 (fig s target)
             ∧ fig s' arbalist
               = Figure.set_has_acted true (fig s arbalist)
             ∧ ∀ x, x ≠ target → x ≠ arbalist → fig s' x = fig s x
  | None => arbalist_long_eye arbalist direction s
            = Ok (false, "No target in line") s
  end.
Proof.
  intros Hsound Hty Hact Hcc Hpos Hv Hdir.
  destruct (long_eye_vector_cases _ _ _ Hdir) as (Hdr & Hdc & _).
  assert (Hscan := long_eye_scan_first s arbalist row col dr dc 7 1
                     Hv Hdr Hdc ltac:(lia)).
  change (Z.of_nat 7) with 7 in Hscan. fold (line_of_fire row col dr dc) in Hscan.
  assert (Hunfold : arbalist_long_eye arbalist direction s
            = match long_eye_scan s arbalist row col dr dc (seqZ 1 7) with
              | Some target =>
                  (_deal_damage target 1 >>
                   modify (update_figure arbalist (Figure.set_has_acted true)) >>
                   success "Long Eye hit target") s
              | None => failure "No target in line" s
              end).
  { unfold arbalist_long_eye. cbv beta zeta.
    rewrite Hty, Hact, Hpos, Hdir. cbn [negb].
    rewrite (bool_decide_eq_true_2 (ARBALIST = ARBALIST)) by done. cbn [negb].
    rewrite (bool_decide_eq_false_2 (_ > 0)) by lia.
    unfold bind at 1. cbn [unpack ret].
    by destruct (long_eye_scan _ _ _ _ _ _ _). }
  rewrite Hunfold, Hscan.
  destruct (first_figure s (line_of_fire row col dr dc)) as [target|] eqn:Hfirst;
    [|done].
  destruct (decide (Figure.player (fig s target) = _)) as [Heq|Hne].
  { by rewrite decide_False by (by intros ?). }
  rewrite decide_True by done.
  destruct (first_figure_elem _ _ _ Hfirst) as (p & _ & Hat).
  destruct (_deal_damage_hit target 1 s) as (s1 & Hrun & Hfig & Hoth).
  { by eapply board_sound_damageable. }
  assert (Hta : target ≠ arbalist) by (intros ->; done).
  eexists. split.
  { unfold bind. rewrite Hrun. reflexivity. }
  split_and!.
  - by rewrite fig_update_figure_ne.
  - rewrite fig_update_figure_eq. by rewrite Hoth.
  - intros x Hx1 Hx2. rewrite fig_update_figure_ne by done. by apply Hoth.
Qed.

(** ** Counter Containment *)

Lemma end_turn_figures s :
  NoDup (figures s) →
  ∃ s', end_turn s = Ok tt s'
    ∧ figures s' = figures s
    ∧ ∀ r, fig s' r = if decide (r ∈ figures s)
                      then decay_of (reset_of (current_player s) (fig s r))
                      else fig s r.
Proof.
  intros Hnd. unfold end_turn.
  destruct (for_each_pointwise reset_flags (reset_of (current_player s)) s
              (reset_flags_spec s) (figures s) s Hnd (same_fields_refl s))
    as (s1 & Hrun1 & Hs1 & Hfig1).
  assert (Hf1 : figures s1 = figures s) by apply Hs1.
  destruct (for_each_pointwise decay_containment decay_of s
              (decay_containment_spec s) (figures s1) s1
              ltac:(by rewrite Hf1) Hs1)
    as (s2 & Hrun2 & Hs2 & Hfig2).
  assert (Hf2 : figures s2 = figures s) by apply Hs2.
  set (s_mid := set_turn_count (turn_count s2 + 1)
                  (set_current_player (opponent (current_player s2)) s2)).
  destruct (_check_win_conditions_cases s_mid) as (s' & Hrun3 & Hcases).
  exists s'. split.
  { unfold bind. rewrite Hrun1. simpl. rewrite Hrun2. simpl. done. }
  split.
  { destruct Hcases as [->|(w & -> & _)]; done. }
  intros r.
  assert (Hfig : fig s' r = fig s2 r).
  { destruct Hcases as [->|(w & -> & _)]; done. }
  rewrite Hfig, Hfig2, Hf1, Hfig1. by destruct (decide (r ∈ figures s)).
Qed.

(** X13.  Counter Containment and how long it lasts.  A White Mage that
    has not acted and is not contained sets the counter of an enemy figure
    within taxicab reach to 2 and is marked as having acted; no other figure
    changes.  If the target is on the alive list, the next [end_turn] brings
    its counter to 1, so it is still contained during the following turn,
    and the [end_turn] after that brings it to 0: the containment covers
    exactly the rest of the caster's turn and the one turn after it. *)
Theorem containment_wears_off mage target s mp tp :
  Figure.type (fig s mage) = WHITE_MAGE →
  Figure.has_acted (fig s mage) = false →
  Figure.counter_containment_turns (fig s mage) ≤ 0 →
  Figure.player (fig s target) ≠ Figure.player (fig s mage) →
  Figure.position (fig s mage) = Some mp →
  Figure.position (fig s target) = Some tp →
  taxicab mp tp ≤ Figure.reach (fig s mage) →
  NoDup (figures s) → target ∈ figures s →
  ∃ msg s1 s2 s3,
    white_mage_counter_containment mage target s = Ok (true, msg) s1
    ∧ fig s1 target = Figure.set_counter_containment_turns 2 (fig s target)
    ∧ fig s1 mage = Figure.set_has_acted true (fig s mage)
    ∧ (∀ x, x ≠ mage → x ≠ target → fig s1 x = fig s x)
    ∧ end_turn s1 = Ok tt s2
    ∧ Figure.counter_containment_turns (fig s2 target) = 1
    ∧ end_turn s2 = Ok tt s3
    ∧ Figure.counter_containment_turns (fig s3 target) = 0.
Proof.
  intros Hty Hact Hcc Hpl Hmp Htp Hreach Hnd Hin.
  assert (Hne : target ≠ mage) by (intros ->; done).
  set (s1 := update_figure mage (Figure.set_has_acted true)
               (update_figure target
                  (Figure.set_counter_containment_turns 2) s)).
  assert (Hrun : ∃ msg, white_mage_counter_containment mage target s
                        = Ok (true, msg) s1).
  { unfold white_mage_counter_containment. cbv beta zeta.
    rewrite Hty, Hact, Hmp, Htp. cbn [negb].
    rewrite (bool_decide_eq_true_2 (WHITE_MAGE = WHITE_MAGE)) by done.
    cbn [negb].
    rewrite (bool_decide_eq_false_2 (_ > 0)) by lia.
    rewrite (bool_decide_eq_false_2 (_ = _)) by done.
    unfold bind. rewrite _in_reach_Some.
    rewrite bool_decide_eq_true_2 by done. cbn [negb].
    eexists. reflexivity. }
  destruct Hrun as [msg Hrun].
  assert (Ht1 : fig s1 target
                = Figure.set_counter_containment_turns 2 (fig s target)).
  { unfold s1. rewrite fig_update_figure_ne by done.
    by rewrite fig_update_figure_eq. }
  destruct (end_turn_figures s1 Hnd) as (s2 & Hrun2 & Hf2 & Hfig2).
  destruct (end_turn_figures s2) as (s3 & Hrun3 & Hf3 & Hfig3).
  { by rewrite Hf2. }
  assert (Hcount : ∀ p f, Figure.counter_containment_turns (reset_of p f)
                          = Figure.counter_containment_turns f).
  { intros p f. unfold reset_of. by destruct (decide _). }
  assert (H1 : Figure.counter_containment_turns (fig s2 target) = 1).
  { rewrite Hfig2, decide_True by done. unfold decay_of.
    rewrite Hcount, Ht1. simpl. done. }
  exists msg, s1, s2, s3. split_and!; try done.
  - unfold s1. rewrite fig_update_figure_eq.
    by rewrite fig_update_figure_ne.
  - intros x Hx1 Hx2. unfold s1. by rewrite !fig_update_figure_ne.
  - rewrite Hfig3, decide_True by (by rewrite Hf2). unfold decay_of.
    rewrite Hcount, H1. simpl. done.
Qed.

(** ** Magic Bomb *)

Lemma figures_on_elem s cells u :
  u ∈ figures_on s cells ↔ ∃ p, p ∈ cells ∧ get_figure_at s p = Some u.
Proof. unfold figures_on. by rewrite list_elem_of_omap. Qed.

Lemma bomb_area_elem c p :
  p ∈ bomb_area c ↔
  p = c ∨ (is_valid_position p = true
           ∧ Z.max (Z.abs (fst p - fst c)) (Z.abs (snd p - snd c)) = 1).
Proof.
  destruct c as [row col], p as [r k]. unfold bomb_area. cbn [fst snd].
  rewrite elem_of_cons, list_elem_of_filter. simpl.
  rewrite !elem_of_cons, elem_of_nil.
  split.
  - intros [?|[Hv H]]; [by left|]. right. split; [done|].
    destruct H as [H|[H|[H|[H|[H|[H|[H|[H|[ ]]]]]]]]]; simplify_eq; lia.
  - intros [?|[Hv H]]; [by left|]. right. split; [done|].
    assert (Hr : r = row + -1 ∨ r = row + 0 ∨ r = row + 1) by lia.
    assert (Hk : k = col + -1 ∨ k = col + 0 ∨ k = col + 1) by lia.
    destruct Hr as [-> | [-> | ->]], Hk as [-> | [-> | ->]]; try lia; tauto.
Qed.

Lemma bomb_area_NoDup c : NoDup (bomb_area c).
Proof.
  destruct c as [row col]. unfold bomb_area. apply NoDup_cons. split.
  - rewrite list_elem_of_filter. simpl. rewrite !elem_of_cons, elem_of_nil.
    intros [_ H].
    destruct H as [H|[H|[H|[H|[H|[H|[H|[H|[ ]]]]]]]]]; simplify_eq; lia.
  - apply NoDup_filter. simpl.
    repeat (apply NoDup_cons; split;
            [rewrite ?elem_of_cons, elem_of_nil; intros H;
             repeat (destruct H as [H|H]; [simplify_eq; lia|]); done|]).
    apply NoDup_nil_2.
Qed.

Lemma figures_on_cons s p rest :
  figures_on s (p :: rest)
  = match get_figure_at s p with
    | Some t => t :: figures_on s rest
    | None => figures_on s rest
    end.
Proof. done. Qed.

Lemma figures_on_ext s1 s cells :
  (∀ q, q ∈ cells → get_figure_at s1 q = get_figure_at s q) →
  figures_on s1 cells = figures_on s cells.
Proof.
  induction cells as [|q rest IH]; intros Hsame; [done|].
  rewrite !figures_on_cons, Hsame by apply list_elem_of_here.
  rewrite IH; [done|]. intros q' Hq'. apply Hsame.
  by apply list_elem_of_further.
Qed.

Lemma bomb_loop_effect cells damaged s :
  NoDup cells → cells_sound s cells →
  ∃ s', bomb_loop cells damaged s = Ok (damaged ++ figures_on s cells) s'
    ∧ (∀ x, fig s' x = if decide (x ∈ figures_on s cells)
                       then hit 2 (fig s x) else fig s x)
    ∧ magic_bomb_used s' = magic_bomb_used s.
Proof.
  revert damaged s.
  induction cells as [|p rest IH]; intros damaged s Hnd Hsound.
  { exists s. split; [by rewrite app_nil_r|]. split; [|done].
    intros x. rewrite decide_False; [done|]. by intros ?%elem_of_nil. }
  apply NoDup_cons in Hnd as [Hp Hnd].
  assert (Hrest : cells_sound s rest).
  { intros q u Hq. apply Hsound. by apply list_elem_of_further. }
  rewrite figures_on_cons. cbn [bomb_loop].
  destruct (get_figure_at s p) as [t|] eqn:Hat.
  - destruct (Hsound p t (list_elem_of_here _ _) Hat) as (Hpos & Hal & Hin).
    pose proof (get_figure_at_Some_valid _ _ _ Hat) as Hv.
    destruct (_deal_damage_sound t 2 s p Hal Hpos Hv Hin)
      as (s1 & Hrun & Hfig & Hoth & Hkeep & Hget & _).
    assert (Hframe : magic_bomb_used s1 = magic_bomb_used s).
    { pose proof (_deal_damage_frame s t 2 s (damage_frame_refl s)) as [H _].
      by rewrite Hrun in H. }
    assert (Hsame : ∀ q, q ∈ rest → get_figure_at s1 q = get_figure_at s q).
    { intros q Hq. apply Hget. by intros ->. }
    pose proof (figures_on_ext s1 s rest Hsame) as Hon.
    assert (Hnot : t ∉ figures_on s rest).
    { intros (q & Hq & Hqt)%figures_on_elem.
      destruct (Hrest q t Hq Hqt) as (Hpos' & _). congruence. }
    destruct (IH (damaged ++ [t]) s1 Hnd) as (s' & Hloop & Hfig' & Hm').
    { intros q u Hq Hu. rewrite Hsame in Hu by done.
      destruct (Hrest q u Hq Hu) as (Hup & Hud & Hui).
      assert (u ≠ t).
      { intros ->. apply Hnot, figures_on_elem. by exists q. }
      rewrite Hoth by done. split_and!; [done..|]. by apply Hkeep. }
    exists s'. split.
    { unfold bind. rewrite Hrun, Hloop. by rewrite Hon, <- app_assoc. }
    split; [|by rewrite Hm'].
    intros x. rewrite Hfig', Hon.
    destruct (decide (x = t)) as [->|Hx].
    + rewrite decide_False by done.
      rewrite decide_True by apply list_elem_of_here. done.
    + rewrite Hoth by done.
      destruct (decide (x ∈ figures_on s rest)).
      * by rewrite decide_True by (by apply list_elem_of_further).
      * rewrite decide_False; [done|].
        by intros [?|?]%elem_of_cons.
  - destruct (IH damaged s Hnd Hrest) as (s' & Hloop & Hfig' & Hm').
    by exists s'.
Qed.

Lemma hit_player d f : Figure.player (hit d f) = Figure.player f.
Proof. unfold hit. by destruct (_ && _). Qed.

(** X14.  Magic Bomb, when it goes off.  On a consistent board, a Black
    Mage that has not acted and is not contained, whose player has not used
    the bomb, may target any cell within taxicab reach, on the board or not.
    Every figure standing on the target cell or on one of the up to eight
    cells of the board around it takes one damage call of 2: friend and foe
    alike, the mage itself included when it stands there.  No other figure
    is damaged, the mage is marked as having acted, the player's bomb is
    used up, and the message counts the figures caught. *)
Theorem magic_bomb_effect mage target_pos s mp :
  board_sound s →
  Figure.type (fig s mage) = BLACK_MAGE →
  Figure.has_acted (fig s mage) = false →
  Figure.counter_containment_turns (fig s mage) ≤ 0 →
  dget (magic_bomb_used s) (Figure.player (fig s mage)) = false →
  Figure.position (fig s mage) = Some mp →
  taxicab mp target_pos ≤ Figure.reach (fig s mage) →
  let caught := figures_on s (bomb_area target_pos) in
  ∃ s',
    black_mage_magic_bomb mage target_pos s
    = Ok (true, "Magic Bomb damaged " +:+ pretty (length caught)
                +:+ " figures") s'
    ∧ (∀ x, x ∈ caught ↔
            ∃ p, (p = target_pos
                  ∨ (is_valid_position p = true
                     ∧ Z.max (Z.abs (fst p - fst target_pos))
                             (Z.abs (snd p - snd target_pos)) = 1))
                 ∧ get_figure_at s p = Some x)
    ∧ (∀ x, fig s' x
            = (if decide (x = mage) then Figure.set_has_acted true else id)
                ((if decide (x ∈ caught) then hit 2 else id) (fig s x)))
    ∧ magic_bomb_used s'
      = dset (magic_bomb_used s) (Figure.player (fig s mage)) true.
Proof.
  intros Hsound Hty Hact Hcc Hunused Hmp Hreach caught.
  destruct (bomb_loop_effect (bomb_area target_pos) [] s)
    as (s1 & Hloop & Hfig & Hm).
  { apply bomb_area_NoDup. }
  { intros p u _. apply Hsound. }
  fold caught in Hloop, Hfig. rewrite app_nil_l in Hloop.
  assert (Hpl : Figure.player (fig s1 mage) = Figure.player (fig s mage)).
  { rewrite Hfig. destruct (decide _); [apply hit_player|done]. }
  eexists. split.
  { unfold black_mage_magic_bomb. cbv beta zeta.
    rewrite Hty, Hact, Hunused, Hmp. cbn [negb].
    rewrite (bool_decide_eq_true_2 (BLACK_MAGE = BLACK_MAGE)) by done.
    cbn [negb].
    rewrite (bool_decide_eq_false_2 (_ > 0)) by lia.
    unfold bind. rewrite _in_reach_Some.
    rewrite bool_decide_eq_true_2 by done. cbn [negb].
    rewrite Hloop. unfold modify. rewrite Hpl. reflexivity. }
  split.
  { intros x. unfold caught. rewrite figures_on_elem.
    by setoid_rewrite bomb_area_elem. }
  split; [|by simpl; rewrite Hm].
  intros x. rewrite fig_update_figure. autorewrite with game.
  rewrite !Hfig.
  destruct (decide (mage = x)) as [->|Hx].
  - rewrite (decide_True (P := x = x)) by done.
    by destruct (decide (x ∈ caught)).
  - rewrite (decide_False (P := x = mage)) by done.
    by destruct (decide (x ∈ caught)).
Qed.

(** Sample runs of Long Eye, Counter Containment and Magic Bomb. *)

Lemma long_eye_effect_witness :
  is_terrain sniper_game (3, 0) = true
  ∧ ∃ s', arbalist_long_eye 1%nat "down" sniper_game
          = Ok (true, "Long Eye hit target") s'
      ∧ Figure.life (fig s' 2%nat) = 7
      ∧ Figure.has_acted (fig s' 1%nat) = true.
Proof.
  split; [reflexivity|].
  assert (Hsound : board_sound sniper_game).
  { apply slots_sound_correct; [reflexivity| |reflexivity].
    refine (bool_decide_unpack _ _). vm_compute. exact I. }
  pose proof (long_eye_effect 1%nat "down" sniper_game 0 0 1 0 Hsound
                eq_refl eq_refl) as H.
  assert (Hfirst : first_figure sniper_game (line_of_fire 0 0 1 0)
                   = Some 2%nat) by (vm_compute; reflexivity).
  rewrite Hfirst in H.
  rewrite (decide_False (P := Figure.player (fig sniper_game 2%nat)
                              = Figure.player (fig sniper_game 1%nat))) in H
    by (vm_compute; discriminate).
  destruct H as (s' & Hrun & Ht & Ha & _);
    [vm_compute; discriminate | reflexivity | reflexivity | reflexivity |].
  exists s'. split; [exact Hrun|]. rewrite Ht, Ha. split; reflexivity.
Defined.

Lemma containment_wears_off_witness :
  ∃ msg s1 s2 s3,
    white_mage_counter_containment 1%nat 2%nat standoff = Ok (true, msg) s1
    ∧ Figure.counter_containment_turns (fig s1 2%nat) = 2
    ∧ end_turn s1 = Ok tt s2
    ∧ Figure.counter_containment_turns (fig s2 2%nat) = 1
    ∧ end_turn s2 = Ok tt s3
    ∧ Figure.counter_containment_turns (fig s3 2%nat) = 0.
Proof.
  destruct (containment_wears_off 1%nat 2%nat standoff (1, 1) (2, 1))
    as (msg & s1 & s2 & s3 & Hrun & Ht & _ & _ & H1 & Hc1 & H2 & Hc2);
    [reflexivity | reflexivity | vm_compute; discriminate
    | vm_compute; discriminate | reflexivity | reflexivity
    | vm_compute; discriminate
    | refine (bool_decide_unpack _ _); vm_compute; exact I
    | refine (bool_decide_unpack _ _); vm_compute; exact I |].
  exists msg, s1, s2, s3. rewrite Ht. repeat split; assumption || reflexivity.
Defined.

Lemma magic_bomb_effect_witness :
  Figure.player (fig standoff 1%nat) = Figure.player (fig standoff 3%nat)
  ∧ ∃ s', black_mage_magic_bomb 3%nat (2, 1) standoff
          = Ok (true, "Magic Bomb damaged 3 figures") s'
      ∧ Figure.life (fig s' 2%nat) = 5
      ∧ Figure.life (fig s' 1%nat) = 2
      ∧ Figure.life (fig s' 3%nat) = 5.
Proof.
  split; [reflexivity|].
  assert (Hsound : board_sound standoff).
  { apply slots_sound_correct; [reflexivity| |reflexivity].
    refine (bool_decide_unpack _ _). vm_compute. exact I. }
  pose proof (magic_bomb_effect 3%nat (2, 1) standoff (1, 2) Hsound
                eq_refl eq_refl) as H.
  cbv zeta in H.
  assert (Hcaught : figures_on standoff (bomb_area (2, 1))
                    = ([2%nat; 1%nat; 3%nat] : list ref))
    by (vm_compute; reflexivity).
  rewrite Hcaught in H.
  assert (Hmsg : "Magic Bomb damaged " +:+ pretty (length ([2%nat; 1%nat; 3%nat] : list ref))
                 +:+ " figures" = "Magic Bomb damaged 3 figures")
    by (vm_compute; reflexivity).
  rewrite Hmsg in H.
  destruct H as (s' & Hrun & _ & Hfig & _);
    [vm_compute; discriminate | reflexivity | reflexivity
    | vm_compute; discriminate |].
  exists s'. split; [exact Hrun|]. rewrite !Hfig.
  split; [|split]; vm_compute; reflexivity.
Defined.

(** ** Consistency of the game *)


Lemma same_layout_refl s : same_layout s s.
Proof. by repeat split. Qed.

Lemma same_layout_trans s1 s2 s3 :
  same_layout s1 s2 → same_layout s2 s3 → same_layout s1 s3.
Proof.
  intros (Hb & Hf & Hd & Hr) (Hb' & Hf' & Hd' & Hr').
  split; [congruence|]. split; [congruence|]. split; [congruence|].
  intros r. destruct (Hr r), (Hr' r). split; congruence.
Qed.

Lemma same_layout_update_figure s r g :
  (∀ f, Figure.position (g f) = Figure.position f
        ∧ Figure.is_dead (g f) = Figure.is_dead f) →
  same_layout s (update_figure r g s).
Proof.
  intros Hg. split; [done|]. split; [done|]. split; [done|].
  intros x. rewrite fig_update_figure. destruct (decide (r = x)) as [->|]; [|done].
  apply Hg.
Qed.

Lemma same_layout_get s s' p :
  same_layout s s' → get_figure_at s' p = get_figure_at s p.
Proof. intros (Hb & _). by apply get_figure_at_ext. Qed.

Lemma same_layout_well_formed s s' :
  same_layout s s' → well_formed s → well_formed s'.
Proof.
  intros Hl ((Hlen & Hrows & Hslots) & Hnd & Hon & Hpool & Hnd2).
  pose proof Hl as (Hb & Hf & Hd & Hr).
  split_and!.
  - split; [by rewrite Hb|]. split; [by rewrite Hb|].
    intros p u. rewrite (same_layout_get s s') by done. intros Hu.
    destruct (Hslots p u Hu) as (? & ? & ?). destruct (Hr u) as [-> ->].
    by rewrite Hf.
  - by rewrite Hf.
  - intros u. rewrite Hf. intros (p & Hp & Hu)%Hon. exists p.
    destruct (Hr u) as [-> _]. by rewrite (same_layout_get s s').
  - intros q u. rewrite Hd. intros Hu%Hpool. by destruct (Hr u) as [_ ->].
  - by rewrite Hd.
Qed.

Lemma same_layout_accounted s s' x :
  same_layout s s' → accounted s x → accounted s' x.
Proof.
  intros (_ & Hf & _ & Hr) [H|H]; [left; by rewrite Hf|right].
  by destruct (Hr x) as [_ ->].
Qed.

Lemma remove_first_NoDup t l l' :
  NoDup l → list_remove_first t l = Some l' → NoDup l' ∧ t ∉ l'.
Proof.
  revert l'. induction l as [|y l IH]; intros l' Hnd; [done|].
  apply NoDup_cons in Hnd as [Hy Hnd]. simpl.
  destruct (decide (t = y)) as [->|Hne].
  - by intros [= <-].
  - destruct (list_remove_first t l) as [l''|] eqn:Hl; [|done].
    intros [= <-]. destruct (IH l'' Hnd eq_refl) as [Hnd' Ht].
    split.
    + apply NoDup_cons. split; [|done].
      intros Hy'. apply Hy. by eapply remove_first_subset.
    + by intros [?|?]%elem_of_cons.
Qed.

Lemma well_formed_alive s u :
  well_formed s → u ∈ figures s →
  Figure.is_dead (fig s u) = false
  ∧ ∃ p, Figure.position (fig s u) = Some p ∧ get_figure_at s p = Some u
         ∧ is_valid_position p = true.
Proof.
  intros ((_ & _ & Hslots) & _ & Hon & _) Hu.
  destruct (Hon u Hu) as (p & Hp & Hat).
  destruct (Hslots p u Hat) as (_ & Hal & _).
  split; [done|]. exists p. split_and!; [done..|].
  by eapply get_figure_at_Some_valid.
Qed.

(** Damage on an accounted figure returns and keeps the game consistent. *)
Lemma _deal_damage_well_formed t d s :
  well_formed s → accounted s t →
  ∃ s', _deal_damage t d s = Ok tt s'
    ∧ well_formed s'
    ∧ (∀ x, accounted s x → accounted s' x)
    ∧ (∀ x, x ∈ figures s' → x ∈ figures s)
    ∧ (∀ x, Figure.is_dead (fig s x) = true → Figure.is_dead (fig s' x) = true)
    ∧ (∀ x, x ≠ t → fig s' x = fig s x)
    ∧ (∀ x, Figure.position (fig s' x) = Figure.position (fig s x))
    ∧ (∀ q, get_figure_at s q = None → get_figure_at s' q = None).
Proof.
  intros Hwf Hacc.
  assert (Hplain : ∀ s', s' = update_figure t
                     (λ f, Figure.set_life (Figure.life f - d) f) s →
            well_formed s'
            ∧ (∀ x, accounted s x → accounted s' x)
            ∧ (∀ x, x ∈ figures s' → x ∈ figures s)
            ∧ (∀ x, Figure.is_dead (fig s x) = true →
                    Figure.is_dead (fig s' x) = true)
            ∧ (∀ x, x ≠ t → fig s' x = fig s x)
            ∧ (∀ x, Figure.position (fig s' x) = Figure.position (fig s x))
            ∧ (∀ q, get_figure_at s q = None → get_figure_at s' q = None)).
  { intros s' ->.
    assert (Hl : same_layout s (update_figure t
                   (λ f, Figure.set_life (Figure.life f - d) f) s)).
    { by apply same_layout_update_figure. }
    split_and!.
    - by eapply same_layout_well_formed.
    - intros x. by apply same_layout_accounted.
    - done.
    - intros x. by destruct Hl as (_ & _ & _ & Hr); destruct (Hr x) as [_ ->].
    - intros x Hx. by rewrite fig_update_figure_ne.
    - intros x. by destruct Hl as (_ & _ & _ & Hr); destruct (Hr x) as [-> _].
    - intros q. by rewrite get_figure_at_update_figure. }
  destruct (Figure.is_dead (fig s t)) eqn:Hdead.
  { eexists. split; [by apply _deal_damage_dead|]. by apply Hplain. }
  destruct (decide (Figure.life (fig s t) - d > 0)) as [Hlife|Hlife].
  { eexists. split; [by apply _deal_damage_survive|]. by apply Hplain. }
  clear Hplain.
  destruct Hacc as [Hin|Hd]; [|congruence].
  destruct (well_formed_alive s t Hwf Hin) as (_ & [row col] & Hpos & Hat & Hv).
  destruct Hwf as ((Hlen & Hrows & Hslots) & Hnd & Hon & Hpool & Hnd2).
  destruct (py_index_valid _ _ Hv) as [Hr Hc].
  destruct (list_remove_first_elem _ _ Hin) as [l Hl].
  destruct (_deal_damage_kill t d s (Z.to_nat row) (Z.to_nat col) l)
    as (s' & Hrun & Hfig & Hoth & Hb & Hf & Hdf & _); [done|lia| |done|].
  { unfold slot_of. by rewrite Hpos, Hr, Hc. }
  destruct (remove_first_NoDup _ _ _ Hnd Hl) as [Hndl Htl].
  assert (Hget : ∀ q, get_figure_at s' q
            = if decide (q = (row, col)) then None else get_figure_at s q).
  { intros q.
    rewrite (get_figure_at_ext s' (set_board (board_store (board s)
               (Z.to_nat row) (Z.to_nat col) None) s)) by done.
    destruct (decide (q = (row, col))) as [->|Hq].
    - by apply get_figure_at_store_eq.
    - by apply get_figure_at_store_ne. }
  assert (Hslot_t : ∀ q u, get_figure_at s q = Some u → q ≠ (row, col) → u ≠ t).
  { intros q u Hu Hq ->. destruct (Hslots q t Hu) as (Hp' & _). congruence. }
  assert (Ht_alive : ∀ q, t ∉ dget (dead_figures s) q).
  { intros q Hq. apply Hpool in Hq. congruence. }
  exists s'. split; [done|]. split_and!.
  - split_and!.
    + split; [|split].
      * rewrite Hb. by apply board_store_shape.
      * rewrite Hb. by apply board_store_shape.
      * intros q u. rewrite Hget. destruct (decide _) as [|Hq]; [done|].
        intros Hu. destruct (Hslots q u Hu) as (Hp' & Hal & Hin').
        assert (u ≠ t) by by eapply Hslot_t.
        rewrite Hoth, Hf by done. split_and!; [done..|].
        by eapply remove_first_other.
    + by rewrite Hf.
    + intros u. rewrite Hf. intros Hu.
      assert (u ≠ t) by (by intros ->).
      destruct (Hon u) as (q & Hq & Hqu); [by eapply remove_first_subset|].
      exists q. rewrite Hoth by done. split; [done|].
      rewrite Hget, decide_False; [done|].
      intros ->. apply H. destruct (Hslots _ _ Hat) as (_ & _ & _).
      congruence.
    + intros q u. rewrite Hdf, dget_dset.
      destruct (decide _) as [<-|].
      * intros [Hu| ->%list_elem_of_singleton]%elem_of_app.
        -- assert (u ≠ t) by (intros ->; by eapply Ht_alive).
           rewrite Hoth by done. by eapply Hpool.
        -- by rewrite Hfig.
      * intros Hu. assert (u ≠ t) by (intros ->; by eapply Ht_alive).
        rewrite Hoth by done. by eapply Hpool.
    + rewrite Hdf. destruct (Figure.player (fig s t)); unfold dset, dget; simpl.
      * rewrite <- app_assoc. apply NoDup_app in Hnd2 as (H1 & H2 & H3).
        apply NoDup_app. split; [done|]. split.
        -- intros x Hx [->%list_elem_of_singleton|Hx2]%elem_of_app.
           ++ by apply (Ht_alive ONE).
           ++ by apply (H2 x).
        -- apply NoDup_cons. split; [apply (Ht_alive TWO)|done].
      * rewrite app_assoc. apply NoDup_app. split; [done|]. split.
        -- intros x Hx ->%list_elem_of_singleton.
           apply elem_of_app in Hx as [Hx|Hx];
             [by apply (Ht_alive ONE)|by apply (Ht_alive TWO)].
        -- apply NoDup_singleton.
  - intros x [Hx|Hx].
    + destruct (decide (x = t)) as [->|Hne].
      * right. by rewrite Hfig.
      * left. rewrite Hf. by eapply remove_first_other.
    + right. destruct (decide (x = t)) as [->|Hne]; [congruence|].
      by rewrite Hoth.
  - intros x. rewrite Hf. apply (remove_first_subset t _ _ x Hl).
  - intros x Hx. destruct (decide (x = t)) as [->|Hne]; [congruence|].
    by rewrite Hoth.
  - done.
  - intros x. destruct (decide (x = t)) as [->|Hne].
    + by rewrite Hfig.
    + by rewrite Hoth.
  - intros q Hq. rewrite Hget. by destruct (decide _).
Qed.

(** ** Calls that return and keep an invariant *)

Lemma safe_ret {A} (I : GameState → Prop) (a : A) s : I s → safe I (ret a s).
Proof. intros H. by exists a, s. Qed.

Lemma safe_bind {A B} (I : GameState → Prop) (m : M A) (k : A → M B) s :
  safe I (m s) →
  (∀ a s1, m s = Ok a s1 → I s1 → safe I (k a s1)) →
  safe I (bind m k s).
Proof.
  intros (a & s1 & Hm & Hs1) Hk. unfold bind. rewrite Hm. by apply Hk.
Qed.

Lemma safe_modify (I : GameState → Prop) f s : I (f s) → safe I (modify f s).
Proof. intros H. by exists tt, (f s). Qed.

Lemma safe_in_reach (I : GameState → Prop) a b r s :
  I s → safe I (_in_reach (Some a) (Some b) r s).
Proof. intros H. rewrite _in_reach_Some. by eexists _, _. Qed.

Lemma kept_refl s : well_formed s → kept s s.
Proof. by split. Qed.

Lemma kept_layout s0 s s' : same_layout s s' → kept s0 s → kept s0 s'.
Proof.
  intros Hl [Hwf Hacc]. split; [by eapply same_layout_well_formed|].
  intros x Hx. by eapply same_layout_accounted, Hacc.
Qed.

Lemma kept_flag s0 s r g :
  (∀ f, Figure.position (g f) = Figure.position f
        ∧ Figure.is_dead (g f) = Figure.is_dead f) →
  kept s0 s → kept s0 (update_figure r g s).
Proof. intros Hg. by apply kept_layout, same_layout_update_figure. Qed.

Lemma safe_deal_damage s0 t d s :
  kept s0 s → accounted s0 t → safe (kept s0) (_deal_damage t d s).
Proof.
  intros [Hwf Hacc] Ht.
  destruct (_deal_damage_well_formed t d s Hwf (Hacc t Ht))
    as (s' & Hrun & Hwf' & Hacc' & _).
  exists tt, s'. split; [done|]. split; [done|]. auto.
Qed.

Lemma safe_damage_loop s0 ts d s :
  kept s0 s → (∀ t, t ∈ ts → accounted s0 t) →
  safe (kept s0) (for_each ts (λ t, _deal_damage t d) s).
Proof.
  revert s. induction ts as [|t ts IH]; intros s Hs Hts.
  { by apply safe_ret. }
  simpl. apply safe_bind.
  - apply safe_deal_damage; [done|]. apply Hts, list_elem_of_here.
  - intros [] s1 _ Hs1. apply IH; [done|].
    intros t' Ht'. by apply Hts, list_elem_of_further.
Qed.

Lemma well_formed_slot s p u :
  well_formed s → get_figure_at s p = Some u → u ∈ figures s.
Proof. intros ((_ & _ & Hslots) & _) Hu. by apply (Hslots p u). Qed.

Lemma safe_bomb_loop s0 cells damaged s :
  kept s0 s → safe (kept s0) (bomb_loop cells damaged s).
Proof.
  revert damaged s. induction cells as [|p rest IH]; intros damaged s Hs.
  { by apply safe_ret. }
  simpl. destruct (get_figure_at s p) as [t|] eqn:Hat; [|by apply IH].
  destruct Hs as [Hwf Hacc].
  destruct (_deal_damage_well_formed t 2 s Hwf) as (s1 & Hrun & Hwf1 & Hacc1 & _).
  { left. by eapply well_formed_slot. }
  unfold bind. rewrite Hrun. apply IH. split; [done|]. auto.
Qed.

Ltac amble leaf :=
  cbv beta zeta;
  lazymatch goal with
  | |- safe _ (bind _ _ _) =>
      apply safe_bind; [amble leaf | intros ? ? ? ?; amble leaf]
  | |- safe _ (failure _ _) => apply safe_ret; assumption
  | |- safe _ (success _ _) => apply safe_ret; assumption
  | |- safe _ (ret _ _) => apply safe_ret; assumption
  | |- safe _ (unpack (Some _) _) => apply safe_ret; assumption
  | |- safe _ (_in_reach (Some _) (Some _) _ _) =>
      apply safe_in_reach; assumption
  | |- safe _ (modify (update_figure _ _) _) =>
      apply safe_modify, kept_flag; [by intros|assumption]
  | |- safe _ (modify _ _) =>
      apply safe_modify;
      match goal with
      | H : kept _ ?s1 |- kept _ _ =>
          apply (kept_layout _ s1); [by repeat split|exact H]
      end
  | |- safe _ (_deal_damage _ _ _) =>
      apply safe_deal_damage; [assumption|leaf]
  | |- safe _ (bomb_loop _ _ _) => apply safe_bomb_loop; assumption
  | |- safe _ ((if ?c then _ else _) _) => destruct c eqn:?; amble leaf
  | |- safe _ (if ?c then _ else _) => destruct c eqn:?; amble leaf
  | |- safe _ ((match ?x with _ => _ end) _) => destruct x eqn:?; amble leaf
  | |- safe _ (match ?x with _ => _ end) => destruct x eqn:?; amble leaf
  end.

Lemma present_position s u :
  well_formed s → u ∈ figures s → is_Some (Figure.position (fig s u)).
Proof.
  intros Hwf Hu. destruct (well_formed_alive s u Hwf Hu) as (_ & p & -> & _).
  by eexists.
Qed.

Lemma attack_safe attacker target_pos s :
  well_formed s → attacker ∈ figures s →
  safe (kept s) (attack attacker target_pos s).
Proof.
  intros Hwf Hin. pose proof (kept_refl s Hwf) as Hs.
  destruct (present_position s attacker Hwf Hin) as [ap Hap].
  unfold attack. cbv beta zeta. rewrite Hap.
  amble ltac:(left; by eapply well_formed_slot).
Qed.

Lemma arbalist_long_eye_safe arbalist direction s :
  well_formed s → arbalist ∈ figures s →
  safe (kept s) (arbalist_long_eye arbalist direction s).
Proof.
  intros Hwf Hin. pose proof (kept_refl s Hwf) as Hs.
  destruct (present_position s arbalist Hwf Hin) as [ap Hap].
  assert (Hscan : ∀ row col dr dc steps t,
            long_eye_scan s arbalist row col dr dc steps = Some t →
            t ∈ figures s).
  { intros row col dr dc steps t. induction steps as [|i steps IH]; [done|].
    simpl. destruct (negb _); [done|].
    destruct (get_figure_at s _) as [u|] eqn:Hu; [|done].
    destruct (decide _); [|done]. intros [= <-]. by eapply well_formed_slot. }
  unfold arbalist_long_eye. cbv beta zeta. rewrite Hap.
  amble ltac:(left; by eapply Hscan).
Qed.

Lemma black_mage_magic_bomb_safe mage target_pos s :
  well_formed s → mage ∈ figures s →
  safe (kept s) (black_mage_magic_bomb mage target_pos s).
Proof.
  intros Hwf Hin. pose proof (kept_refl s Hwf) as Hs.
  destruct (present_position s mage Hwf Hin) as [mp Hmp].
  unfold black_mage_magic_bomb. cbv beta zeta. rewrite Hmp.
  amble idtac.
Qed.

Lemma black_mage_plague_safe mage target x s :
  well_formed s → mage ∈ figures s → target ∈ figures s →
  safe (kept s) (black_mage_plague mage target x s).
Proof.
  intros Hwf Hin Htin. pose proof (kept_refl s Hwf) as Hs.
  destruct (present_position s mage Hwf Hin) as [mp Hmp].
  destruct (present_position s target Hwf Htin) as [tp Htp].
  unfold black_mage_plague. cbv beta zeta. rewrite Hmp, Htp.
  amble ltac:(by left).
Qed.

Lemma white_mage_conjure_safe mage target s :
  well_formed s → mage ∈ figures s → target ∈ figures s →
  safe (kept s) (white_mage_conjure mage target s).
Proof.
  intros Hwf Hin Htin. pose proof (kept_refl s Hwf) as Hs.
  destruct (present_position s mage Hwf Hin) as [mp Hmp].
  destruct (present_position s target Hwf Htin) as [tp Htp].
  unfold white_mage_conjure. cbv beta zeta. rewrite Hmp, Htp.
  amble idtac.
Qed.

Lemma white_mage_heal_safe mage target s :
  well_formed s → mage ∈ figures s → target ∈ figures s →
  safe (kept s) (white_mage_heal mage target s).
Proof.
  intros Hwf Hin Htin. pose proof (kept_refl s Hwf) as Hs.
  destruct (present_position s mage Hwf Hin) as [mp Hmp].
  destruct (present_position s target Hwf Htin) as [tp Htp].
  unfold white_mage_heal. cbv beta zeta. rewrite Hmp, Htp.
  amble idtac.
Qed.

Lemma white_mage_counter_containment_safe mage target s :
  well_formed s → mage ∈ figures s → target ∈ figures s →
  safe (kept s) (white_mage_counter_containment mage target s).
Proof.
  intros Hwf Hin Htin. pose proof (kept_refl s Hwf) as Hs.
  destruct (present_position s mage Hwf Hin) as [mp Hmp].
  destruct (present_position s target Hwf Htin) as [tp Htp].
  unfold white_mage_counter_containment. cbv beta zeta. rewrite Hmp, Htp.
  amble idtac.
Qed.

Lemma kept_trans s0 s1 s2 : kept s0 s1 → kept s1 s2 → kept s0 s2.
Proof. intros [_ H1] [Hwf H2]. split; [done|]. auto. Qed.

Lemma safe_weaken {A} (I J : GameState → Prop) (r : Result A) :
  (∀ s, I s → J s) → safe I r → safe J r.
Proof. intros HIJ (a & s' & Hr & Hs). exists a, s'. auto. Qed.

(** ** Moving a figure from one cell to another *)

Lemma relocate_steps {A} f old new (rest : M A) s :
  is_valid_position old = true → is_valid_position new = true →
  (board_setitem (fst old) (snd old) None >>
   board_setitem (fst new) (snd new) (Some f) >>
   modify (update_figure f (Figure.set_position (Some new))) >>
   rest) s
  = rest (relocate f old new s).
Proof.
  destruct old as [r0 c0], new as [r1 c1]. intros Hv0 Hv1.
  destruct (py_index_valid _ _ Hv0) as [Hr0 Hc0].
  destruct (py_index_valid _ _ Hv1) as [Hr1 Hc1].
  unfold bind, board_setitem, modify. cbn [fst snd].
  by rewrite Hr0, Hc0, Hr1, Hc1.
Qed.

Lemma relocate_get s f old new c :
  board_shape s → is_valid_position old = true → is_valid_position new = true →
  get_figure_at (relocate f old new s) c
  = if decide (c = new) then Some f
    else if decide (c = old) then None
    else get_figure_at s c.
Proof.
  intros [Hlen Hrows] Hv0 Hv1. destruct old as [r0 c0], new as [r1 c1].
  unfold relocate. cbn [fst snd]. rewrite get_figure_at_update_figure.
  set (b1 := board_store (board s) (Z.to_nat r0) (Z.to_nat c0) None).
  destruct (board_store_shape (board s) (Z.to_nat r0) (Z.to_nat c0)
              None Hlen Hrows) as [Hlen1 Hrows1].
  rewrite (get_figure_at_ext _ (set_board (board_store (board (set_board b1 s))
             (Z.to_nat r1) (Z.to_nat c1) (Some f)) (set_board b1 s))) by done.
  destruct (decide (c = (r1, c1))) as [->|Hcn].
  { by apply get_figure_at_store_eq. }
  rewrite get_figure_at_store_ne by done.
  destruct (decide (c = (r0, c0))) as [->|Hco].
  { by apply get_figure_at_store_eq. }
  by apply get_figure_at_store_ne.
Qed.

Lemma relocate_shape s f old new :
  board_shape s → board_shape (relocate f old new s).
Proof.
  intros [Hlen Hrows]. unfold relocate, board_shape. simpl.
  destruct (board_store_shape (board s) (Z.to_nat (fst old))
              (Z.to_nat (snd old)) None Hlen Hrows) as [Hlen1 Hrows1].
  by apply board_store_shape.
Qed.

Lemma relocate_kept s f old new :
  well_formed s → get_figure_at s old = Some f →
  is_valid_position new = true → get_figure_at s new = None →
  kept s (relocate f old new s).
Proof.
  intros Hwf Hat Hv1 Hfree.
  pose proof Hwf as ((Hlen & Hrows & Hslots) & Hnd & Hon & Hpool & Hnd2).
  pose proof (get_figure_at_Some_valid _ _ _ Hat) as Hv0.
  destruct (Hslots old f Hat) as (Hpos & Halive & Hin).
  assert (Hget := λ c, relocate_get s f old new c (conj Hlen Hrows) Hv0 Hv1).
  assert (Hne : old ≠ new) by (intros ->; congruence).
  assert (Hf : fig (relocate f old new s) f
               = Figure.set_position (Some new) (fig s f)).
  { unfold relocate. by autorewrite with game. }
  assert (Hoth : ∀ x, x ≠ f → fig (relocate f old new s) x = fig s x).
  { intros x Hx. unfold relocate. by rewrite fig_update_figure_ne. }
  assert (Hdead : ∀ x, Figure.is_dead (fig (relocate f old new s) x)
                       = Figure.is_dead (fig s x)).
  { intros x. destruct (decide (x = f)) as [->|Hx];
      [by rewrite Hf|by rewrite Hoth]. }
  split.
  - split_and!.
    + destruct (relocate_shape s f old new (conj Hlen Hrows)) as [? ?].
      split; [done|]. split; [done|].
      intros p u. rewrite Hget.
      destruct (decide (p = new)) as [->|Hp1].
      { intros [= <-]. rewrite Hf. by split_and!. }
      destruct (decide (p = old)) as [->|Hp0]; [done|].
      intros Hu. destruct (Hslots p u Hu) as (Hup & Hud & Hui).
      assert (u ≠ f) by (intros ->; congruence).
      by rewrite Hoth.
    + done.
    + intros u Hu. destruct (decide (u = f)) as [->|Hx].
      * exists new. rewrite Hf, Hget, decide_True by done. done.
      * destruct (Hon u Hu) as (q & Hq & Hqu). exists q.
        rewrite Hoth, Hget by done.
        rewrite decide_False by (intros ->; congruence).
        rewrite decide_False by (intros ->; congruence). done.
    + intros q u Hu. rewrite Hdead. by eapply Hpool.
    + done.
  - intros x [Hx|Hx]; [by left|right]. by rewrite Hdead.
Qed.

Lemma move_figure_safe f new_pos s :
  well_formed s → f ∈ figures s → is_valid_position new_pos = true →
  safe (kept s) (move_figure f new_pos s).
Proof.
  intros Hwf Hin Hv. pose proof (kept_refl s Hwf) as Hs.
  destruct (well_formed_alive s f Hwf Hin) as (_ & old & Hpos & Hat & Hvold).
  unfold move_figure. cbv beta zeta. rewrite Hpos.
  destruct (_ || _); [by apply safe_ret|].
  destruct (bool_decide _); [by apply safe_ret|].
  destruct (is_terrain _ _); [by apply safe_ret|].
  destruct (get_figure_at s new_pos) eqn:Hfree; [by apply safe_ret|].
  unfold bind at 1. cbn [unpack ret]. destruct old as [old_row old_col].
  destruct new_pos as [new_row new_col].
  destruct (bool_decide _); [by apply safe_ret|].
  destruct (negb _); [by apply safe_ret|].
  rewrite (relocate_steps f (old_row, old_col) (new_row, new_col)) by done.
  pose proof (relocate_kept s f _ _ Hwf Hat Hv Hfree) as Hk.
  amble idtac.
Qed.

Lemma knight_charge_safe knight direction s :
  well_formed s → knight ∈ figures s →
  safe (kept s) (knight_charge knight direction s).
Proof.
  intros Hwf Hin. pose proof (kept_refl s Hwf) as Hs.
  destruct (well_formed_alive s knight Hwf Hin)
    as (_ & [row col] & Hpos & Hat & Hvold).
  unfold knight_charge. cbv beta zeta. rewrite Hpos.
  destruct (negb _); [by apply safe_ret|].
  destruct (_ || _); [by apply safe_ret|].
  destruct (bool_decide _); [by apply safe_ret|].
  unfold bind at 1. cbn [unpack ret].
  destruct (charge_vector direction) as [[dr dc]|]; [|by apply safe_ret].
  rewrite charge_scan_lane. rewrite app_nil_l.
  set (lane := open_lane s _).
  destruct (last (free_cells s lane)) as [[final_row final_col]|] eqn:Hlast;
    [|by apply safe_ret].
  apply last_elem_of, free_cells_elem in Hlast as [Hlane Hfree].
  apply open_lane_elem in Hlane as (_ & Hv & _).
  rewrite (relocate_steps knight (row, col) (final_row, final_col)) by done.
  pose proof (relocate_kept s knight _ _ Hwf Hat Hv Hfree) as Hk.
  apply safe_bind.
  { apply safe_damage_loop; [done|].
    intros t (p & _ & Hp & _)%lane_enemies_elem. left.
    by eapply well_formed_slot. }
  intros [] s1 _ Hs1. amble idtac.
Qed.

Lemma placed_kept f p s :
  well_formed s → is_valid_position p = true → get_figure_at s p = None →
  Figure.is_dead (fig s f) = false → f ∉ figures s →
  kept s (placed f p s).
Proof.
  intros Hwf Hv Hfree Halive Hnew.
  pose proof Hwf as ((Hlen & Hrows & Hslots) & Hnd & Hon & Hpool & Hnd2).
  destruct p as [row col].
  assert (Hget : ∀ c, get_figure_at (placed f (row, col) s) c
            = if decide (c = (row, col)) then Some f else get_figure_at s c).
  { intros c. unfold placed. cbn [fst snd].
    rewrite (get_figure_at_ext _ (set_board (board_store (board s)
               (Z.to_nat row) (Z.to_nat col) (Some f)) s)) by done.
    destruct (decide (c = (row, col))) as [->|Hc].
    - by apply get_figure_at_store_eq.
    - by apply get_figure_at_store_ne. }
  assert (Hf : fig (placed f (row, col) s) f
               = Figure.set_position (Some (row, col)) (fig s f)).
  { unfold placed. by autorewrite with game. }
  assert (Hoth : ∀ x, x ≠ f → fig (placed f (row, col) s) x = fig s x).
  { intros x Hx. unfold placed. autorewrite with game.
    by rewrite fig_update_figure_ne. }
  assert (Hdead : ∀ x, Figure.is_dead (fig (placed f (row, col) s) x)
                       = Figure.is_dead (fig s x)).
  { intros x. destruct (decide (x = f)) as [->|Hx];
      [by rewrite Hf|by rewrite Hoth]. }
  assert (Hfigs : figures (placed f (row, col) s) = figures s ++ [f]) by done.
  split.
  - split_and!.
    + split; [|split].
      * by apply board_store_shape.
      * by apply board_store_shape.
      * intros q u. rewrite Hget, Hfigs.
        destruct (decide (q = (row, col))) as [->|Hq].
        { intros [= <-]. rewrite Hf. split_and!; [done..|].
          apply elem_of_app. right. apply list_elem_of_here. }
        intros Hu. destruct (Hslots q u Hu) as (Hup & Hud & Hui).
        assert (u ≠ f) by (intros ->; done).
        rewrite Hoth by done. split_and!; [done..|].
        apply elem_of_app. by left.
    + rewrite Hfigs. apply NoDup_app. split; [done|]. split.
      * intros x Hx ->%list_elem_of_singleton. done.
      * apply NoDup_singleton.
    + intros u. rewrite Hfigs.
      intros [Hu| ->%list_elem_of_singleton]%elem_of_app.
      * assert (u ≠ f) by (intros ->; done).
        destruct (Hon u Hu) as (q & Hq & Hqu). exists q.
        rewrite Hoth, Hget by done.
        by rewrite decide_False by (intros ->; congruence).
      * exists (row, col). rewrite Hf, Hget, decide_True by done. done.
    + intros q u Hu. rewrite Hdead. by eapply Hpool.
    + done.
  - intros x [Hx|Hx].
    + left. rewrite Hfigs. apply elem_of_app. by left.
    + right. by rewrite Hdead.
Qed.

Lemma place_figure_safe f p s :
  well_formed s → is_valid_position p = true →
  Figure.is_dead (fig s f) = false → f ∉ figures s →
  safe (kept s) (place_figure f p s).
Proof.
  intros Hwf Hv Halive Hnew. pose proof (kept_refl s Hwf) as Hs.
  destruct p as [row col]. destruct (py_index_valid _ _ Hv) as [Hr Hc].
  unfold place_figure, bind, board_getitem. rewrite Hr, Hc.
  destruct (board_lookup _ _ _) eqn:Hslot; [by apply safe_ret|].
  destruct (negb _); [by apply safe_ret|].
  unfold board_setitem, modify, ret. rewrite Hr, Hc.
  eexists _, _. split; [reflexivity|].
  apply (placed_kept f (row, col) s); try done.
  unfold get_figure_at. by rewrite Hv.
Qed.

Lemma remove_first_sublist t l l' :
  list_remove_first t l = Some l' → l' `sublist_of` l.
Proof.
  revert l'. induction l as [|y l IH]; intros l'; [done|]. simpl.
  destruct (decide (t = y)) as [->|Hne].
  - intros [= <-]. by apply sublist_cons.
  - destruct (list_remove_first t l) as [l''|]; [|done].
    intros [= <-]. by apply sublist_skip, IH.
Qed.

Lemma resurrect_kept mage d p s :
  well_formed s →
  d ∈ dget (dead_figures s) (Figure.player (fig s mage)) →
  is_valid_position p = true → get_figure_at s p = None →
  safe (kept s) (resurrect mage d p s).
Proof.
  intros Hwf Hd Hv Hfree.
  pose proof Hwf as ((Hlen & Hrows & Hslots) & Hnd & Hon & Hpool & Hnd2).
  set (q := Figure.player (fig s mage)) in *.
  destruct (list_remove_first_elem _ _ Hd) as [l Hl].
  destruct (resurrect_success mage d p s l Hl Hv)
    as (s' & Hrun & Hdf & Hfigs & _ & Hb & Hfig & _).
  fold q in Hdf.
  exists (true, "Vampiric Push successful"), s'. split; [done|].
  assert (Hd_dead : Figure.is_dead (fig s d) = true) by by eapply Hpool.
  assert (Hd_out : d ∉ figures s).
  { intros Hin. destruct (well_formed_alive s d Hwf Hin) as [? _]. congruence. }
  assert (Hget : ∀ c, get_figure_at s' c
            = if decide (c = p) then Some d else get_figure_at s c).
  { intros c.
    rewrite (get_figure_at_ext s' (set_board (board_store (board s)
               (Z.to_nat (fst p)) (Z.to_nat (snd p)) (Some d)) s)) by done.
    destruct p as [row col]. cbn [fst snd].
    destruct (decide (c = (row, col))) as [->|Hc].
    - by apply get_figure_at_store_eq.
    - by apply get_figure_at_store_ne. }
  assert (Hrevived : Figure.position (fig s' d) = Some p
                     ∧ Figure.is_dead (fig s' d) = false).
  { rewrite Hfig, (decide_True (P := d = d)) by done.
    by destruct (decide (d = mage)). }
  assert (Hoth : ∀ x, x ≠ d →
            Figure.position (fig s' x) = Figure.position (fig s x)
            ∧ Figure.is_dead (fig s' x) = Figure.is_dead (fig s x)).
  { intros x Hx. rewrite Hfig, (decide_False (P := x = d)) by done.
    by destruct (decide (x = mage)). }
  destruct (remove_first_NoDup d (dget (dead_figures s) q) l) as [Hndl Hdl];
    [|done|].
  { destruct q; [by eapply NoDup_app in Hnd2 as (? & _ & _)
                |by eapply NoDup_app in Hnd2 as (_ & _ & ?)]. }
  split.
  - split_and!.
    + split; [|split].
      * rewrite Hb. by apply board_store_shape.
      * rewrite Hb. by apply board_store_shape.
      * intros c u. rewrite Hget, Hfigs.
        destruct (decide (c = p)) as [->|Hc].
        { intros [= <-]. destruct Hrevived. split_and!; [done..|].
          apply elem_of_app. right. apply list_elem_of_here. }
        intros Hu. destruct (Hslots c u Hu) as (Hup & Hud & Hui).
        assert (u ≠ d) by (intros ->; congruence).
        destruct (Hoth u) as [-> ->]; [done|]. split_and!; [done..|].
        apply elem_of_app. by left.
    + rewrite Hfigs. apply NoDup_app. split; [done|]. split.
      * intros x Hx ->%list_elem_of_singleton. done.
      * apply NoDup_singleton.
    + intros u. rewrite Hfigs.
      intros [Hu| ->%list_elem_of_singleton]%elem_of_app.
      * assert (u ≠ d) by (intros ->; done).
        destruct (Hon u Hu) as (c & Hc & Hcu). exists c.
        destruct (Hoth u) as [-> _]; [done|]. rewrite Hget.
        by rewrite decide_False by (intros ->; congruence).
      * exists p. destruct Hrevived as [-> _].
        by rewrite Hget, decide_True.
    + intros q' u. rewrite Hdf, dget_dset.
      destruct (decide (q = q')) as [<-|Hq].
      * intros Hu. assert (u ≠ d) by (intros ->; done).
        destruct (Hoth u) as [_ ->]; [done|].
        apply (Hpool q). by eapply remove_first_subset.
      * intros Hu. assert (u ≠ d).
        { intros ->. apply NoDup_app in Hnd2 as (_ & Hdisj & _).
          destruct q, q'; try done; [by apply (Hdisj d)|by apply (Hdisj d)]. }
        destruct (Hoth u) as [_ ->]; [done|]. by apply (Hpool q').
    + rewrite Hdf. apply remove_first_sublist in Hl.
      eapply sublist_NoDup; [exact Hnd2|].
      destruct q; unfold dset, dget in *; simpl in *.
      * by apply sublist_app.
      * by apply sublist_app.
  - intros x [Hx|Hx].
    + left. rewrite Hfigs. apply elem_of_app. by left.
    + destruct (decide (x = d)) as [->|Hne].
      * left. rewrite Hfigs. apply elem_of_app. right. apply list_elem_of_here.
      * right. by destruct (Hoth x) as [_ ->].
Qed.

Lemma black_mage_vampiric_push_safe mage d p s :
  well_formed s → mage ∈ figures s →
  safe (kept s) (black_mage_vampiric_push mage d p s).
Proof.
  intros Hwf Hin. pose proof (kept_refl s Hwf) as Hs.
  unfold black_mage_vampiric_push. cbv beta zeta.
  destruct (negb (bool_decide (Figure.type _ = _))); [by apply safe_ret|].
  destruct (Figure.has_acted _); [by apply safe_ret|].
  destruct (bool_decide (_ > 0)); [by apply safe_ret|].
  destruct (negb (bool_decide (d ∈ _))) eqn:Hd; [by apply safe_ret|].
  destruct (negb (bool_decide (p ∈ _))) eqn:Hp; [by apply safe_ret|].
  destruct (get_figure_at s p) eqn:Hfree; [by apply safe_ret|].
  apply negb_false_iff, bool_decide_eq_true in Hd, Hp.
  apply safe_bind.
  { apply safe_deal_damage; [done|by left]. }
  intros [] s1 Hrun Hs1.
  destruct (negb (Figure.is_dead (fig s1 mage))) eqn:Halive;
    [|by apply safe_ret].
  apply negb_true_iff in Halive.
  destruct (_deal_damage_alive_after _ _ _ _ Hrun Halive) as (-> & _ & _).
  eapply safe_weaken; [intros s2 Hs2; exact (kept_trans _ _ _ Hs1 Hs2)|].
  apply resurrect_kept.
  - apply Hs1.
  - by rewrite fig_update_figure_eq.
  - by eapply start_zone_valid.
  - by rewrite get_figure_at_update_figure.
Qed.

Lemma flags_only_layout s s' : flags_only s s' → same_layout s s'.
Proof.
  intros [(Hb & _ & Hf & Hd & _) Hfig]. split; [done|]. split; [done|].
  split; [done|]. intros r. specialize (Hfig r). by injection Hfig.
Qed.

Lemma end_turn_safe s : well_formed s → safe (kept s) (end_turn s).
Proof.
  intros Hwf. destruct (end_turn_loops s) as (s2 & Hs2 & ->).
  rewrite _check_win_conditions_verdict. eexists _, _. split; [reflexivity|].
  apply flags_only_layout in Hs2.
  apply (kept_layout s s); [|by apply kept_refl].
  eapply same_layout_trans; [exact Hs2|].
  destruct (verdict _); by repeat split.
Qed.

(** ** Consistency of play *)

Lemma perform_safe a s :
  well_formed s → legal s a → safe well_formed (perform a s).
Proof.
  intros Hwf Hlegal.
  assert (Hflag : ∀ m : M (bool * string),
            safe (kept s) (m s) →
            safe well_formed (bind m (λ r, ret (Some (fst r))) s)).
  { intros m Hm. apply safe_bind.
    - eapply safe_weaken; [|exact Hm]. by intros s1 [? _].
    - intros r s1 _ Hs1. by apply safe_ret. }
  destruct a; simpl in Hlegal; simpl; destruct_and?.
  - apply safe_bind.
    + eapply safe_weaken; [|by apply place_figure_safe]. by intros s1 [? _].
    + intros r s1 _ Hs1. by apply safe_ret.
  - by apply Hflag, move_figure_safe.
  - by apply Hflag, knight_charge_safe.
  - by apply Hflag, attack_safe.
  - by apply Hflag, arbalist_long_eye_safe.
  - by apply Hflag, black_mage_magic_bomb_safe.
  - by apply Hflag, black_mage_plague_safe.
  - by apply Hflag, black_mage_vampiric_push_safe.
  - by apply Hflag, white_mage_conjure_safe.
  - by apply Hflag, white_mage_heal_safe.
  - by apply Hflag, white_mage_counter_containment_safe.
  - apply safe_bind.
    + eapply safe_weaken; [|by apply end_turn_safe]. by intros s1 [? _].
    + intros r s1 _ Hs1. by apply safe_ret.
Qed.

(** X15.  Consistency of play.  Call a game consistent when the board is
    eight by eight, every figure in a slot has that cell as its position, is
    not dead and is on the alive list, the alive list names each figure on
    the board once, and the two dead pools hold dead figures only, none
    twice.  From a consistent game, any sequence of calls made the way the
    interactive layer makes them - actors and targets taken from the board,
    destinations of moves and placements on the board, only new figures
    placed - never raises an exception and ends in a consistent game. *)
Theorem legal_play_is_consistent acts s :
  well_formed s → legal_run acts s →
  all_return acts s ∧ well_formed (run acts s).
Proof.
  revert s. induction acts as [|a acts IH]; intros s Hwf Hlegal; [done|].
  destruct Hlegal as [Ha Hrest].
  destruct (perform_safe a s Hwf Ha) as (r & s1 & Hrun & Hwf1).
  simpl. rewrite Hrun in *. simpl in *.
  destruct (IH s1 Hwf1 Hrest) as [Hret Hfinal].
  split; [|done]. split; [by eexists|done].
Qed.

Lemma well_formed_check_correct s :
  well_formed_check s = true → well_formed s.
Proof.
  unfold well_formed_check. rewrite !andb_true_iff.
  intros [[[[[[Hlen Hrows] Hslots] Hnd] Hon] Hpool] Hnd2].
  apply bool_decide_eq_true in Hlen, Hnd, Hnd2.
  rewrite forallb_forall in Hrows, Hon, Hpool.
  split_and!; try done.
  - apply slots_sound_correct; [done| |done].
    apply Forall_forall. intros row Hrow%list_elem_of_In%Hrows.
    by apply bool_decide_eq_true in Hrow.
  - intros u Hu%list_elem_of_In%Hon.
    destruct (Figure.position (fig s u)) as [p|] eqn:Hp; [|done].
    apply bool_decide_eq_true in Hu. by exists p.
  - intros q u Hu. apply Hpool, list_elem_of_In, elem_of_app.
    destruct q; [by left|by right].
Qed.

Lemma legal_play_is_consistent_witness :
  well_formed full_setup ∧ legal_run skirmish full_setup
  ∧ all_return skirmish full_setup
  ∧ well_formed (run skirmish full_setup)
  ∧ dget (dead_figures (run skirmish full_setup)) TWO = [2%nat].
Proof.
  assert (Hwf : well_formed full_setup).
  { apply well_formed_check_correct. vm_compute. reflexivity. }
  assert (Hlegal : legal_run skirmish full_setup).
  { unfold skirmish. cbn [legal_run legal].
    repeat split; refine (bool_decide_unpack _ _); vm_compute; exact I. }
  split; [exact Hwf|]. split; [exact Hlegal|].
  destruct (legal_play_is_consistent skirmish full_setup Hwf Hlegal)
    as [Hret Hfinal].
  split; [exact Hret|]. split; [exact Hfinal|]. vm_compute. reflexivity.
Defined.

(** ** Basic attacks *)

(** X16.  On a consistent board no basic attack ever lands.  Whatever the
    attacker standing on the board and whatever the target cell, [attack]
    reports a failure and changes nothing: an enemy within reach is refused
    with the line-of-sight message, because the path check run with
    [check_target=False] walks up to and including the target's own cell
    and finds the target there.  The Barbarian, who has no other action,
    can therefore never hurt anybody. *)
Theorem attack_never_lands attacker target_pos s :
  board_sound s → on_board s attacker →
  ∃ msg, attack attacker target_pos s = Ok (false, msg) s.
Proof.
  intros (_ & _ & Hslots) (ap & Hap & Hat).
  unfold attack. cbv beta zeta. rewrite Hap.
  destruct (Figure.has_acted _); [by eexists|].
  destruct (bool_decide (_ > 0)); [by eexists|].
  destruct (get_figure_at s target_pos) as [target|] eqn:Htarget;
    [|by eexists].
  case_bool_decide as Hpl; [by eexists|].
  unfold bind at 1. cbn [unpack ret]. destruct ap as [att_row att_col].
  destruct (bool_decide (_ > _)); [by eexists|].
  rewrite _is_path_clear_checks_target with (target := target);
    [by eexists| |done].
  intros <-. apply Hpl. congruence.
Qed.

Lemma attack_never_lands_witness :
  board_sound standoff ∧ on_board standoff 2%nat
  ∧ get_figure_at standoff (1, 1) = Some 1%nat
  ∧ Figure.player (fig standoff 1%nat) ≠ Figure.player (fig standoff 2%nat)
  ∧ ∃ msg, attack 2%nat (1, 1) standoff = Ok (false, msg) standoff.
Proof.
  assert (Hsound : board_sound standoff).
  { apply slots_sound_correct; [reflexivity| |reflexivity].
    refine (bool_decide_unpack _ _). vm_compute. exact I. }
  assert (Hon : on_board standoff 2%nat).
  { exists (2, 1). split; reflexivity. }
  split; [exact Hsound|]. split; [exact Hon|]. split; [reflexivity|].
  split; [vm_compute; discriminate|].
  exact (attack_never_lands 2%nat (1, 1) standoff Hsound Hon).
Defined.

(** ** Turn order *)


Section Retag.
Variables (p : Player) (n : Z) (g : bool) (w : option Player).

Lemma bind_retag {A B} (m : M A) (k : A → M B) s :
  m (retag p n g w s) = rmap (retag p n g w) (m s) →
  (∀ a s1, k a (retag p n g w s1) = rmap (retag p n g w) (k a s1)) →
  bind m k (retag p n g w s) = rmap (retag p n g w) (bind m k s).
Proof.
  intros Hm Hk. unfold bind. rewrite Hm.
  destruct (m s) as [a s1|e s1]; simpl; [apply Hk|done].
Qed.

Lemma unpack_retag o s :
  unpack o (retag p n g w s) = rmap (retag p n g w) (unpack o s).
Proof. by destruct o. Qed.

Lemma _in_reach_retag a b r s :
  _in_reach a b r (retag p n g w s)
  = rmap (retag p n g w) (_in_reach a b r s).
Proof.
  unfold _in_reach. apply bind_retag; [apply unpack_retag|]. intros [] s1.
  apply bind_retag; [apply unpack_retag|]. by intros [].
Qed.

Lemma board_setitem_retag row col v s :
  board_setitem row col v (retag p n g w s)
  = rmap (retag p n g w) (board_setitem row col v s).
Proof. unfold board_setitem. by destruct (py_index row), (py_index col). Qed.

Lemma board_getitem_retag row col s :
  board_getitem row col (retag p n g w s)
  = rmap (retag p n g w) (board_getitem row col s).
Proof. unfold board_getitem. by destruct (py_index row), (py_index col). Qed.
End Retag.

(** Reads of a retagged state are reads of the state itself. *)
Ltac see_through :=
  repeat match goal with
    | |- context [fig (retag ?p ?n ?g ?w ?s)] =>
        change (fig (retag p n g w s)) with (fig s)
    | |- context [get_figure_at (retag ?p ?n ?g ?w ?s)] =>
        change (get_figure_at (retag p n g w s)) with (get_figure_at s)
    | |- context [is_terrain (retag ?p ?n ?g ?w ?s)] =>
        change (is_terrain (retag p n g w s)) with (is_terrain s)
    | |- context [_is_path_clear (retag ?p ?n ?g ?w ?s)] =>
        change (_is_path_clear (retag p n g w s)) with (_is_path_clear s)
    | |- context [charge_scan (retag ?p ?n ?g ?w ?s)] =>
        change (charge_scan (retag p n g w s)) with (charge_scan s)
    | |- context [long_eye_scan (retag ?p ?n ?g ?w ?s)] =>
        change (long_eye_scan (retag p n g w s)) with (long_eye_scan s)
    | |- context [figures (retag ?p ?n ?g ?w ?s)] =>
        change (figures (retag p n g w s)) with (figures s)
    | |- context [dead_figures (retag ?p ?n ?g ?w ?s)] =>
        change (dead_figures (retag p n g w s)) with (dead_figures s)
    | |- context [magic_bomb_used (retag ?p ?n ?g ?w ?s)] =>
        change (magic_bomb_used (retag p n g w s)) with (magic_bomb_used s)
    end.

Ltac glide leaf :=
  cbv beta zeta; see_through;
  lazymatch goal with
  | |- _ = rmap _ (bind _ _ _) =>
      apply bind_retag; [glide leaf | intros ? ?; glide leaf]
  | |- _ = rmap _ (unpack _ _) => apply unpack_retag
  | |- _ = rmap _ (_in_reach _ _ _ _) => apply _in_reach_retag
  | |- _ = rmap _ (board_setitem _ _ _ _) => apply board_setitem_retag
  | |- _ = rmap _ (board_getitem _ _ _) => apply board_getitem_retag
  | |- _ = rmap _ ((if ?c then _ else _) _) => destruct c eqn:?; glide leaf
  | |- _ = rmap _ (if ?c then _ else _) => destruct c eqn:?; glide leaf
  | |- _ = rmap _ ((match ?x with _ => _ end) _) =>
      destruct x eqn:?; glide leaf
  | |- _ = rmap _ (match ?x with _ => _ end) => destruct x eqn:?; glide leaf
  | |- _ => leaf
  end.

Lemma _deal_damage_retag p n g w t d s :
  _deal_damage t d (retag p n g w s)
  = rmap (retag p n g w) (_deal_damage t d s).
Proof. unfold _deal_damage. glide ltac:(reflexivity). Qed.

Lemma damage_loop_retag p n g w ts d s :
  for_each ts (λ t, _deal_damage t d) (retag p n g w s)
  = rmap (retag p n g w) (for_each ts (λ t, _deal_damage t d) s).
Proof.
  revert s. induction ts as [|t ts IH]; intros s; [done|].
  simpl. apply bind_retag; [apply _deal_damage_retag|]. intros [] s1. apply IH.
Qed.

Lemma bomb_loop_retag p n g w cells damaged s :
  bomb_loop cells damaged (retag p n g w s)
  = rmap (retag p n g w) (bomb_loop cells damaged s).
Proof.
  revert damaged s. induction cells as [|c rest IH]; intros damaged s; [done|].
  simpl. see_through. destruct (get_figure_at s c); [|apply IH].
  apply bind_retag; [apply _deal_damage_retag|]. intros [] s1. apply IH.
Qed.

Ltac glide_all :=
  glide ltac:(first [ apply _deal_damage_retag
                    | apply damage_loop_retag
                    | apply bomb_loop_retag
                    | reflexivity ]).

(** X17.  The engine does not police turns.  No call other than
    [end_turn] reads the player to move, the turn count, the game-over flag
    or the winner: run on a game that differs only in these, it returns the
    same value or raises the same exception and leaves the same state, these
    four fields apart.  A figure can thus be moved during the opponent's
    turn, and play can go on after the game is over. *)
Theorem engine_ignores_turn a p n g w s :
  a ≠ EndTurn →
  perform a (retag p n g w s) = rmap (retag p n g w) (perform a s).
Proof.
  intros Ha. destruct a; simpl; [..|done].
  - unfold place_figure. destruct p0. glide_all.
  - unfold move_figure. glide_all.
  - unfold knight_charge. glide_all.
  - unfold attack. glide_all.
  - unfold arbalist_long_eye. glide_all.
  - unfold black_mage_magic_bomb. glide_all.
  - unfold black_mage_plague. glide_all.
  - unfold black_mage_vampiric_push, resurrect. glide_all.
  - unfold white_mage_conjure. glide_all.
  - unfold white_mage_heal. glide_all.
  - unfold white_mage_counter_containment. glide_all.
Qed.

Lemma engine_ignores_turn_witness :
  MoveFigure 2%nat (2, 1) ≠ EndTurn
  ∧ current_player full_setup = ONE
  ∧ Figure.player (fig full_setup 2%nat) = TWO
  ∧ reported (perform (MoveFigure 2%nat (2, 1)) full_setup) = Some (Some true)
  ∧ perform (MoveFigure 2%nat (2, 1)) (retag TWO 7 true (Some ONE) full_setup)
    = rmap (retag TWO 7 true (Some ONE))
        (perform (MoveFigure 2%nat (2, 1)) full_setup).
Proof.
  split; [discriminate|]. split; [reflexivity|]. split; [reflexivity|].
  split; [vm_compute; reflexivity|].
  apply (engine_ignores_turn (MoveFigure 2%nat (2, 1))). discriminate.
Defined.

(** ** Ranges of the attributes *)


Lemma all_in_range_update s r g :
  all_in_range s → in_range (g (fig s r)) →
  all_in_range (update_figure r g s).
Proof.
  intros Hs Hg x. rewrite fig_update_figure.
  by destruct (decide (r = x)) as [->|].
Qed.

Ltac open_conditions :=
  repeat match goal with
    | E : bool_decide _ = true |- _ => apply bool_decide_eq_true in E
    | E : bool_decide _ = false |- _ => apply bool_decide_eq_false in E
    | E : _ || _ = false |- _ => apply orb_false_iff in E as [? ?]
    end.

Ltac leaf_range :=
  first
    [ assumption
    | cbn [state_of modify];
      match goal with
      | H : all_in_range ?s1 |- all_in_range (update_figure ?r _ ?s1) =>
          apply all_in_range_update; [exact H|];
          pose proof (H r); unfold in_range in *; open_conditions;
          simpl; lia
      end ].

Lemma _deal_damage_range t d s :
  0 ≤ d → all_in_range s → all_in_range (state_of (_deal_damage t d s)).
Proof.
  intros Hd Hs. unfold _deal_damage. walk leaf_range.
Qed.

Lemma attack_damage_nonneg a t : in_range a → 0 ≤ attack_damage a t.
Proof.
  intros (_ & _ & _ & H). unfold attack_damage. destruct (_ && _); lia.
Qed.

Lemma white_mage_heal_range mage target s :
  all_in_range s → all_in_range (state_of (white_mage_heal mage target s)).
Proof.
  intros Hs. unfold white_mage_heal. cbv beta zeta.
  destruct (negb _); [done|]. destruct (Figure.has_acted _); [done|].
  destruct (bool_decide _); [done|].
  unfold bind at 1.
  destruct (_in_reach _ _ _ s) as [ok s1|e s1] eqn:Hreach.
  - apply _in_reach_Ok in Hreach as ->. destruct (negb ok); [done|].
    simpl. apply all_in_range_update.
    + apply all_in_range_update; [done|].
      pose proof (Hs target). unfold in_range in *. simpl. lia.
    + rewrite fig_update_figure. pose proof (Hs mage). pose proof (Hs target).
      destruct (decide _); unfold in_range in *; simpl; lia.
  - revert Hreach. unfold _in_reach, bind, unpack, raise, ret.
    repeat case_match; intros; simplify_eq; done.
Qed.

Ltac walk_range Hs :=
  walk ltac:(first
    [ leaf_range
    | apply state_of_bomb_loop;
      [by intros; apply _deal_damage_range|assumption]
    | apply _deal_damage_range;
      [first [ done
             | by apply attack_damage_nonneg, Hs
             | open_conditions; lia ]
      | assumption ] ]).

Lemma perform_range a s :
  all_in_range s → all_in_range (state_of (perform a s)).
Proof.
  intros Hs. destruct a; simpl.
  - unfold place_figure. destruct p. walk_range Hs.
  - unfold move_figure. walk_range Hs.
  - unfold knight_charge. walk_range Hs.
  - unfold attack. walk_range Hs.
  - unfold arbalist_long_eye. walk_range Hs.
  - unfold black_mage_magic_bomb. walk_range Hs.
  - unfold black_mage_plague. walk_range Hs.
  - unfold black_mage_vampiric_push, resurrect. walk_range Hs.
  - apply state_of_bind; [|by intros].
    unfold white_mage_conjure. walk_range Hs.
  - apply state_of_bind; [by apply white_mage_heal_range|by intros].
  - unfold white_mage_counter_containment. walk_range Hs.
  - unfold end_turn, reset_flags, decay_containment, _check_win_conditions.
    walk_range Hs.
Qed.

(** X18.  Upper bounds that do hold.  If every figure has life at most its
    maximum, a containment counter between 0 and 2, a maximum life of at
    least 2 and a non-negative attack (as every figure built by
    [Figure.__init__] has), then the same is true after any sequence of
    calls: no heal, resurrection or damage ever takes a life above the
    maximum, and a containment counter never leaves 0..2.  (Life has no
    such lower bound: see C4.) *)
Theorem attributes_stay_in_range acts s :
  all_in_range s → all_in_range (run acts s).
Proof.
  revert s. induction acts as [|a acts IH]; intros s Hs; [done|].
  simpl. by apply IH, perform_range.
Qed.

#[global] Instance in_range_dec f : Decision (in_range f).
Proof. unfold in_range. apply _. Defined.

Lemma all_in_range_decide s :
  bool_decide (map_Forall (λ _ f, in_range f) (heap s)) = true →
  all_in_range s.
Proof.
  intros H%bool_decide_eq_true r. unfold fig.
  rewrite lookup_total_alt. destruct (heap s !! r) as [f|] eqn:Hr; simpl.
  - by apply (H r).
  - unfold in_range. simpl. lia.
Qed.

Lemma attributes_stay_in_range_witness :
  all_in_range full_setup
  ∧ all_in_range (run (skirmish ++ [Heal 1%nat 3%nat; EndTurn]) full_setup).
Proof.
  assert (H : all_in_range full_setup).
  { apply all_in_range_decide. vm_compute. reflexivity. }
  split; [exact H|].
  apply (attributes_stay_in_range _ full_setup). exact H.
Defined.

(** ** Knight charge: who is hurt *)

(** X19.  Whom a Knight's charge hurts.  The open lane of a charge is the
    run of up to four cells ahead of the Knight that comes before the board
    edge or a terrain cell.  When the charge succeeds, every enemy figure
    standing anywhere in the open lane takes one damage call of 2, those
    beyond the cell the Knight lands on included; friendly figures in the
    lane are passed over unharmed, and no figure outside the lane changes.
    The message counts the enemies struck. *)
Theorem charge_hits_the_whole_lane s knight direction row col dr dc landing :
  board_sound s →
  Figure.type (fig s knight) = KNIGHT →
  Figure.has_moved (fig s knight) = false →
  Figure.has_acted (fig s knight) = false →
  Figure.counter_containment_turns (fig s knight) ≤ 0 →
  Figure.position (fig s knight) = Some (row, col) →
  get_figure_at s (row, col) = Some knight →
  charge_vector direction = Some (dr, dc) →
  let lane := open_lane s (charge_cells row col dr dc) in
  let struck := lane_enemies s knight lane in
  last (free_cells s lane) = Some landing →
  ∃ s',
    knight_charge knight direction s
    = Ok (true, "Charge successful, damaged " +:+ pretty (length struck)
                +:+ " figures") s'
    ∧ (∀ x, x ∈ struck ↔
            ∃ p, p ∈ lane ∧ get_figure_at s p = Some x
                 ∧ Figure.player (fig s x) ≠ Figure.player (fig s knight))
    ∧ (∀ x, x ∈ struck → fig s' x = hit 2 (fig s x))
    ∧ (∀ x, x ∉ struck → x ≠ knight → fig s' x = fig s x).
Proof.
  intros Hsound Htype Hmoved Hacted Hfree Hpos Horigin Hdir lane struck Hlast.
  pose proof Hsound as (Hlen & Hrows & Hcells).
  rewrite (knight_charge_unfold s knight direction row col dr dc) by done.
  pose proof (charge_scan_lane s knight row col dr dc (seqZ 1 4) [] None)
    as Hscan.
  cbv zeta in Hscan. fold (charge_cells row col dr dc) in Hscan.
  fold lane in Hscan. rewrite Hscan, Hlast. cbn [app]. fold struck.
  destruct landing as [lrow lcol]. cbv beta iota.
  apply last_elem_of, free_cells_elem in Hlast as [Hlane Hempty].
  apply open_lane_elem in Hlane as (_ & Hvalid & _).
  assert (Hvalid0 : is_valid_position (row, col) = true)
    by by eapply get_figure_at_Some_valid.
  rewrite (relocate_steps knight (row, col) (lrow, lcol)) by done.
  set (sc := relocate knight (row, col) (lrow, lcol) s).
  assert (Hsc : ∀ x, x ≠ knight → fig sc x = fig s x).
  { intros x Hx. unfold sc, relocate. by rewrite fig_update_figure_ne. }
  assert (Henemy : ∀ t, t ∈ struck →
             t ≠ knight ∧ ∃ p, p ∈ lane ∧ get_figure_at s p = Some t).
  { intros t (p & Hp & Hpt & Hpl)%lane_enemies_elem.
    split; [by intros ->|by exists p]. }
  destruct (charge_damage struck sc) as (sd & Hrun & Hfig & _).
  { apply lane_enemies_NoDup; [done|].
    apply open_lane_NoDup. by eapply charge_cells_NoDup. }
  { intros t Ht. destruct (Henemy t Ht) as (Hne & p & Hp & Hpt).
    destruct (Hcells p t Hpt) as (Hpos_t & Halive_t & Hin_t).
    rewrite Hsc by done.
    split; [done|]. split; [done|]. exists p. split; [done|].
    by apply open_lane_elem in Hp as (_ & ? & _). }
  eexists. split.
  { unfold bind. rewrite Hrun. reflexivity. }
  split; [intros x; apply lane_enemies_elem|].
  split.
  - intros x Hx. destruct (Henemy x Hx) as [Hne _].
    rewrite !fig_update_figure_ne by done.
    by rewrite Hfig, decide_True, Hsc.
  - intros x Hx Hne. rewrite !fig_update_figure_ne by done.
    by rewrite Hfig, decide_False, Hsc.
Qed.

Lemma charge_hits_the_whole_lane_witness :
  get_figure_at ambush_game (1, 0) = None
  ∧ get_figure_at ambush_game (2, 0) = Some 2%nat
  ∧ ∃ s', knight_charge 1%nat "down" ambush_game
          = Ok (true, "Charge successful, damaged 1 figures") s'
      ∧ Figure.position (fig s' 1%nat) = Some (1, 0)
      ∧ Figure.life (fig ambush_game 2%nat) = 7
      ∧ Figure.life (fig s' 2%nat) = 5
      ∧ fig s' 3%nat = fig ambush_game 3%nat.
Proof.
  split; [reflexivity|]. split; [reflexivity|].
  assert (Hsound : board_sound ambush_game).
  { apply slots_sound_correct; [reflexivity| |reflexivity].
    refine (bool_decide_unpack _ _). vm_compute. exact I. }
  pose proof (charge_hits_the_whole_lane ambush_game 1%nat "down" 0 0 1 0
                (1, 0) Hsound eq_refl eq_refl eq_refl) as H.
  cbv zeta in H.
  assert (Hstruck : lane_enemies ambush_game 1%nat
                      (open_lane ambush_game (charge_cells 0 0 1 0))
                    = ([2%nat] : list ref)) by (vm_compute; reflexivity).
  rewrite Hstruck in H.
  assert (Hmsg : "Charge successful, damaged "
                 +:+ pretty (length ([2%nat] : list ref)) +:+ " figures"
                 = "Charge successful, damaged 1 figures")
    by (vm_compute; reflexivity).
  rewrite Hmsg in H.
  destruct H as (s' & Hrun & _ & Hhit & Hrest);
    [vm_compute; discriminate | reflexivity | reflexivity | reflexivity
    | vm_compute; reflexivity |].
  exists s'. split; [exact Hrun|].
  split.
  { assert (Hs' : s' = state_of (knight_charge 1%nat "down" ambush_game))
      by (by rewrite Hrun).
    rewrite Hs'. vm_compute. reflexivity. }
  split; [reflexivity|].
  rewrite (Hhit 2%nat), (Hrest 3%nat).
  - split; vm_compute; reflexivity.
  - intros Hin. vm_compute in Hin.
    repeat (apply elem_of_cons in Hin as [Hin|Hin]; [discriminate|]).
    by apply elem_of_nil in Hin.
  - discriminate.
  - apply list_elem_of_here.
Defined.

(** ** Further sample runs *)

Lemma place_figure_effect_witness :
  Figure.player (fig standoff 5%nat) = ONE
  ∧ place_figure 5%nat (1, 0) standoff = Ok true (placed 5%nat (1, 0) standoff)
  ∧ ∀ s', place_figure 5%nat (2, 0) standoff ≠ Ok true s'.
Proof.
  split; [reflexivity|]. split.
  - apply (place_figure_effect 5%nat (1, 0) standoff).
    split; [|split; reflexivity].
    refine (bool_decide_unpack _ _). vm_compute. exact I.
  - intros s' Hrun.
    apply (place_figure_effect 5%nat (2, 0) standoff) in Hrun as [Hzone _].
    apply start_zone_rows in Hzone as [Hrow _]. vm_compute in Hrow.
    destruct Hrow as [_ Hrow]. discriminate Hrow.
Defined.

(** Every figure starts within the ranges. *)
Lemma __init___in_range ft pl : in_range (Figure.__init__ ft pl).
Proof. destruct ft; unfold in_range; simpl; lia. Qed.
